(** * A single-tape deterministic Turing machine simulator

    Shallow embedding of the execution engine of the simulator
    ([core/machine.py]) together with the data classes it works on
    ([transition.py], [state.py], [machine_config.py],
    [instant_description.py]), and the properties of the engine: halting,
    head movement, validation, termination under a step ceiling,
    determinism and the shape of the snapshots.

    Conventions of the embedding.
    - A Python [str] is a [string], its characters the 8-bit characters of
      [string]; iterating over it yields one-character strings
      ([Py.chars]).  Tape symbols are [str] values, so a tape cell holds a
      [string], not a character: nothing in the source restricts a write
      symbol or the blank symbol to one character.
    - A Python [int] is a [Z].  List indexing follows Python: a negative
      index counts from the end, an index out of range raises [IndexError].
    - A [dict] is a [gmap], a [set] a [gset].
    - Every [raise] becomes a value of [exn]; a method that may raise
      returns a [result].  All exceptions of the source are [ValueError]s
      that differ in their message; the constructors of [exn] name the raise
      sites, and carry the message where a property speaks of it.  The
      [isinstance] checks of the data classes are what the types say.
    - [while True] is unrolled with fuel; running out of fuel is [None] and
      is never confused with a returned value.
    - The tape is a local list mutated in place ([insert], [append], item
      assignment); it is threaded explicitly.  The trace only grows by
      [append].  [self] is only ever read by [run] and its helpers (no
      attribute is assigned, no collection reachable from it is mutated),
      so it is an ordinary argument.
    - That a call leaves the objects it is given as they are is not a
      convention but a property: [Heap] embeds [__init__] and [run] a second
      time, on a store of objects with identities, and the two embeddings
      are proved to agree. *)

From Stdlib Require Import ZArith.
From stdpp Require Import gmap strings list sorting fin_maps.

(** ** Exceptions and results *)

Inductive endpoint := Source | Destination.

Inductive exn :=
| InvalidRule (field : string)            (* Transition.__post_init__ *)
| InvalidState                            (* State.__post_init__ *)
| InvalidMachine (reason : string)        (* MachineConfig.__post_init__ *)
| InvalidSnapshot (field : string)        (* InstantDescription.__post_init__ *)
| DuplicateTransition (key : string * string)
| DanglingState (which : endpoint) (name : string)
| InvalidSymbol (message : string)
| IndexError.

Inductive result (A : Type) :=
| Return (a : A)
| Raise (e : exn).
Arguments Return {A} a.
Arguments Raise {A} e.

#[global] Instance endpoint_eq_dec : EqDecision endpoint.
Proof. solve_decision. Defined.
#[global] Instance exn_eq_dec : EqDecision exn.
Proof. solve_decision. Defined.
#[global] Instance result_eq_dec `{EqDecision A} : EqDecision (result A).
Proof. solve_decision. Defined.

Definition bind {A B} (r : result A) (k : A → result B) : result B :=
  match r with
  | Return a => k a
  | Raise e => Raise e
  end.

Notation "'do' x <- r ; k" := (bind r (fun x => k))
  (at level 10, x pattern, r at level 100, k at level 200).

(** ** Python primitives used by the engine *)

Module Py.

(** [for ch in s] *)
Fixpoint chars (s : string) : list string :=
  match s with
  | EmptyString => []
  | String a s' => String a EmptyString :: chars s'
  end.

(** [sep.join(parts)] *)
Definition join (sep : string) (parts : list string) : string :=
  String.concat sep parts.

(** Position denoted by the index [i] in a list of length [n]. *)
Definition index (n : nat) (i : Z) : option nat :=
  if decide (0 ≤ i < Z.of_nat n)%Z then Some (Z.to_nat i)
  else if decide (- Z.of_nat n ≤ i < 0)%Z then Some (Z.to_nat (Z.of_nat n + i))
  else None.

(** [l[i]] *)
Definition getitem {A} (l : list A) (i : Z) : result A :=
  match index (length l) i with
  | Some k => match l !! k with Some x => Return x | None => Raise IndexError end
  | None => Raise IndexError
  end.

(** [l[i] = x] *)
Definition setitem {A} (l : list A) (i : Z) (x : A) : result (list A) :=
  match index (length l) i with
  | Some k => Return (<[k:=x]> l)
  | None => Raise IndexError
  end.

(** [str] comparison, lexicographic on code points, is [String.le];
    [sorted(xs)] puts [xs] in that order. *)
Definition sorted (xs : list string) : list string := merge_sort String.le xs.

(** [len(l)] *)
Definition len {A} (l : list A) : Z := Z.of_nat (length l).

End Py.

(** ** transition.py *)

Module Transition.

Definition _VALID_MOVES : gset string := {[ "L"; "R"; "S" ]}.

Record t := mk {
  current_state : string;
  read_symbol : string;
  write_symbol : string;
  move : string;
  next_state : string
}.

Definition __post_init__ (self : t) : result unit :=
  if decide (move self ∉ _VALID_MOVES) then Raise (InvalidRule "move")
  else if decide (current_state self = "") then Raise (InvalidRule "current_state")
  else if decide (read_symbol self = "") then Raise (InvalidRule "read_symbol")
  else if decide (write_symbol self = "") then Raise (InvalidRule "write_symbol")
  else if decide (next_state self = "") then Raise (InvalidRule "next_state")
  else Return tt.

Definition signature (self : t) : string * string :=
  (current_state self, read_symbol self).

#[global] Instance rule_eq_dec : EqDecision t.
Proof. solve_decision. Defined.

End Transition.

(** ** state.py *)

Module State.

Record t := mk { name : string }.

Definition __post_init__ (self : t) : result unit :=
  if decide (name self = "") then Raise InvalidState else Return tt.

(** [State(name)]: build, then validate. *)
Definition new (name : string) : result t :=
  do _ <- __post_init__ (mk name); Return (mk name).

End State.

(** ** machine_config.py *)

Module MachineConfig.

Record t := mk {
  states : list string;
  input_alphabet : list string;
  tape_alphabet : list string;
  initial_state : string;
  accept_states : list string;
  transitions : list Transition.t;
  inputs : option (list string);
  blank_symbol : string
}.

(** [__post_init__] on fields that hold values of the annotated classes,
    which the types of [t] say: the class checks of [_copy_str_list] and of
    the rules pass on them and copying a list leaves its items as they are.
    The accept-states message is given without the list of missing names
    that the source puts in it. *)
Definition __post_init__ (self : t) : result unit :=
  if decide (states self = []) then
    Raise (InvalidMachine "Configuration must define at least one state.")
  else if decide (¬ (list_to_set (input_alphabet self) : gset string)
                     ⊆ list_to_set (tape_alphabet self)) then
    Raise (InvalidMachine "input_alphabet must be a subset of tape_alphabet.")
  else if decide (initial_state self = "") then
    Raise (InvalidMachine "initial_state must be a non-empty string.")
  else if decide (initial_state self ∉ states self) then
    Raise (InvalidMachine "initial_state must belong to states list.")
  else if decide (filter (λ s, s ∉ states self) (accept_states self) ≠ []) then
    Raise (InvalidMachine "accept_states must belong to states list.")
  else if decide (blank_symbol self ∉ (list_to_set (tape_alphabet self) : gset string)) then
    Raise (InvalidMachine "blank_symbol must be part of tape_alphabet.")
  else if decide (transitions self = []) then
    Raise (InvalidMachine "Configuration must contain at least one transition.")
  else Return tt.

(** A definition as a caller can hold it: it passed its own validation and
    so did each of its rules when they were built. *)
Definition valid (self : t) : Prop :=
  __post_init__ self = Return tt
  ∧ Forall (λ r, Transition.__post_init__ r = Return tt) (transitions self).

#[global] Instance valid_dec self : Decision (valid self).
Proof. unfold valid. apply and_dec; [|apply Forall_dec; intros r]; solve_decision. Defined.

End MachineConfig.

(** ** instant_description.py *)

Module InstantDescription.

Record t := mk {
  state : string;
  tape : string;
  head_position : Z
}.

Definition __post_init__ (self : t) : result unit :=
  if decide (state self = "") then Raise (InvalidSnapshot "state")
  else if decide (head_position self < 0)%Z then Raise (InvalidSnapshot "head_position")
  else Return tt.

Definition new (state tape : string) (head_position : Z) : result t :=
  do _ <- __post_init__ (mk state tape head_position);
  Return (mk state tape head_position).

#[global] Instance snapshot_eq_dec : EqDecision t.
Proof. solve_decision. Defined.

End InstantDescription.

(** ** machine.py *)

Module Machine.

Record t := mk {
  _config : MachineConfig.t;
  _states : gmap string State.t;
  _accept_states : gset string;
  _blank_symbol : string;
  _max_steps : option Z;
  _transition_map : gmap (string * string) Transition.t
}.

(** [{name: State(name) for name in config.states}], names taken in list
    order, the dict under construction in [acc]. *)
Fixpoint states_dict (names : list string) (acc : gmap string State.t)
    : result (gmap string State.t) :=
  match names with
  | [] => Return acc
  | name :: names' =>
      do st <- State.new name;
      states_dict names' (<[name := st]> acc)
  end.

(** The [for] loop of [_build_transition_map]; [transition_map] is the dict
    filled so far.  The method reads [self._states] only, which [__init__]
    has assigned before the call. *)
Fixpoint build_loop (_states : gmap string State.t)
    (transitions : list Transition.t)
    (transition_map : gmap (string * string) Transition.t)
    : result (gmap (string * string) Transition.t) :=
  match transitions with
  | [] => Return transition_map
  | transition :: transitions' =>
      let key := Transition.signature transition in
      if decide (is_Some (transition_map !! key)) then
        Raise (DuplicateTransition key)
      else if decide (_states !! Transition.current_state transition = None) then
        Raise (DanglingState Source (Transition.current_state transition))
      else if decide (_states !! Transition.next_state transition = None) then
        Raise (DanglingState Destination (Transition.next_state transition))
      else build_loop _states transitions' (<[key := transition]> transition_map)
  end.

Definition _build_transition_map (_states : gmap string State.t)
    (transitions : list Transition.t)
    : result (gmap (string * string) Transition.t) :=
  build_loop _states transitions ∅.

Definition __init__ (config : MachineConfig.t) (max_steps : option Z) : result t :=
  do _states <- states_dict (MachineConfig.states config) ∅;
  let _accept_states := list_to_set (MachineConfig.accept_states config) in
  let _blank_symbol := MachineConfig.blank_symbol config in
  do _transition_map <- _build_transition_map _states (MachineConfig.transitions config);
  Return (mk config _states _accept_states _blank_symbol max_steps _transition_map).

(** The characters of the input that are not input symbols, in input order. *)
Definition invalid_symbols (self : t) (input_string : string) : list string :=
  let tape_symbols : gset string :=
    list_to_set (MachineConfig.input_alphabet (_config self)) in
  filter (λ ch, ch ∉ tape_symbols) (Py.chars input_string).

(** [sorted(set(invalid_symbols))] *)
Definition offending (invalid : list string) : list string :=
  Py.sorted (elements (list_to_set invalid : gset string)).

Definition _validate_input_string (self : t) (input_string : string) : result unit :=
  let invalid := invalid_symbols self input_string in
  if decide (invalid ≠ []) then
    Raise (InvalidSymbol
             ("Input string contains symbols outside the input alphabet: "
              +:+ Py.join ", " (offending invalid)))
  else Return tt.

Definition _initialize_tape (self : t) (input_string : string) : list string :=
  if decide (input_string = "") then [_blank_symbol self]
  else Py.chars input_string.

(** Returns the new head index and the tape as [insert]/[append] left it. *)
Definition _move_head (self : t) (head_index : Z) (move : string)
    (tape : list string) : Z * list string :=
  if decide (move = "L") then
    if decide (head_index = 0%Z) then (0%Z, _blank_symbol self :: tape)
    else ((head_index - 1)%Z, tape)
  else if decide (move = "R") then
    let head_index := (head_index + 1)%Z in
    if decide (head_index = Py.len tape) then
      (head_index, tape ++ [_blank_symbol self])
    else (head_index, tape)
  else (head_index, tape).

Definition _snapshot (self : t) (current_state : string) (tape : list string)
    (head_index : Z) : result InstantDescription.t :=
  let tape_str := Py.join "" tape in
  InstantDescription.new current_state tape_str head_index.

(** [Machine.run] is cut at its [return] statements and at the head of the
    loop: [start] is the code before the first acceptance test, [apply_rule]
    the loop body up to and including the new snapshot, [iteration] the
    whole body with its three tests, [loop] the [while True], and
    [run_traced] their composition.  [run_traced] returns, besides the trace
    and the verdict, which [return] was taken and the values of the local
    variables at that point; [run] forgets them. *)

(** The local variables of [run]. *)
Record locals := Locals {
  tape : list string;
  head_index : Z;
  current_state : string;
  history : list InstantDescription.t;
  steps : Z
}.

(** The four [return] statements of [run]. *)
Inductive exit :=
  | AcceptAtStart     (* initial state accepting *)
  | HaltByOmission    (* no transition for (state, symbol) *)
  | AcceptAfterStep   (* accepting state reached *)
  | StepCeiling.      (* max_steps reached *)

(** What [run] hands back, with the locals and the [return] taken kept as
    ghost information: the Python value is [(history, accepted)]. *)
Record outcome := Outcome {
  via : exit;
  final : locals;
  accepted : bool
}.

(** Lines up to the loop: validation, tape, first snapshot. *)
Definition start (self : t) (input_string : string) : result locals :=
  do _ <- _validate_input_string self input_string;
  let tape := _initialize_tape self input_string in
  let head_index := 0%Z in
  let current_state := MachineConfig.initial_state (_config self) in
  do snap <- _snapshot self current_state tape head_index;
  Return (Locals tape head_index current_state [snap] 0).

(** First half of the loop body: look the rule up and apply it.  [None]
    when the table has no rule for the pair under the head. *)
Definition apply_rule (self : t) (l : locals) : result (option locals) :=
  do symbol <- Py.getitem (tape l) (head_index l);
  match _transition_map self !! (current_state l, symbol) with
  | None => Return None
  | Some transition =>
      do tape <- Py.setitem (tape l) (head_index l) (Transition.write_symbol transition);
      let current_state := Transition.next_state transition in
      let '(head_index, tape) :=
        _move_head self (head_index l) (Transition.move transition) tape in
      let steps := (steps l + 1)%Z in
      do snap <- _snapshot self current_state tape head_index;
      Return (Some (Locals tape head_index current_state (history l ++ [snap]) steps))
  end.

(** [self._max_steps is not None and steps >= self._max_steps] *)
Definition ceiling_reached (self : t) (steps : Z) : bool :=
  match _max_steps self with
  | Some n => bool_decide (n ≤ steps)%Z
  | None => false
  end.

(** One pass through the loop body: either a [return] or the locals for the
    next pass. *)
Definition iteration (self : t) (l : locals) : result (outcome + locals) :=
  do next <- apply_rule self l;
  match next with
  | None => Return (inl (Outcome HaltByOmission l false))
  | Some l' =>
      if decide (current_state l' ∈ _accept_states self) then
        Return (inl (Outcome AcceptAfterStep l' true))
      else if ceiling_reached self (steps l') then
        Return (inl (Outcome StepCeiling l'
                       (bool_decide (current_state l' ∈ _accept_states self))))
      else Return (inr l')
  end.

(** [while True], at most [fuel] passes. *)
Fixpoint loop (fuel : nat) (self : t) (l : locals) : option (result outcome) :=
  match fuel with
  | O => None
  | S fuel' =>
      match iteration self l with
      | Raise e => Some (Raise e)
      | Return (inl out) => Some (Return out)
      | Return (inr l') => loop fuel' self l'
      end
  end.

Definition run_traced (fuel : nat) (self : t) (input_string : string)
    : option (result outcome) :=
  match start self input_string with
  | Raise e => Some (Raise e)
  | Return l =>
      if decide (current_state l ∈ _accept_states self) then
        Some (Return (Outcome AcceptAtStart l true))
      else loop fuel self l
  end.

(** [Machine.run]: the trace and the verdict. *)
Definition run (fuel : nat) (self : t) (input_string : string)
    : option (result (list InstantDescription.t * bool)) :=
  match run_traced fuel self input_string with
  | None => None
  | Some (Raise e) => Some (Raise e)
  | Some (Return out) => Some (Return (history (final out), accepted out))
  end.

(** [n] rules applied in a row from [l], none of them missing, the state
    before each of them not accepting: the run gets [n] steps further
    without a halt by acceptance or by omission. *)
Fixpoint advance (self : t) (n : nat) (l : locals) : option locals :=
  match n with
  | O => Some l
  | S n' =>
      if decide (current_state l ∈ _accept_states self) then None
      else match apply_rule self l with
           | Return (Some l') => advance self n' l'
           | _ => None
           end
  end.

End Machine.

(** ** machine.py, on objects

    A second embedding of [Machine.__init__] and [Machine.run], in which
    every object that Python can mutate has an identity: the engine, the
    definition and its lists, the dicts and the set of the engine, the tape
    and the trace are objects in a store, local variables and attributes
    hold references to them, and every read of an attribute and every
    mutation of a list is an operation on the store.  What a call leaves of
    the objects it was given, and whether two calls see the same engine, are
    then statements about stores.  Strings and integers are immutable and
    are held by value; so are rules, states and snapshots, no attribute of
    which is assigned anywhere in the package. *)

Module Heap.

(** References are positive numbers. *)
Abbreviation loc := positive (only parsing).

(** The attributes of a [MachineConfig] object. *)
Record config_fields := ConfigFields {
  states : loc;
  input_alphabet : loc;
  tape_alphabet : loc;
  initial_state : string;
  accept_states : loc;
  transitions : loc;
  inputs : option loc;
  blank_symbol : string
}.

(** The attributes of a [Machine] object. *)
Record machine_fields := MachineFields {
  _config : loc;
  _states : loc;
  _accept_states : loc;
  _blank_symbol : string;
  _max_steps : option Z;
  _transition_map : loc
}.

Inductive object :=
| StrList (items : list string)
| RuleList (items : list Transition.t)
| SnapshotList (items : list InstantDescription.t)
| StrSet (items : gset string)
| StateDict (items : gmap string State.t)
| RuleDict (items : gmap (string * string) Transition.t)
| ConfigObject (fields : config_fields)
| MachineObject (fields : machine_fields).

Abbreviation store := (gmap loc object) (only parsing).

(** A computation on the store: [None] when the loop runs out of fuel, or
    when a reference does not lead to an object of the class the code
    expects, which does not happen in a store that holds an engine;
    otherwise what was returned or raised and the store as it was left. *)
Definition M (A : Type) : Type := store → option (result A * store).

Definition ret {A} (a : A) : M A := λ h, Some (Return a, h).

Definition raise {A} (e : exn) : M A := λ h, Some (Raise e, h).

Definition lift {A} (r : result A) : M A := λ h, Some (r, h).

Definition and_then {A B} (m : M A) (k : A → M B) : M B := λ h,
  match m h with
  | Some (Return a, h') => k a h'
  | Some (Raise e, h') => Some (Raise e, h')
  | None => None
  end.

Notation "'let*' x := m 'in' k" := (and_then m (λ x, k))
  (at level 10, x pattern, m at level 100, k at level 200).

(** A new object, at a location that holds none. *)
Definition alloc (o : object) : M loc := λ h,
  let l := fresh (dom h) in Some (Return l, <[l := o]> h).

(** The object a reference leads to, seen as an object of one class. *)
Definition deref {A} (class : object → option A) (l : loc) : M A := λ h,
  match h !! l ≫= class with
  | Some a => Some (Return a, h)
  | None => None
  end.

Definition update (l : loc) (o : object) : M unit := λ h,
  Some (Return tt, <[l := o]> h).

Definition str_list (o : object) : option (list string) :=
  match o with StrList items => Some items | _ => None end.

Definition rule_list (o : object) : option (list Transition.t) :=
  match o with RuleList items => Some items | _ => None end.

Definition snapshot_list (o : object) : option (list InstantDescription.t) :=
  match o with SnapshotList items => Some items | _ => None end.

Definition str_set (o : object) : option (gset string) :=
  match o with StrSet items => Some items | _ => None end.

Definition state_dict (o : object) : option (gmap string State.t) :=
  match o with StateDict items => Some items | _ => None end.

Definition rule_dict (o : object) : option (gmap (string * string) Transition.t) :=
  match o with RuleDict items => Some items | _ => None end.

Definition config_object (o : object) : option config_fields :=
  match o with ConfigObject fields => Some fields | _ => None end.

Definition machine_object (o : object) : option machine_fields :=
  match o with MachineObject fields => Some fields | _ => None end.

(** [self.attribute], read when the expression is evaluated. *)
Definition attribute {A} (name : machine_fields → A) (self : loc) : M A :=
  let* fields := deref machine_object self in ret (name fields).

(** [config.attribute] *)
Definition config_attribute {A} (name : config_fields → A) (config : loc) : M A :=
  let* fields := deref config_object config in ret (name fields).

(** [tape[i]] *)
Definition getitem (tape : loc) (i : Z) : M string :=
  let* items := deref str_list tape in lift (Py.getitem items i).

(** [tape[i] = x] *)
Definition setitem (tape : loc) (i : Z) (x : string) : M unit :=
  let* items := deref str_list tape in
  let* items := lift (Py.setitem items i x) in
  update tape (StrList items).

(** [tape.insert(0, x)] *)
Definition insert_first (tape : loc) (x : string) : M unit :=
  let* items := deref str_list tape in update tape (StrList (x :: items)).

(** [tape.append(x)] *)
Definition append (tape : loc) (x : string) : M unit :=
  let* items := deref str_list tape in update tape (StrList (items ++ [x])).

(** [history.append(snapshot)] *)
Definition append_snapshot (history : loc) (snapshot : InstantDescription.t) : M unit :=
  let* items := deref snapshot_list history in
  update history (SnapshotList (items ++ [snapshot])).

(** [Machine(config, max_steps=max_steps)].  The dict of states, the set of
    accept states and the table are new objects; the definition is not
    copied: the engine refers to the object it was given.  The instance, to
    which nothing refers before the call returns, is allocated once its
    attributes are known; [_build_transition_map] reads of it the dict of
    states only. *)
Definition __init__ (config : loc) (max_steps : option Z) : M loc :=
  let* states := config_attribute states config in
  let* names := deref str_list states in
  let* state_objects := lift (Machine.states_dict names ∅) in
  let* _states := alloc (StateDict state_objects) in
  let* accept_states := config_attribute accept_states config in
  let* names := deref str_list accept_states in
  let* _accept_states := alloc (StrSet (list_to_set names)) in
  let* _blank_symbol := config_attribute blank_symbol config in
  let* transitions := config_attribute transitions config in
  let* rules := deref rule_list transitions in
  let* declared := deref state_dict _states in
  let* table := lift (Machine._build_transition_map declared rules) in
  let* _transition_map := alloc (RuleDict table) in
  alloc (MachineObject (MachineFields config _states _accept_states _blank_symbol
                          max_steps _transition_map)).

Section run.

(** [order xs] is the order in which Python enumerates [set(xs)], which
    depends on the hashes of the elements and so on the process. *)
Context (order : list string → list string).

Definition _validate_input_string (self : loc) (input_string : string) : M unit :=
  let* config := attribute _config self in
  let* input_alphabet := config_attribute input_alphabet config in
  let* symbols := deref str_list input_alphabet in
  let tape_symbols : gset string := list_to_set symbols in
  let invalid_symbols := filter (λ ch, ch ∉ tape_symbols) (Py.chars input_string) in
  if decide (invalid_symbols ≠ []) then
    raise (InvalidSymbol
             ("Input string contains symbols outside the input alphabet: "
              +:+ Py.join ", " (Py.sorted (order invalid_symbols))))
  else ret tt.

(** Returns a new list in both cases. *)
Definition _initialize_tape (self : loc) (input_string : string) : M loc :=
  if decide (input_string = "") then
    let* blank := attribute _blank_symbol self in alloc (StrList [blank])
  else alloc (StrList (Py.chars input_string)).

Definition _move_head (self : loc) (head_index : Z) (move : string) (tape : loc)
    : M Z :=
  if decide (move = "L") then
    if decide (head_index = 0%Z) then
      let* blank := attribute _blank_symbol self in
      let* _ := insert_first tape blank in
      ret 0%Z
    else ret (head_index - 1)%Z
  else if decide (move = "R") then
    let head_index := (head_index + 1)%Z in
    let* items := deref str_list tape in
    if decide (head_index = Py.len items) then
      let* blank := attribute _blank_symbol self in
      let* _ := append tape blank in
      ret head_index
    else ret head_index
  else ret head_index.

Definition _snapshot (self : loc) (current_state : string) (tape : loc)
    (head_index : Z) : M InstantDescription.t :=
  let* items := deref str_list tape in
  let tape_str := Py.join "" items in
  lift (InstantDescription.new current_state tape_str head_index).

(** [current_state in self._accept_states] *)
Definition accepting (self : loc) (current_state : string) : M bool :=
  let* _accept_states := attribute _accept_states self in
  let* names := deref str_set _accept_states in
  ret (bool_decide (current_state ∈ names)).

(** The local variables of [run]; [tape] and [history] refer to lists. *)
Record locals := Locals {
  tape : loc;
  head_index : Z;
  current_state : string;
  history : loc;
  steps : Z
}.

(** One pass of the loop body: [inl] the value returned by a [return], or
    [inr] the locals for the next pass.  The two reads of [self._max_steps]
    in the last test, between which nothing is done, are one read. *)
Definition pass (self : loc) (l : locals) : M (loc * bool + locals) :=
  let* symbol := getitem (tape l) (head_index l) in
  let* _transition_map := attribute _transition_map self in
  let* table := deref rule_dict _transition_map in
  match table !! (current_state l, symbol) with
  | None => ret (inl (history l, false))
  | Some transition =>
      let* _ := setitem (tape l) (head_index l) (Transition.write_symbol transition) in
      let current_state := Transition.next_state transition in
      let* head_index :=
        _move_head self (head_index l) (Transition.move transition) (tape l) in
      let steps := (steps l + 1)%Z in
      let* snapshot := _snapshot self current_state (tape l) head_index in
      let* _ := append_snapshot (history l) snapshot in
      let* accepted := accepting self current_state in
      if accepted then ret (inl (history l, true))
      else
        let* _max_steps := attribute _max_steps self in
        match _max_steps with
        | Some n =>
            if decide (n ≤ steps)%Z then
              let* accepted := accepting self current_state in
              ret (inl (history l, accepted))
            else ret (inr (Locals (tape l) head_index current_state (history l) steps))
        | None =>
            ret (inr (Locals (tape l) head_index current_state (history l) steps))
        end
  end.

(** [while True], at most [fuel] passes. *)
Fixpoint loop (fuel : nat) (self : loc) (l : locals) : M (loc * bool) :=
  match fuel with
  | O => λ _, None
  | S fuel' =>
      let* next := pass self l in
      match next with
      | inl returned => ret returned
      | inr l' => loop fuel' self l'
      end
  end.

(** [Machine.run]: returns the trace, a reference to a list made by the
    call, and the verdict. *)
Definition run (fuel : nat) (self : loc) (input_string : string) : M (loc * bool) :=
  let* _ := _validate_input_string self input_string in
  let* tape := _initialize_tape self input_string in
  let head_index := 0%Z in
  let* config := attribute _config self in
  let* current_state := config_attribute initial_state config in
  let* snapshot := _snapshot self current_state tape head_index in
  let* history := alloc (SnapshotList [snapshot]) in
  let* accepted := accepting self current_state in
  if accepted then ret (history, true)
  else
    let steps := 0%Z in
    loop fuel self (Locals tape head_index current_state history steps).

End run.

(** What a caller holds after a call: the snapshots of the returned trace,
    read in the store the call left, and the verdict; or the exception. *)
Definition returned (r : result (loc * bool) * store)
    : option (result (list InstantDescription.t * bool)) :=
  match r with
  | (Return (history, accepted), h) =>
      match h !! history ≫= snapshot_list with
      | Some trace => Some (Return (trace, accepted))
      | None => None
      end
  | (Raise e, _) => Some (Raise e)
  end.

(** The object at [config] is the definition [definition]. *)
Definition is_config (h : store) (config : loc) (definition : MachineConfig.t) : Prop :=
  ∃ fields,
    h !! config = Some (ConfigObject fields)
    ∧ h !! states fields = Some (StrList (MachineConfig.states definition))
    ∧ h !! input_alphabet fields
      = Some (StrList (MachineConfig.input_alphabet definition))
    ∧ h !! tape_alphabet fields
      = Some (StrList (MachineConfig.tape_alphabet definition))
    ∧ initial_state fields = MachineConfig.initial_state definition
    ∧ h !! accept_states fields
      = Some (StrList (MachineConfig.accept_states definition))
    ∧ h !! transitions fields
      = Some (RuleList (MachineConfig.transitions definition))
    ∧ match inputs fields, MachineConfig.inputs definition with
      | Some l, Some strings => h !! l = Some (StrList strings)
      | None, None => True
      | _, _ => False
      end
    ∧ blank_symbol fields = MachineConfig.blank_symbol definition.

(** The object at [self] is the engine [engine]: each attribute holds, or
    refers to an object that holds, the value of the field. *)
Definition is_machine (h : store) (self : loc) (engine : Machine.t) : Prop :=
  ∃ fields,
    h !! self = Some (MachineObject fields)
    ∧ is_config h (_config fields) (Machine._config engine)
    ∧ h !! _states fields = Some (StateDict (Machine._states engine))
    ∧ h !! _accept_states fields = Some (StrSet (Machine._accept_states engine))
    ∧ _blank_symbol fields = Machine._blank_symbol engine
    ∧ _max_steps fields = Machine._max_steps engine
    ∧ h !! _transition_map fields = Some (RuleDict (Machine._transition_map engine)).

(** The locals [l] of a call that found the store [h0] hold, in the store
    [h], the configuration [configuration]: the tape and the trace are
    lists made since the call began, and every object of [h0] is as it
    was. *)
Definition holds (h0 h : store) (l : locals) (configuration : Machine.locals) : Prop :=
  h0 ⊆ h
  ∧ h0 !! tape l = None
  ∧ h0 !! history l = None
  ∧ h !! tape l = Some (StrList (Machine.tape configuration))
  ∧ h !! history l = Some (SnapshotList (Machine.history configuration))
  ∧ head_index l = Machine.head_index configuration
  ∧ current_state l = Machine.current_state configuration
  ∧ steps l = Machine.steps configuration.

(** [order] gives, for every list, the elements of the set made of it,
    each once, in some order. *)
Definition enumerates (order : list string → list string) : Prop :=
  ∀ xs, order xs ≡ₚ elements (list_to_set xs : gset string).

End Heap.

(** ** cli.py *)

Module TuringMachine.

(** [Machine(self.config, max_steps=10000)]: the engine [load_machine]
    builds from the definition it has loaded. *)
Definition machine_of (config : MachineConfig.t) : result Machine.t :=
  Machine.__init__ config (Some 10000%Z).

(** [_format_tape_with_head]; the method does not use [self].  The slices
    [tape[:h]] and [tape[h + 1:]] and the item [tape[h]] are taken only
    for [0 <= h < len(tape)], where they are these substrings. *)
Definition _format_tape_with_head (tape : string) (head_position : Z) : string :=
  if decide (tape = "" ∨ (head_position < 0)%Z
             ∨ (Z.of_nat (String.length tape) ≤ head_position)%Z) then tape
  else
    let h := Z.to_nat head_position in
    let before := String.substring 0 h tape in
    let symbol := String.substring h 1 tape in
    let after := String.substring (h + 1) (String.length tape - (h + 1)) tape in
    before +:+ "[" +:+ symbol +:+ "]" +:+ after.

End TuringMachine.

(** ** parser.py *)

Module Parser.

(** What [yaml.safe_load] hands to the parser, as far as the parser tells
    values apart: a [str], a [list], a [dict] (its entries with a [str] key,
    each key once; the parser looks up no other key), or any other object
    (a number, a boolean, [None], ...), of which only matters whether it
    can be hashed. *)
#[local] Unset Elimination Schemes.
Inductive value :=
  | Str (s : string)
  | List (items : list value)
  | Dict (entries : list (string * value))
  | Other (hashable : bool).
#[local] Set Elimination Schemes.

(** The [ValueError]s of the parser, the exceptions of [Transition(...)]
    passing through it, and the [TypeError] of hashing a list or a dict. *)
Inductive error :=
  | NotAList                                   (* 'transitions' is no list *)
  | NotADict (idx : nat)                       (* entry #idx is no dict *)
  | MissingKeys (idx : nat) (missing : gset string)
  | NotAllStrings (field_name : string)        (* a list with a non-str element *)
  | NotStringOrList (field_name : string)
  | LengthMismatch (idx : nat) (n_read n_write : nat)
  | RuleError (e : exn)
  | TypeError.

Inductive res (A : Type) :=
  | Ok (a : A)
  | Err (e : error).
Arguments Ok {A} a.
Arguments Err {A} e.

Definition and_then {A B} (r : res A) (k : A → res B) : res B :=
  match r with
  | Ok a => k a
  | Err e => Err e
  end.

Notation "'try' x <- r ; k" := (and_then r (fun x => k))
  (at level 10, x pattern, r at level 100, k at level 200).

(** [trans_dict[key]], [None] when the key is missing. *)
Fixpoint get (key : string) (entries : list (string * value)) : option value :=
  match entries with
  | [] => None
  | (k, v) :: entries' => if decide (k = key) then Some v else get key entries'
  end.

(** [set(trans_dict.keys())], the [str] keys. *)
Definition keys (entries : list (string * value)) : gset string :=
  list_to_set (fst <$> entries).

Definition is_str (v : value) : bool :=
  match v with Str _ => true | _ => false end.

(** The [str] a value is, the empty string for a value that is no [str]:
    [Transition.__post_init__] rejects both alike, field by field
    ([not isinstance(value, str) or value == ""]), and a hashable value
    that is no [str] is in [_VALID_MOVES] as little as the empty string. *)
Definition as_str (v : value) : string :=
  match v with Str s => s | _ => "" end.

(** Whether [v in _VALID_MOVES] can be evaluated: it hashes [v]. *)
Definition hashable (v : value) : bool :=
  match v with
  | Str _ => true
  | Other h => h
  | List _ | Dict _ => false
  end.

(** [Transition(current_state=..., read_symbol=..., write_symbol=...,
    move=..., next_state=...)] on what the parser passes: [str] symbols and
    three values taken from the document as they are. *)
Definition new_rule (current_state : value) (read_symbol write_symbol : string)
    (move next_state : value) : res Transition.t :=
  if hashable move then
    let rule := Transition.mk (as_str current_state) read_symbol write_symbol
                  (as_str move) (as_str next_state) in
    match Transition.__post_init__ rule with
    | Return _ => Ok rule
    | Raise e => Err (RuleError e)
    end
  else Err TypeError.

(** The elements of a list that are [str], when all of them are. *)
Fixpoint all_str (items : list value) : option (list string) :=
  match items with
  | [] => Some []
  | Str s :: items' => cons s <$> all_str items'
  | _ :: _ => None
  end.

Definition _normalize_symbol_field (v : value) (field_name : string)
    : res (list string) :=
  match v with
  | Str s => Ok [s]
  | List items =>
      match all_str items with
      | Some symbols => Ok symbols
      | None => Err (NotAllStrings field_name)
      end
  | _ => Err (NotStringOrList field_name)
  end.

(** The inner loop: one [Transition] per pair of [zip(read_symbols,
    write_symbols)], in order. *)
Fixpoint expand (current_state move next_state : value)
    (read_symbols write_symbols : list string) : res (list Transition.t) :=
  match read_symbols, write_symbols with
  | read_sym :: read_symbols', write_sym :: write_symbols' =>
      try rule <- new_rule current_state read_sym write_sym move next_state;
      try rules <- expand current_state move next_state read_symbols' write_symbols';
      Ok (rule :: rules)
  | _, _ => Ok []
  end.

Definition required : gset string :=
  {[ "state"; "read"; "write"; "move"; "next" ]}.

(** The outer loop over [enumerate(transitions_data)], from entry [idx] on,
    with the rules collected so far. *)
Fixpoint parse_entries (idx : nat) (transitions_data : list value)
    (transitions : list Transition.t) : res (list Transition.t) :=
  match transitions_data with
  | [] => Ok transitions
  | Dict trans_dict :: transitions_data' =>
      match get "state" trans_dict, get "next" trans_dict, get "move" trans_dict,
            get "read" trans_dict, get "write" trans_dict with
      | Some current_state, Some next_state, Some move, Some read, Some write =>
          try read_symbols <- _normalize_symbol_field read "read";
          try write_symbols <- _normalize_symbol_field write "write";
          if decide (length read_symbols ≠ length write_symbols) then
            Err (LengthMismatch idx (length read_symbols) (length write_symbols))
          else
            try rules <- expand current_state move next_state
                           read_symbols write_symbols;
            parse_entries (S idx) transitions_data' (transitions ++ rules)
      | _, _, _, _, _ => Err (MissingKeys idx (required ∖ keys trans_dict))
      end
  | _ :: _ => Err (NotADict idx)
  end.

Definition _parse_transitions (transitions_data : value) : res (list Transition.t) :=
  match transitions_data with
  | List entries => parse_entries 0 entries []
  | _ => Err NotAList
  end.

(** The rules an entry stands for: its read and write symbols paired in
    order, each pair with the entry's state, move and destination. *)
Definition rules_of (current_state move next_state : value)
    (read_symbols write_symbols : list string) : list Transition.t :=
  zip_with (λ read_sym write_sym,
              Transition.mk (as_str current_state) read_sym write_sym
                (as_str move) (as_str next_state))
           read_symbols write_symbols.

(** An entry of the document and the rules it stands for: a dict with the
    five keys whose read and write fields are symbols in equal number, and
    whose rules all pass the validation of [Transition]. *)
Definition stands_for (entry : value) (block : list Transition.t) : Prop :=
  ∃ trans_dict current_state next_state move read write read_symbols write_symbols,
    entry = Dict trans_dict
    ∧ get "state" trans_dict = Some current_state
    ∧ get "next" trans_dict = Some next_state
    ∧ get "move" trans_dict = Some move
    ∧ get "read" trans_dict = Some read
    ∧ get "write" trans_dict = Some write
    ∧ _normalize_symbol_field read "read" = Ok read_symbols
    ∧ _normalize_symbol_field write "write" = Ok write_symbols
    ∧ length read_symbols = length write_symbols
    ∧ block = rules_of current_state move next_state read_symbols write_symbols
    ∧ Forall (λ rule, Transition.__post_init__ rule = Return tt) block.

End Parser.

(** ** Vocabulary of the properties *)

Module Spec.
Import Machine.

(** The input is a string over the input alphabet of the definition. *)
Definition over_alphabet (config : MachineConfig.t) (input_string : string) : Prop :=
  Forall (λ ch, ch ∈ MachineConfig.input_alphabet config) (Py.chars input_string).

(** What each [return] of [run] guarantees about the locals it returns. *)
Definition exit_ok (self : t) (out : outcome) : Prop :=
  match via out with
  | AcceptAtStart =>
      accepted out = true ∧ (current_state (final out) ∈ _accept_states self)
      ∧ steps (final out) = 0%Z
  | HaltByOmission =>
      accepted out = false ∧ (current_state (final out) ∉ _accept_states self)
      ∧ apply_rule self (final out) = Return None
  | AcceptAfterStep =>
      accepted out = true ∧ (current_state (final out) ∈ _accept_states self)
  | StepCeiling =>
      accepted out = false ∧ (current_state (final out) ∉ _accept_states self)
      ∧ ceiling_reached self (steps (final out)) = true
  end.

(** The rules in the table carry non-empty write symbols and destinations,
    and the initial state has a name. *)
Definition engine_ok (self : t) : Prop :=
  MachineConfig.initial_state (_config self) ≠ ""
  ∧ ∀ key rule, _transition_map self !! key = Some rule →
      Transition.next_state rule ≠ "" ∧ Transition.write_symbol rule ≠ "".

(** The snapshot [_snapshot] takes of the configuration held in the locals. *)
Definition rendering (l : locals) : InstantDescription.t :=
  InstantDescription.mk (current_state l) (Py.join "" (tape l)) (head_index l).

(** Well-formedness of a snapshot as the specification words it, the head
    measured against the rendered text. *)
Definition well_formed_text (snap : InstantDescription.t) : Prop :=
  InstantDescription.state snap ≠ ""
  ∧ (0 ≤ InstantDescription.head_position snap)%Z
  ∧ (InstantDescription.tape snap ≠ "" →
     (InstantDescription.head_position snap
      < Z.of_nat (String.length (InstantDescription.tape snap)))%Z).

(** Two rules of the list share a signature. *)
Definition shared_signature (rules : list Transition.t) : Prop :=
  ∃ i j rule1 rule2,
    i ≠ j ∧ rules !! i = Some rule1 ∧ rules !! j = Some rule2
    ∧ Transition.signature rule1 = Transition.signature rule2.

(** Some rule starts from or goes to a state that is not declared. *)
Definition dangling (config : MachineConfig.t) : Prop :=
  Exists (λ rule,
            Transition.current_state rule ∉ MachineConfig.states config
            ∨ Transition.next_state rule ∉ MachineConfig.states config)
         (MachineConfig.transitions config).

(** The rules the loop of [_build_transition_map] passes over without
    raising: no two of them share a signature, and each starts from and goes
    to a declared state. *)
Definition defect_free (config : MachineConfig.t) (rules : list Transition.t) : Prop :=
  NoDup (Transition.signature <$> rules)
  ∧ Forall (λ rule, Transition.current_state rule ∈ MachineConfig.states config
                    ∧ Transition.next_state rule ∈ MachineConfig.states config)
           rules.

(** The error the first defect of [rule] decides, for a rule met after the
    rules of [before]: a signature shared with an earlier rule comes before
    an undeclared source state, which comes before an undeclared destination
    state; [None] when the rule has no defect. *)
Definition first_defect (config : MachineConfig.t) (before : list Transition.t)
    (rule : Transition.t) : option exn :=
  if decide (Transition.signature rule ∈ Transition.signature <$> before) then
    Some (DuplicateTransition (Transition.signature rule))
  else if decide (Transition.current_state rule ∉ MachineConfig.states config) then
    Some (DanglingState Source (Transition.current_state rule))
  else if decide (Transition.next_state rule ∉ MachineConfig.states config) then
    Some (DanglingState Destination (Transition.next_state rule))
  else None.

(** The table maps each signature to its rule, and holds nothing else. *)
Definition table_of (rules : list Transition.t)
    (table : gmap (string * string) Transition.t) : Prop :=
  (∀ rule, rule ∈ rules → table !! Transition.signature rule = Some rule)
  ∧ (∀ key rule, table !! key = Some rule →
       rule ∈ rules ∧ key = Transition.signature rule).

(** Construction of the engine as the specification words it: each of the
    two defects decides the error on its own. *)
Definition construction_as_specified (config : MachineConfig.t)
    (max_steps : option Z) : Prop :=
  (shared_signature (MachineConfig.transitions config) →
     ∃ key, __init__ config max_steps = Raise (DuplicateTransition key))
  ∧ (dangling config →
     ∃ which name, __init__ config max_steps = Raise (DanglingState which name))
  ∧ (¬ shared_signature (MachineConfig.transitions config) → ¬ dangling config →
     ∃ self, __init__ config max_steps = Return self
             ∧ table_of (MachineConfig.transitions config) (_transition_map self)).

(** The step ceiling as the specification words it, for an engine with
    ceiling [N] and the locals [lN] that [N] executed steps lead to without
    a halt by acceptance or by omission: the run stops there, after exactly
    [N] steps and with [N + 1] snapshots, accepting exactly when the state
    of [lN] is an accept state. *)
Definition ceiling_as_specified (self : t) (input_string : string) (N : Z) : Prop :=
  ∀ l0 lN,
    _max_steps self = Some N →
    (0 ≤ N)%Z →
    start self input_string = Return l0 →
    advance self (Z.to_nat N) l0 = Some lN →
    steps lN = N
    ∧ Py.len (history lN) = (N + 1)%Z
    ∧ ∀ fuel, Z.to_nat N < fuel →
        (∃ site, run_traced fuel self input_string
                 = Some (Return (Outcome site lN
                     (bool_decide (current_state lN ∈ _accept_states self)))))
        ∧ run fuel self input_string
          = Some (Return (history lN,
                          bool_decide (current_state lN ∈ _accept_states self))).

(** The exceptions a step can raise. *)
Definition stepping_error (e : exn) : Prop :=
  e = IndexError ∨ ∃ field, e = InvalidSnapshot field.

(** Loop invariant of [run]. *)
Definition inv (self : t) (l : locals) : Prop :=
  (0 ≤ head_index l < Py.len (tape l))%Z
  ∧ current_state l ≠ ""
  ∧ Py.len (history l) = (steps l + 1)%Z
  ∧ (_blank_symbol self ≠ "" → Forall (λ cell, cell ≠ "") (tape l)).

End Spec.

(** ** Example machines *)

Module Examples.

(** Scans right over 0s and accepts on the first 1. *)
Definition scan0 := Transition.mk "q0" "0" "0" "R" "q0".
Definition scan1 := Transition.mk "q0" "1" "1" "R" "qa".
Definition scanner : MachineConfig.t :=
  MachineConfig.mk ["q0"; "qa"] ["0"; "1"] ["0"; "1"; "B"] "q0" ["qa"]
    [scan0; scan1] None "B".

(** Never halts on its own: stays on the cell and in the state. *)
Definition spin0 := Transition.mk "q0" "0" "0" "S" "q0".
Definition spinner : MachineConfig.t :=
  MachineConfig.mk ["q0"; "qa"] ["0"] ["0"; "B"] "q0" ["qa"] [spin0] None "B".

(** Accepts before reading anything. *)
Definition idle := Transition.mk "qa" "0" "0" "S" "qa".
Definition trivial : MachineConfig.t :=
  MachineConfig.mk ["qa"] ["0"; "1"] ["0"; "1"; "B"] "qa" ["qa"] [idle] None "B".

(** Two rules for (q0, 0), the first of them going to an undeclared state. *)
Definition stray0 := Transition.mk "q0" "0" "0" "R" "qx".
Definition twice_and_stray : MachineConfig.t :=
  MachineConfig.mk ["q0"; "qa"] ["0"; "1"] ["0"; "1"; "B"] "q0" ["qa"]
    [stray0; scan0] None "B".

(** The same two rules in the other order: the second rule shares the
    signature of the first and goes to the undeclared state qx. *)
Definition stray_after : MachineConfig.t :=
  MachineConfig.mk ["q0"; "qa"] ["0"; "1"] ["0"; "1"; "B"] "q0" ["qa"]
    [scan0; stray0] None "B".

(** Two rules for (q0, 0) with different destinations. *)
Definition scan0' := Transition.mk "q0" "0" "0" "R" "qa".
Definition twice : MachineConfig.t :=
  MachineConfig.mk ["q0"; "qa"] ["0"; "1"] ["0"; "1"; "B"] "q0" ["qa"]
    [scan0; scan0'] None "B".

(** A declared state without a name, used by no rule. *)
Definition nameless : MachineConfig.t :=
  MachineConfig.mk ["q0"; ""] ["0"; "1"] ["0"; "1"; "B"] "q0" []
    [scan0] None "B".

(** Blank symbol of length zero; scans right over 0s. *)
Definition blankless : MachineConfig.t :=
  MachineConfig.mk ["q0"] ["0"] ["0"; ""] "q0" [] [scan0] None "".

(** A store that holds the definition of the scanner and nothing else: its
    five lists and, at 6, the [MachineConfig] object that refers to them. *)
Definition scanner_store : gmap positive Heap.object :=
  list_to_map
    [(1%positive, Heap.StrList ["q0"; "qa"]);
     (2%positive, Heap.StrList ["0"; "1"]);
     (3%positive, Heap.StrList ["0"; "1"; "B"]);
     (4%positive, Heap.StrList ["qa"]);
     (5%positive, Heap.RuleList [scan0; scan1]);
     (6%positive, Heap.ConfigObject (Heap.ConfigFields 1 2 3 "q0" 4 5 None "B"))].

(** The engine built from a definition, or the given default. *)
Definition engine (config : MachineConfig.t) (max_steps : option Z)
    (default : Machine.t) : Machine.t :=
  match Machine.__init__ config max_steps with
  | Return self => self
  | Raise _ => default
  end.

Definition no_engine : Machine.t :=
  Machine.mk trivial ∅ ∅ "B" None ∅.

Definition scanner_engine (max_steps : option Z) : Machine.t :=
  Eval vm_compute in engine scanner max_steps no_engine.
Definition spinner_engine (max_steps : option Z) : Machine.t :=
  Eval vm_compute in engine spinner max_steps no_engine.
Definition trivial_engine : Machine.t :=
  Eval vm_compute in engine trivial None no_engine.
Definition blankless_engine : Machine.t :=
  Eval vm_compute in engine blankless None no_engine.

(** A session on the store: two engines built one after the other from
    the definition at 6, with ceiling 9, then a call of [run] on each with
    the input 01.  The first engine is the object at 10, the second the
    object at 14; the first call returns its trace at 16, the second at 18.
    Sets are enumerated in one order by the first call and in the reverse
    order by the second. *)
Definition forwards (xs : list string) : list string :=
  elements (list_to_set xs : gset string).
Definition backwards (xs : list string) : list string :=
  reverse (elements (list_to_set xs : gset string)).

Definition store_of {A} (outcome : option (result A * gmap positive Heap.object))
    : gmap positive Heap.object :=
  match outcome with
  | Some (_, h) => h
  | None => ∅
  end.

Definition one_engine : gmap positive Heap.object :=
  Eval vm_compute in store_of (Heap.__init__ 6 (Some 9%Z) scanner_store).
Definition two_engines : gmap positive Heap.object :=
  Eval vm_compute in store_of (Heap.__init__ 6 (Some 9%Z) one_engine).
Definition after_call : gmap positive Heap.object :=
  Eval vm_compute in store_of (Heap.run forwards 7 10 "01" two_engines).
Definition after_calls : gmap positive Heap.object :=
  Eval vm_compute in store_of (Heap.run backwards 3 14 "01" after_call).

End Examples.

(** ** Example documents *)

Module Documents.
Import Parser.

Definition entry (state read write move next : value) : value :=
  Dict [("state", state); ("read", read); ("write", write);
        ("move", move); ("next", next)].

(** Two entries, the first with two symbols to read and to write. *)
Definition scanner_rules : value :=
  List [entry (Str "q0") (List [Str "0"; Str "B"]) (List [Str "0"; Str "B"])
          (Str "R") (Str "q0");
        entry (Str "q0") (Str "1") (Str "1") (Str "R") (Str "qa")].

(** The second entry lists two symbols to read and one to write. *)
Definition uneven : value :=
  List [entry (Str "q0") (Str "1") (Str "1") (Str "R") (Str "qa");
        entry (Str "q0") (List [Str "0"; Str "B"]) (List [Str "0"])
          (Str "R") (Str "q0")].

End Documents.

(** * Properties *)

Import Machine Spec.

(** A closed decidable statement about an example machine is settled by
    evaluating its decision procedure. *)
Ltac by_evaluation := apply (bool_decide_unpack _); by vm_compute.

(** ** Results *)

Lemma bind_Return {A B} (r : result A) (k : A → result B) b :
  bind r k = Return b ↔ ∃ a, r = Return a ∧ k a = Return b.
Proof.
  destruct r as [a|e]; simpl; split.
  - eauto.
  - by intros (a' & [= <-] & ?).
  - done.
  - by intros (? & ? & ?).
Qed.

Lemma bind_Raise {A B} (r : result A) (k : A → result B) e :
  bind r k = Raise e ↔ r = Raise e ∨ ∃ a, r = Return a ∧ k a = Raise e.
Proof.
  destruct r as [a|e']; simpl; split.
  - eauto.
  - intros [?|(a' & [= <-] & ?)]; done.
  - intros [= ->]. by left.
  - intros [?|(? & ? & ?)]; congruence.
Qed.

(** ** Python lists *)

Lemma index_in_range (n : nat) (i : Z) :
  (0 ≤ i < Z.of_nat n)%Z → Py.index n i = Some (Z.to_nat i).
Proof. intros H. unfold Py.index. by rewrite decide_True. Qed.

Lemma index_Some_lt (n : nat) (i : Z) k : Py.index n i = Some k → k < n.
Proof.
  unfold Py.index. repeat case_decide; intros ?; simplify_eq; lia.
Qed.

Lemma getitem_in_range {A} (l : list A) (i : Z) :
  (0 ≤ i < Py.len l)%Z → ∃ x, Py.getitem l i = Return x ∧ l !! Z.to_nat i = Some x.
Proof.
  intros H. unfold Py.getitem. rewrite index_in_range by done.
  destruct (lookup_lt_is_Some_2 l (Z.to_nat i)) as [x Hx].
  { unfold Py.len in H. lia. }
  rewrite Hx. eauto.
Qed.

Lemma setitem_in_range {A} (l : list A) (i : Z) (x : A) :
  (0 ≤ i < Py.len l)%Z → Py.setitem l i x = Return (<[Z.to_nat i:=x]> l).
Proof. intros H. unfold Py.setitem. by rewrite index_in_range. Qed.

Lemma setitem_length {A} (l l' : list A) (i : Z) (x : A) :
  Py.setitem l i x = Return l' → length l' = length l.
Proof.
  unfold Py.setitem. destruct (Py.index _ _); [|done].
  intros [= <-]. apply length_insert.
Qed.

Lemma setitem_Forall {A} (P : A → Prop) (l l' : list A) (i : Z) (x : A) :
  Py.setitem l i x = Return l' → P x → Forall P l → Forall P l'.
Proof.
  unfold Py.setitem. destruct (Py.index _ _); [|done].
  intros [= <-] Hx Hl. by apply Forall_insert.
Qed.

(** ** One pass of the loop *)

Lemma snapshot_Return self st tp hd snap :
  _snapshot self st tp hd = Return snap ↔
  st ≠ "" ∧ (0 ≤ hd)%Z ∧ snap = InstantDescription.mk st (Py.join "" tp) hd.
Proof.
  unfold _snapshot, InstantDescription.new, InstantDescription.__post_init__.
  simpl. repeat case_decide; simpl; split.
  all: try (intros (? & ? & ?); simplify_eq; done || lia).
  all: try done.
  intros [= <-]. split_and!; [done|lia|done].
Qed.

(** What a successful application of a rule consists of. *)
Lemma apply_rule_Some self l l' :
  apply_rule self l = Return (Some l') ↔
  ∃ symbol rule tape1 snap,
    Py.getitem (tape l) (head_index l) = Return symbol
    ∧ _transition_map self !! (current_state l, symbol) = Some rule
    ∧ Py.setitem (tape l) (head_index l) (Transition.write_symbol rule) = Return tape1
    ∧ _snapshot self (Transition.next_state rule)
        (_move_head self (head_index l) (Transition.move rule) tape1).2
        (_move_head self (head_index l) (Transition.move rule) tape1).1 = Return snap
    ∧ l' = Locals (_move_head self (head_index l) (Transition.move rule) tape1).2
                  (_move_head self (head_index l) (Transition.move rule) tape1).1
                  (Transition.next_state rule) (history l ++ [snap]) (steps l + 1).
Proof.
  unfold apply_rule. rewrite bind_Return. split.
  - intros (symbol & Hget & H). exists symbol.
    destruct (_transition_map self !! _) as [rule|]; [|done].
    apply bind_Return in H as (tape1 & Hset & H).
    destruct (_move_head _ _ _ _) as [hd tp] eqn:Hmv.
    apply bind_Return in H as (snap & Hsnap & [= <-]).
    exists rule, tape1, snap. by rewrite Hmv.
  - intros (symbol & rule & tape1 & snap & Hget & Hrule & Hset & Hsnap & ->).
    exists symbol. split; [done|]. rewrite Hrule. apply bind_Return.
    exists tape1. split; [done|].
    destruct (_move_head _ _ _ _) as [hd tp]. simpl in *. by rewrite Hsnap.
Qed.

Lemma apply_rule_None self l :
  apply_rule self l = Return None ↔
  ∃ symbol, Py.getitem (tape l) (head_index l) = Return symbol
            ∧ _transition_map self !! (current_state l, symbol) = None.
Proof.
  unfold apply_rule. rewrite bind_Return. split.
  - intros (symbol & Hget & H). exists symbol. split; [done|].
    destruct (_transition_map self !! _) as [rule|]; [|done].
    apply bind_Return in H as (tape1 & _ & H).
    destruct (_move_head _ _ _ _) as [hd tp].
    by apply bind_Return in H as (snap & _ & ?).
  - intros (symbol & Hget & Hnone). exists symbol. by rewrite Hnone.
Qed.

Lemma apply_rule_counts self l l' :
  apply_rule self l = Return (Some l') →
  steps l' = (steps l + 1)%Z ∧ length (history l') = S (length (history l))
  ∧ ∃ snap, history l' = history l ++ [snap].
Proof.
  intros (symbol & rule & tape1 & snap & _ & _ & _ & _ & ->)%apply_rule_Some.
  simpl. rewrite length_app. simpl. split_and!; [done|lia|eauto].
Qed.

(** ** C2: head movement *)

(** C2. Head movement policy of [_move_head], which every step of [run] goes
    through: moving left at index 0 puts one blank in front of the tape (one
    cell more, every old symbol one position further right) and keeps the
    head at 0; moving left at a positive index only decrements the head;
    moving right at the last index appends one blank cell and puts the head
    on it; staying changes neither the head nor the tape. *)
Theorem head_movement_policy (self : Machine.t) (head_index : Z) (tape : list string) :
  let blank := _blank_symbol self in
  (head_index = 0%Z →
     _move_head self head_index "L" tape = (0%Z, blank :: tape)
     ∧ length (blank :: tape) = S (length tape)
     ∧ ∀ i, (blank :: tape) !! S i = tape !! i)
  ∧ ((0 < head_index)%Z →
     _move_head self head_index "L" tape = ((head_index - 1)%Z, tape))
  ∧ (head_index = (Py.len tape - 1)%Z →
     _move_head self head_index "R" tape = ((head_index + 1)%Z, tape ++ [blank])
     ∧ length (tape ++ [blank]) = S (length tape)
     ∧ (∀ i, i < length tape → (tape ++ [blank]) !! i = tape !! i)
     ∧ Py.getitem (tape ++ [blank]) (head_index + 1) = Return blank)
  ∧ _move_head self head_index "S" tape = (head_index, tape)
  ∧ (∀ l l', apply_rule self l = Return (Some l') →
       ∃ symbol rule tape1,
         Py.getitem (Machine.tape l) (Machine.head_index l) = Return symbol
         ∧ _transition_map self !! (current_state l, symbol) = Some rule
         ∧ Py.setitem (Machine.tape l) (Machine.head_index l)
             (Transition.write_symbol rule) = Return tape1
         ∧ (Machine.head_index l', Machine.tape l')
           = _move_head self (Machine.head_index l) (Transition.move rule) tape1).
Proof.
  intros blank. split_and!.
  - intros ->. done.
  - intros Hpos. unfold _move_head. rewrite decide_True by done.
    rewrite decide_False by lia. done.
  - intros ->. unfold _move_head. rewrite decide_False by done.
    rewrite decide_True by done. rewrite decide_True by lia.
    split_and!.
    + done.
    + rewrite length_app. simpl. lia.
    + intros i Hi. by apply lookup_app_l.
    + unfold Py.getitem. rewrite index_in_range.
      2:{ rewrite length_app. simpl. unfold Py.len. lia. }
      replace (Z.to_nat (Py.len tape - 1 + 1)) with (length tape)
        by (unfold Py.len; lia).
      by rewrite list_lookup_middle.
  - done.
  - intros l l' (symbol & rule & tape1 & snap & ? & ? & ? & _ & ->)%apply_rule_Some.
    exists symbol, rule, tape1. simpl. split_and!; try done.
    by destruct (_move_head _ _ _ _).
Qed.

Lemma head_movement_policy_witness :
  _move_head (Examples.scanner_engine None) 0 "L" ["0"; "1"] = (0%Z, ["B"; "0"; "1"])
  ∧ _move_head (Examples.scanner_engine None) 1 "L" ["0"; "1"] = (0%Z, ["0"; "1"])
  ∧ _move_head (Examples.scanner_engine None) 1 "R" ["0"; "1"] = (2%Z, ["0"; "1"; "B"]).
Proof.
  destruct (head_movement_policy (Examples.scanner_engine None) 0 ["0"; "1"])
    as (Hl0 & _).
  destruct (head_movement_policy (Examples.scanner_engine None) 1 ["0"; "1"])
    as (_ & Hl & Hr & _).
  split_and!.
  - apply Hl0. reflexivity.
  - apply Hl. lia.
  - apply Hr. reflexivity.
Defined.

(** ** The loop *)

Section loop.
Context (self : Machine.t).
Implicit Types (l : locals) (fuel n : nat).

Lemma iteration_Return l x :
  iteration self l = Return x ↔
  (apply_rule self l = Return None ∧ x = inl (Outcome HaltByOmission l false))
  ∨ ∃ l', apply_rule self l = Return (Some l')
      ∧ (((current_state l' ∈ _accept_states self)
          ∧ x = inl (Outcome AcceptAfterStep l' true))
         ∨ ((current_state l' ∉ _accept_states self)
            ∧ ceiling_reached self (steps l') = true
            ∧ x = inl (Outcome StepCeiling l' false))
         ∨ ((current_state l' ∉ _accept_states self)
            ∧ ceiling_reached self (steps l') = false
            ∧ x = inr l')).
Proof.
  unfold iteration. rewrite bind_Return. split.
  - intros ([l'|] & Happ & H).
    + right. exists l'. split; [done|].
      case_decide as Hacc.
      { left. naive_solver. }
      right. destruct (ceiling_reached _ _).
      * left. rewrite bool_decide_eq_false_2 in H by done. naive_solver.
      * right. naive_solver.
    + left. naive_solver.
  - intros [[Happ ->]|(l' & Happ & H)].
    + by exists None.
    + exists (Some l'). split; [done|].
      destruct H as [[Hacc ->]|[(Hacc & Hc & ->)|(Hacc & Hc & ->)]].
      * by rewrite decide_True.
      * rewrite decide_False, Hc by done. by rewrite bool_decide_eq_false_2.
      * by rewrite decide_False, Hc.
Qed.

Lemma iteration_Raise l e :
  iteration self l = Raise e ↔ apply_rule self l = Raise e.
Proof.
  unfold iteration. rewrite bind_Raise. split; [|by left].
  intros [?|([l'|] & _ & H)]; [done| |done].
  case_decide; [done|]. by destruct (ceiling_reached _ _).
Qed.

Lemma loop_S fuel l :
  loop (S fuel) self l =
  match iteration self l with
  | Raise e => Some (Raise e)
  | Return (inl out) => Some (Return out)
  | Return (inr l') => loop fuel self l'
  end.
Proof. done. Qed.

(** More fuel never changes what a run has already returned. *)
Lemma loop_mono fuel : ∀ fuel' l r,
  loop fuel self l = Some r → fuel ≤ fuel' → loop fuel' self l = Some r.
Proof.
  induction fuel as [|fuel IH]; intros fuel' l r; [done|].
  intros H Hle. destruct fuel' as [|fuel']; [lia|].
  rewrite loop_S in *. destruct (iteration self l) as [[out|l']|e]; try done.
  apply IH; [done|lia].
Qed.

Lemma loop_agree f1 f2 l r1 r2 :
  loop f1 self l = Some r1 → loop f2 self l = Some r2 → r1 = r2.
Proof.
  intros H1 H2. destruct (Nat.le_ge_cases f1 f2) as [Hle|Hle].
  - apply (loop_mono _ f2) in H1; [congruence|done].
  - apply (loop_mono _ f1) in H2; [congruence|done].
Qed.

Lemma advance_S n l :
  advance self (S n) l =
  if decide (current_state l ∈ _accept_states self) then None
  else match apply_rule self l with
       | Return (Some l') => advance self n l'
       | _ => None
       end.
Proof. done. Qed.

Lemma advance_counts n : ∀ l l',
  advance self n l = Some l' →
  steps l' = (steps l + Z.of_nat n)%Z
  ∧ length (history l') = length (history l) + n
  ∧ ∃ more, history l' = history l ++ more.
Proof.
  induction n as [|n IH]; intros l l'.
  - intros [= ->]. split_and!; [lia|lia|]. exists []. by rewrite app_nil_r.
  - rewrite advance_S. case_decide; [done|].
    destruct (apply_rule self l) as [[l1|]|] eqn:Happ; try done.
    intros (Hs & Hl & more & Hm)%IH.
    apply apply_rule_counts in Happ as (Hs1 & Hl1 & snap & Hh1).
    split_and!; [lia|lia|]. exists ([snap] ++ more).
    by rewrite Hm, Hh1, <-app_assoc.
Qed.

(** Extending a chain of applied rules by one more. *)
Lemma advance_snoc n : ∀ l l1 l2,
  advance self n l = Some l1 →
  current_state l1 ∉ _accept_states self →
  apply_rule self l1 = Return (Some l2) →
  advance self (S n) l = Some l2.
Proof.
  induction n as [|n IH]; intros l l1 l2.
  - intros [= ->] Hacc Happ. rewrite advance_S, decide_False, Happ by done. done.
  - intros Hadv Hacc Happ. rewrite advance_S in Hadv. rewrite advance_S.
    case_decide; [done|].
    destruct (apply_rule self l) as [[l'|]|]; try done. by eapply IH.
Qed.

(** Whatever the loop returns was reached by applying rules one after the
    other from the locals it started with, and satisfies the guarantee of
    the [return] it came through. *)
Lemma loop_Return fuel : ∀ l out,
  current_state l ∉ _accept_states self →
  loop fuel self l = Some (Return out) →
  via out ≠ AcceptAtStart ∧ exit_ok self out
  ∧ ∃ n, advance self n l = Some (final out).
Proof.
  induction fuel as [|fuel IH]; intros l out Hacc; [done|].
  rewrite loop_S. destruct (iteration self l) as [x|e] eqn:Hit; [|done].
  apply iteration_Return in Hit
    as [[Happ ->]|(l' & Happ & [[Hacc' ->]|[(Hacc' & Hc & ->)|(Hacc' & Hc & ->)]])].
  - intros [= <-]. unfold exit_ok. simpl. split_and!; try done. by exists 0.
  - intros [= <-]. unfold exit_ok. simpl. split_and!; try done.
    exists 1. by rewrite advance_S, decide_False, Happ.
  - intros [= <-]. unfold exit_ok. simpl. split_and!; try done.
    exists 1. by rewrite advance_S, decide_False, Happ.
  - intros (Hv & Hex & n & Hn)%IH; [|done]. split_and!; try done.
    exists (S n). by rewrite advance_S, decide_False, Happ.
Qed.

Lemma advance_unsnoc n : ∀ l l2,
  advance self (S n) l = Some l2 →
  ∃ l1, advance self n l = Some l1
        ∧ (current_state l1 ∉ _accept_states self)
        ∧ apply_rule self l1 = Return (Some l2).
Proof.
  induction n as [|n IH]; intros l l2.
  - rewrite advance_S. case_decide; [done|].
    destruct (apply_rule self l) as [[l'|]|] eqn:Happ; try done.
    intros [= ->]. by exists l.
  - rewrite advance_S. case_decide as Hacc; [done|].
    destruct (apply_rule self l) as [[l'|]|] eqn:Happ; try done.
    intros (l1 & Hadv & Hacc1 & Happ1)%IH. exists l1. split_and!; try done.
    by rewrite advance_S, decide_False, Happ.
Qed.

Lemma advance_not_accepting n l l' :
  advance self n l = Some l' →
  current_state l' ∉ _accept_states self →
  current_state l ∉ _accept_states self.
Proof.
  destruct n as [|n]; [by intros [= ->]|].
  rewrite advance_S. by case_decide.
Qed.

Lemma ceiling_reached_mono (s s' : Z) :
  (s ≤ s')%Z → ceiling_reached self s' = false → ceiling_reached self s = false.
Proof.
  unfold ceiling_reached. destruct (_max_steps self) as [n|]; [|done].
  rewrite !bool_decide_eq_false. lia.
Qed.

(** As long as neither an accepting state nor the ceiling is met, the loop
    follows the chain of applied rules. *)
Lemma loop_follows n : ∀ l l' fuel,
  advance self n l = Some l' →
  current_state l' ∉ _accept_states self →
  n = 0 ∨ ceiling_reached self (steps l') = false →
  loop (n + fuel) self l = loop fuel self l'.
Proof.
  induction n as [|n IH]; intros l l' fuel.
  - by intros [= ->].
  - intros Hadv Hacc' [?|Hc]; [done|]. pose proof Hadv as Hadv0.
    rewrite advance_S in Hadv. case_decide as Hacc; [done|].
    destruct (apply_rule self l) as [[l1|]|] eqn:Happ; try done.
    pose proof (advance_counts _ _ _ Hadv) as (Hs & _).
    replace (S n + fuel) with (S (n + fuel)) by lia. rewrite loop_S.
    assert (iteration self l = Return (inr l1)) as ->.
    { apply iteration_Return. right. exists l1. split; [done|]. right. right.
      split; [eapply advance_not_accepting; eauto|]. split; [|done].
      eapply ceiling_reached_mono; [|done]. lia. }
    apply IH; auto.
Qed.

Lemma start_Return input_string l :
  start self input_string = Return l ↔
  _validate_input_string self input_string = Return tt
  ∧ ∃ snap,
      _snapshot self (MachineConfig.initial_state (_config self))
        (_initialize_tape self input_string) 0 = Return snap
      ∧ l = Locals (_initialize_tape self input_string) 0
              (MachineConfig.initial_state (_config self)) [snap] 0.
Proof.
  unfold start. rewrite bind_Return. split.
  - intros ([] & Hval & (snap & Hsnap & [= <-])%bind_Return). eauto.
  - intros (Hval & snap & Hsnap & ->). exists tt. split; [done|].
    apply bind_Return. eauto.
Qed.

(** Every value returned by [run]: the locals were reached from the initial
    ones by applying [n] rules, [n] is the step counter, the trace has
    [n + 1] snapshots, and the guarantee of the [return] taken holds. *)
Lemma run_traced_Return fuel input_string out :
  run_traced fuel self input_string = Some (Return out) →
  exit_ok self out
  ∧ ∃ l0 n, start self input_string = Return l0
      ∧ advance self n l0 = Some (final out)
      ∧ steps (final out) = Z.of_nat n
      ∧ length (history (final out)) = n + 1.
Proof.
  unfold run_traced. destruct (start self input_string) as [l0|] eqn:Hstart; [|done].
  pose proof Hstart as (_ & snap & _ & Hl0)%start_Return.
  case_decide as Hacc.
  - intros [= <-]. simpl. split.
    + unfold exit_ok. simpl. by subst l0.
    + exists l0, 0. subst l0. done.
  - intros (_ & Hex & n & Hadv)%loop_Return; [|done]. split; [done|].
    exists l0, n. split_and!; try done.
    + apply advance_counts in Hadv as (-> & _). subst l0. simpl. lia.
    + apply advance_counts in Hadv as (_ & -> & _). subst l0. simpl. lia.
Qed.

Lemma run_of_traced fuel input_string out :
  run_traced fuel self input_string = Some (Return out) →
  run fuel self input_string = Some (Return (history (final out), accepted out)).
Proof. unfold run. by intros ->. Qed.

End loop.

(** ** C1: halt by omission *)

(** C1. Whenever a pass of the loop reads the symbol under the head and the
    table has no rule for (current state, symbol), [run] returns at once
    with verdict rejected and the trace as it stood: a run whose [n]
    executed steps lead to such a pair returns the [n + 1] snapshots taken
    so far, and every run that returns this way has executed some number
    [n] of steps and returns a trace of [n + 1] snapshots. *)
Theorem halt_by_omission (self : Machine.t) :
  (∀ l symbol,
     Py.getitem (tape l) (head_index l) = Return symbol →
     _transition_map self !! (current_state l, symbol) = None →
     iteration self l = Return (inl (Outcome HaltByOmission l false))
     ∧ ∀ fuel, loop (S fuel) self l = Some (Return (Outcome HaltByOmission l false)))
  ∧ (∀ input_string l0 n l fuel,
       start self input_string = Return l0 →
       advance self n l0 = Some l →
       current_state l ∉ _accept_states self →
       n = 0 ∨ ceiling_reached self (Z.of_nat n) = false →
       apply_rule self l = Return None →
       n < fuel →
       run fuel self input_string = Some (Return (history l, false))
       ∧ steps l = Z.of_nat n ∧ length (history l) = n + 1)
  ∧ (∀ fuel input_string out,
       run_traced fuel self input_string = Some (Return out) →
       via out = HaltByOmission →
       run fuel self input_string = Some (Return (history (final out), false))
       ∧ (∃ symbol,
            Py.getitem (tape (final out)) (head_index (final out)) = Return symbol
            ∧ _transition_map self
                !! (current_state (final out), symbol) = None)
       ∧ ∃ l0 n, start self input_string = Return l0
           ∧ advance self n l0 = Some (final out)
           ∧ steps (final out) = Z.of_nat n
           ∧ length (history (final out)) = n + 1).
Proof.
  split_and!.
  - intros l symbol Hget Hnone.
    assert (iteration self l = Return (inl (Outcome HaltByOmission l false))) as Hit.
    { apply iteration_Return. left. split; [|done]. apply apply_rule_None. eauto. }
    split; [done|]. intros fuel. by rewrite loop_S, Hit.
  - intros input_string l0 n l fuel Hstart Hadv Hacc Hc Happ Hfuel.
    pose proof Hstart as (_ & snap & _ & Hl0)%start_Return.
    pose proof (advance_counts _ _ _ _ Hadv) as (Hs & Hlen & _).
    assert (steps l = Z.of_nat n) as Hsteps by (subst l0; simpl in *; lia).
    assert (length (history l) = n + 1) by (subst l0; simpl in *; lia).
    split; [|done].
    assert (loop (n + 1) self l0 = Some (Return (Outcome HaltByOmission l false)))
      as Hloop.
    { rewrite (loop_follows self n l0 l 1); [|done|done|].
      - rewrite loop_S.
        assert (iteration self l = Return (inl (Outcome HaltByOmission l false))) as ->;
          [|done].
        apply iteration_Return. by left.
      - rewrite Hsteps. done. }
    apply (loop_mono _ _ fuel) in Hloop; [|lia].
    unfold run, run_traced. rewrite Hstart.
    rewrite decide_False by (eapply advance_not_accepting; eauto).
    by rewrite Hloop.
  - intros fuel input_string out Hrun Hvia.
    pose proof (run_traced_Return _ _ _ _ Hrun) as (Hex & Hreach).
    unfold exit_ok in Hex. rewrite Hvia in Hex. destruct Hex as (Hv & _ & Happ).
    split_and!; [|by apply apply_rule_None|done].
    rewrite <-Hv. by apply run_of_traced.
Qed.

Lemma halt_by_omission_witness :
  run 5 (Examples.scanner_engine None) "" = Some (Return (
    [InstantDescription.mk "q0" "B" 0], false)).
Proof.
  destruct (halt_by_omission (Examples.scanner_engine None)) as (_ & _ & H).
  destruct (H 5 "" (Outcome HaltByOmission
              (Locals ["B"] 0 "q0" [InstantDescription.mk "q0" "B" 0] 0) false))
    as (Hrun & _); [reflexivity|reflexivity|].
  exact Hrun.
Defined.

(** ** C10: the ceiling never accepts *)

(** C10. Whenever [run] returns through the step-ceiling branch the verdict
    is rejected: the acceptance check made right after the step has already
    returned for an accepting state, so the state tested at the ceiling is
    never an accept state. *)
Theorem ceiling_rejects (fuel : nat) (self : Machine.t) (input_string : string)
    (out : outcome) :
  run_traced fuel self input_string = Some (Return out) →
  via out = StepCeiling →
  accepted out = false
  ∧ (current_state (final out) ∉ _accept_states self)
  ∧ run fuel self input_string = Some (Return (history (final out), false)).
Proof.
  intros Hrun Hvia.
  pose proof (run_traced_Return _ _ _ _ Hrun) as (Hex & _).
  unfold exit_ok in Hex. rewrite Hvia in Hex. destruct Hex as (Hv & Hacc & _).
  split_and!; [done..|]. rewrite <-Hv. by apply run_of_traced.
Qed.

Lemma ceiling_rejects_witness :
  run 5 (Examples.spinner_engine (Some 3%Z)) "0" = Some (Return (
    [InstantDescription.mk "q0" "0" 0; InstantDescription.mk "q0" "0" 0;
     InstantDescription.mk "q0" "0" 0; InstantDescription.mk "q0" "0" 0], false)).
Proof.
  pose (snap := InstantDescription.mk "q0" "0" 0).
  destruct (ceiling_rejects 5 (Examples.spinner_engine (Some 3%Z)) "0"
              (Outcome StepCeiling
                 (Locals ["0"] 0 "q0" [snap; snap; snap; snap] 3) false))
    as (_ & _ & Hrun); [reflexivity|reflexivity|].
  exact Hrun.
Defined.

(** ** Order on strings *)

(** A duplicate-free list in non-decreasing order is strictly increasing. *)
Lemma sorted_strict (l : list string) :
  StronglySorted String.le l → NoDup l → StronglySorted (strict String.le) l.
Proof.
  induction 1 as [|x l Hl IH Hx]; intros Hnd; [constructor|].
  apply NoDup_cons in Hnd as [Hnotin Hnd]. constructor; [by apply IH|].
  rewrite Forall_forall in *. intros y Hy. split; [by apply Hx|].
  intros Hyx. destruct Hnotin.
  by rewrite (anti_symm String.le x y (Hx y Hy) Hyx).
Qed.

(** ** Input validation *)

Lemma offending_spec (invalid : list string) :
  StronglySorted (strict String.le) (offending invalid)
  ∧ NoDup (offending invalid)
  ∧ ∀ ch, ch ∈ offending invalid ↔ ch ∈ invalid.
Proof.
  unfold offending, Py.sorted.
  set (distinct := elements (list_to_set invalid : gset string)).
  assert (NoDup (merge_sort String.le distinct)) as Hnd.
  { rewrite merge_sort_Permutation. apply NoDup_elements. }
  split_and!; [|done|].
  - apply sorted_strict; [|done]. apply StronglySorted_merge_sort; apply _.
  - intros ch. rewrite merge_sort_Permutation. unfold distinct.
    by rewrite elem_of_elements, elem_of_list_to_set.
Qed.

Lemma invalid_symbols_spec self input_string ch :
  ch ∈ invalid_symbols self input_string ↔
  ch ∈ Py.chars input_string
  ∧ ch ∉ MachineConfig.input_alphabet (_config self).
Proof.
  unfold invalid_symbols. rewrite list_elem_of_filter, elem_of_list_to_set.
  tauto.
Qed.

Lemma invalid_symbols_nil self input_string :
  invalid_symbols self input_string = [] ↔ over_alphabet (_config self) input_string.
Proof.
  unfold over_alphabet. rewrite Forall_forall. split.
  - intros Hnil ch Hch.
    destruct (decide (ch ∈ MachineConfig.input_alphabet (_config self)));
      [done|].
    assert (ch ∈ invalid_symbols self input_string) as Hin
      by by apply invalid_symbols_spec.
    rewrite Hnil in Hin. by apply elem_of_nil in Hin.
  - intros Hall. destruct (invalid_symbols self input_string) as [|ch rest] eqn:Hinv;
      [done|].
    assert (ch ∈ invalid_symbols self input_string) as Hin
      by (rewrite Hinv; left).
    apply invalid_symbols_spec in Hin as [Hch Hnot]. by destruct Hnot; apply Hall.
Qed.

Lemma validate_Return self input_string :
  _validate_input_string self input_string = Return tt ↔
  over_alphabet (_config self) input_string.
Proof.
  rewrite <-invalid_symbols_nil. unfold _validate_input_string.
  case_decide; naive_solver.
Qed.

Lemma validate_Raise self input_string e :
  _validate_input_string self input_string = Raise e ↔
  invalid_symbols self input_string ≠ []
  ∧ e = InvalidSymbol
          ("Input string contains symbols outside the input alphabet: "
           +:+ Py.join ", " (offending (invalid_symbols self input_string))).
Proof.
  unfold _validate_input_string. case_decide as Hinvalid; split.
  - intros [= <-]. by split.
  - by intros [_ ->].
  - done.
  - by intros [? _].
Qed.

(** ** Exceptions raised while stepping *)

Lemma getitem_Raise {A} (l : list A) i e : Py.getitem l i = Raise e → e = IndexError.
Proof.
  unfold Py.getitem. destruct (Py.index _ _) as [k|]; [|congruence].
  destruct (l !! k); congruence.
Qed.

Lemma setitem_Raise {A} (l : list A) i x e :
  Py.setitem l i x = Raise e → e = IndexError.
Proof. unfold Py.setitem. destruct (Py.index _ _); congruence. Qed.

Lemma snapshot_Raise self st tp hd e :
  _snapshot self st tp hd = Raise e → ∃ field, e = InvalidSnapshot field.
Proof.
  unfold _snapshot, InstantDescription.new, InstantDescription.__post_init__.
  simpl. repeat case_decide; simpl; intros [= <-]; eauto.
Qed.

Lemma apply_rule_Raise self l e : apply_rule self l = Raise e → stepping_error e.
Proof.
  unfold apply_rule. intros [Hget|(symbol & _ & H)]%bind_Raise.
  { left. by eapply getitem_Raise. }
  destruct (_transition_map self !! _) as [rule|]; [|done].
  apply bind_Raise in H as [Hset|(tape1 & _ & H)].
  { left. by eapply setitem_Raise. }
  destruct (_move_head _ _ _ _) as [hd tp].
  apply bind_Raise in H as [Hsnap|(snap & _ & ?)]; [|done].
  right. by eapply snapshot_Raise.
Qed.

Lemma loop_Raise self fuel : ∀ l e,
  loop fuel self l = Some (Raise e) → stepping_error e.
Proof.
  induction fuel as [|fuel IH]; intros l e; [done|].
  rewrite loop_S. destruct (iteration self l) as [[out|l']|e'] eqn:Hit.
  - done.
  - apply IH.
  - intros [= <-]. apply iteration_Raise in Hit. by eapply apply_rule_Raise.
Qed.

Lemma run_traced_Raise self fuel input_string e :
  run_traced fuel self input_string = Some (Raise e) ↔
  _validate_input_string self input_string = Raise e
  ∨ _validate_input_string self input_string = Return tt
    ∧ (_snapshot self (MachineConfig.initial_state (_config self))
         (_initialize_tape self input_string) 0 = Raise e
       ∨ ∃ l0, start self input_string = Return l0
           ∧ (current_state l0 ∉ _accept_states self)
           ∧ loop fuel self l0 = Some (Raise e)).
Proof.
  unfold run_traced. destruct (start self input_string) as [l0|e0] eqn:Hstart.
  - pose proof Hstart as (Hval & snap & Hsnap & _)%start_Return.
    rewrite Hval, Hsnap. case_decide; split; try done.
    + intros [?|(_ & [?|(l & [= <-] & ? & ?)])]; done.
    + intros Hloop. right. split; [done|]. right. by exists l0.
    + intros [?|(_ & [?|(l & [= <-] & ? & ?)])]; done.
  - unfold start in Hstart. apply bind_Raise in Hstart as [Hval|([] & Hval & Hsnap)].
    + rewrite Hval. split; [intros [= <-]; by left|].
      intros [[= <-]|(? & _)]; done.
    + rewrite Hval. apply bind_Raise in Hsnap as [Hsnap|(snap & _ & ?)]; [|done].
      rewrite Hsnap. split.
      * intros [= <-]. right. split; [done|]. by left.
      * intros [?|(_ & [[= <-]|(l & ? & _)])]; done.
Qed.

(** ** C5: invalid symbols *)

(** C5. [run] raises InvalidSymbol exactly when some character of the input
    is outside the input alphabet.  The check precedes everything else: when
    it fails [run] raises whatever the fuel and whatever the rest of the
    engine looks like, and no tape or snapshot exists ([start] raises).  The
    message lists, after its fixed prefix and separated by commas, the
    offending characters without repetition and in increasing order.  The
    engine is an argument that [run] only reads, so a later call sees it
    unchanged. *)
Theorem invalid_symbol (fuel : nat) (self : Machine.t) (input_string : string) :
  let bad := λ ch, ch ∈ Py.chars input_string
                   ∧ ch ∉ MachineConfig.input_alphabet (_config self) in
  ((∃ message, run fuel self input_string = Some (Raise (InvalidSymbol message)))
   ↔ ∃ ch, bad ch)
  ∧ (∀ message,
       run fuel self input_string = Some (Raise (InvalidSymbol message)) →
       start self input_string = Raise (InvalidSymbol message)
       ∧ _validate_input_string self input_string = Raise (InvalidSymbol message)
       ∧ ∃ listed,
           message = "Input string contains symbols outside the input alphabet: "
                     +:+ Py.join ", " listed
           ∧ StronglySorted (strict String.le) listed
           ∧ NoDup listed
           ∧ ∀ ch, ch ∈ listed ↔ bad ch).
Proof.
  intros bad.
  assert (∀ message,
    run fuel self input_string = Some (Raise (InvalidSymbol message)) →
    _validate_input_string self input_string = Raise (InvalidSymbol message))
    as Hfrom_validate.
  { intros message Hrun. unfold run in Hrun.
    destruct (run_traced fuel self input_string) as [[out|e]|] eqn:Htr; try done.
    injection Hrun as ->.
    apply run_traced_Raise in Htr as [?|(_ & [Hsnap|(l0 & _ & _ & Hloop)])].
    - done.
    - by apply snapshot_Raise in Hsnap as [field ?].
    - by apply loop_Raise in Hloop as [?|[field ?]]. }
  split.
  - split.
    + intros (message & (Hne & _)%Hfrom_validate%validate_Raise).
      destruct (invalid_symbols self input_string) as [|ch rest] eqn:Hinv; [done|].
      exists ch. apply invalid_symbols_spec. rewrite Hinv. left.
    + intros (ch & Hbad%invalid_symbols_spec).
      assert (invalid_symbols self input_string ≠ []) as Hne.
      { intros Hnil. rewrite Hnil in Hbad. by apply elem_of_nil in Hbad. }
      pose proof (proj2 (validate_Raise self input_string _) (conj Hne eq_refl))
        as Hval.
      eexists. unfold run, run_traced, start. by rewrite Hval.
  - intros message Hval%Hfrom_validate. split_and!; [|done|].
    + unfold start. by rewrite Hval.
    + apply validate_Raise in Hval as (_ & [= ->]).
      exists (offending (invalid_symbols self input_string)).
      destruct (offending_spec (invalid_symbols self input_string))
        as (Hsorted & Hnd & Hin).
      split_and!; try done. intros ch. rewrite Hin. apply invalid_symbols_spec.
Qed.

Lemma invalid_symbol_witness :
  run 0 (Examples.scanner_engine None) "0321282"
  = Some (Raise (InvalidSymbol
      "Input string contains symbols outside the input alphabet: 2, 3, 8")).
Proof.
  destruct (invalid_symbol 0 (Examples.scanner_engine None) "0321282") as (_ & H).
  destruct (H "Input string contains symbols outside the input alphabet: 2, 3, 8")
    as (_ & Hval & _); [reflexivity|].
  unfold run, run_traced, start. by rewrite Hval.
Defined.

(** ** Building the engine *)

Lemma states_dict_Return names : ∀ acc d,
  states_dict names acc = Return d ↔
  Forall (λ name, name ≠ "") names
  ∧ d = foldl (λ m name, <[name := State.mk name]> m) acc names.
Proof.
  induction names as [|name names IH]; intros acc d; simpl.
  - split; [intros [= <-]; by split|]. by intros [_ ->].
  - unfold State.new, State.__post_init__. simpl. case_decide as Hname; simpl.
    + split; [done|]. intros [Hall _]. by apply Forall_cons in Hall as [? _].
    + rewrite IH, Forall_cons. tauto.
Qed.

Lemma states_dict_Raise names : ∀ acc e,
  states_dict names acc = Raise e → e = InvalidState ∧ "" ∈ names.
Proof.
  induction names as [|name names IH]; intros acc e; simpl; [done|].
  unfold State.new, State.__post_init__. simpl. case_decide as Hname; simpl.
  - intros [= <-]. split; [done|]. rewrite Hname. left.
  - intros [-> ?]%IH. split; [done|]. by right.
Qed.

Lemma states_fold_lookup names : ∀ (acc : gmap string State.t) name,
  foldl (λ m name, <[name := State.mk name]> m) acc names !! name = None ↔
  (name ∉ names) ∧ acc !! name = None.
Proof.
  induction names as [|name' names IH]; intros acc name; simpl.
  - split; [|by intros [_ ?]]. intros ?. split; [apply not_elem_of_nil|done].
  - rewrite IH, not_elem_of_cons, lookup_insert_None. intuition congruence.
Qed.

Lemma shared_signature_cons rule rules :
  shared_signature rules → shared_signature (rule :: rules).
Proof.
  intros (i & j & r1 & r2 & Hij & Hi & Hj & Hsig).
  exists (S i), (S j), r1, r2. split_and!; try done. lia.
Qed.

Lemma NoDup_or_shared rules :
  NoDup (Transition.signature <$> rules) ∨ shared_signature rules.
Proof.
  induction rules as [|rule rules [IH|IH]].
  - left. constructor.
  - destruct (decide (Transition.signature rule ∈ Transition.signature <$> rules))
      as [Hin|Hnotin].
    + right. apply list_elem_of_lookup in Hin as [j Hj].
      rewrite list_lookup_fmap in Hj.
      destruct (rules !! j) as [rule'|] eqn:Hrule'; [|done].
      exists 0, (S j), rule, rule'. split_and!; try done. simpl in Hj. congruence.
    + left. rewrite fmap_cons. by constructor.
  - right. by apply shared_signature_cons.
Qed.

Lemma shared_signature_NoDup rules :
  shared_signature rules ↔ ¬ NoDup (Transition.signature <$> rules).
Proof.
  split.
  - rewrite NoDup_alt.
    intros (i & j & r1 & r2 & Hij & Hi & Hj & Hsig) Hnd. apply Hij.
    apply (Hnd i j (Transition.signature r1)).
    + by rewrite list_lookup_fmap, Hi.
    + by rewrite list_lookup_fmap, Hj, Hsig.
  - intros Hnot. by destruct (NoDup_or_shared rules).
Qed.

(** The table after the loop has run over [rules] without raising. *)
Lemma build_loop_Return _states rules : ∀ acc table,
  build_loop _states rules acc = Return table ↔
  NoDup (Transition.signature <$> rules)
  ∧ Forall (λ rule, acc !! Transition.signature rule = None
                    ∧ is_Some (_states !! Transition.current_state rule)
                    ∧ is_Some (_states !! Transition.next_state rule)) rules
  ∧ table = foldl (λ m rule, <[Transition.signature rule := rule]> m) acc rules.
Proof.
  induction rules as [|rule rules IH]; intros acc table; simpl.
  - split.
    + intros [= <-]. split_and!; [constructor|constructor|done].
    + by intros (_ & _ & ->).
  - rewrite NoDup_cons, Forall_cons.
    case_decide as Hdup; [|case_decide as Hsrc; [|case_decide as Hdst]].
    + split; [done|]. intros (_ & ((Hnone & _) & _) & _).
      rewrite Hnone in Hdup. by destruct Hdup.
    + split; [done|]. intros (_ & ((_ & [? Hs] & _) & _) & _). congruence.
    + split; [done|]. intros (_ & ((_ & _ & [? Hs]) & _) & _). congruence.
    + rewrite IH. rewrite <-eq_None_not_Some in Hdup.
      apply not_eq_None_Some in Hsrc, Hdst. split.
      * intros (Hnd & Hall & ->). split_and!; try done.
        -- intros (rule' & Hsig & Hin)%list_elem_of_fmap.
           rewrite Forall_forall in Hall. destruct (Hall _ Hin) as (Hl & _).
           rewrite <-Hsig, lookup_insert_eq in Hl. done.
        -- eapply Forall_impl; [done|]. simpl. intros rule' (Hl & ? & ?).
           by apply lookup_insert_None in Hl as [? _].
      * intros ([Hnotin Hnd] & [_ Hall] & ->). split_and!; try done.
        rewrite Forall_forall in *. intros rule' Hin.
        destruct (Hall _ Hin) as (Hl & ? & ?). split_and!; try done.
        apply lookup_insert_None. split; [done|]. intros Heq. apply Hnotin.
        rewrite Heq. by apply list_elem_of_fmap_2.
Qed.

(** What the loop raises, and why. *)
Lemma build_loop_Raise _states rules : ∀ acc e,
  build_loop _states rules acc = Raise e →
  (∃ key, e = DuplicateTransition key
          ∧ (¬ NoDup (Transition.signature <$> rules)
             ∨ ∃ rule, rule ∈ rules ∧ is_Some (acc !! Transition.signature rule)))
  ∨ (∃ which name rule,
       e = DanglingState which name ∧ _states !! name = None ∧ rule ∈ rules
       ∧ (name = Transition.current_state rule ∨ name = Transition.next_state rule)).
Proof.
  induction rules as [|rule rules IH]; intros acc e; simpl; [done|].
  case_decide as Hdup; [|case_decide as Hsrc; [|case_decide as Hdst]].
  - intros [= <-]. left. eexists. split; [done|]. right. exists rule.
    split; [left|done].
  - intros [= <-]. right. exists Source, (Transition.current_state rule), rule.
    split_and!; try done; [left|by left].
  - intros [= <-]. right. exists Destination, (Transition.next_state rule), rule.
    split_and!; try done; [left|by right].
  - intros [(key & -> & Hwhy)|(which & name & rule' & -> & Hn & Hin & Hor)]%IH.
    + left. exists key. split; [done|].
      destruct Hwhy as [Hnd|(rule' & Hin & Hsome)].
      * left. rewrite ?fmap_cons, NoDup_cons. by intros [_ ?].
      * destruct (decide (Transition.signature rule = Transition.signature rule'))
          as [Heq|Hne].
        -- left. rewrite ?fmap_cons, NoDup_cons. intros [Hnotin _]. apply Hnotin.
           rewrite Heq. by apply list_elem_of_fmap_2.
        -- right. exists rule'. split; [by right|].
           by rewrite lookup_insert_ne in Hsome.
    + right. exists which, name, rule'. split_and!; try done. by right.
Qed.

Lemma table_fold_lookup rules : ∀ (acc : gmap (string * string) Transition.t),
  NoDup (Transition.signature <$> rules) →
  let table := foldl (λ m rule, <[Transition.signature rule := rule]> m) acc rules in
  (∀ rule, rule ∈ rules → table !! Transition.signature rule = Some rule)
  ∧ (∀ key, key ∉ Transition.signature <$> rules → table !! key = acc !! key).
Proof.
  induction rules as [|rule rules IH]; intros acc Hnd; simpl.
  - split; [|done]. intros rule Hin. by apply elem_of_nil in Hin.
  - rewrite ?fmap_cons in Hnd. apply NoDup_cons in Hnd as [Hnotin Hnd].
    destruct (IH (<[Transition.signature rule := rule]> acc) Hnd) as [Hin Hout].
    split.
    + intros rule' [->|Hin']%elem_of_cons; [|by apply Hin].
      by rewrite Hout, lookup_insert_eq.
    + intros key [Hne Hkey]%not_elem_of_cons.
      by rewrite Hout, lookup_insert_ne.
Qed.

Lemma table_fold_table_of rules :
  NoDup (Transition.signature <$> rules) →
  table_of rules (foldl (λ m rule, <[Transition.signature rule := rule]> m) ∅ rules).
Proof.
  intros Hnd. destruct (table_fold_lookup rules ∅ Hnd) as [Hin Hout].
  split; [done|]. intros key rule Hl.
  destruct (decide (key ∈ Transition.signature <$> rules)) as [Hkey|Hkey].
  - apply list_elem_of_fmap in Hkey as (rule' & -> & Hin').
    rewrite (Hin _ Hin') in Hl. by simplify_eq.
  - by rewrite (Hout _ Hkey), lookup_empty in Hl.
Qed.

Lemma init_Return config max_steps self :
  __init__ config max_steps = Return self ↔
  ∃ sd table,
    states_dict (MachineConfig.states config) ∅ = Return sd
    ∧ _build_transition_map sd (MachineConfig.transitions config) = Return table
    ∧ self = Machine.mk config sd (list_to_set (MachineConfig.accept_states config))
               (MachineConfig.blank_symbol config) max_steps table.
Proof.
  unfold __init__. rewrite bind_Return. split.
  - intros (sd & Hsd & (table & Htable & [= <-])%bind_Return). by exists sd, table.
  - intros (sd & table & Hsd & Htable & ->). exists sd. split; [done|].
    apply bind_Return. by exists table.
Qed.

(** The declared names, once every one of them has made a [State]. *)
Lemma states_dict_declared config sd name :
  states_dict (MachineConfig.states config) ∅ = Return sd →
  is_Some (sd !! name) ↔ name ∈ MachineConfig.states config.
Proof.
  intros [_ ->]%states_dict_Return. rewrite <-not_eq_None_Some, states_fold_lookup.
  rewrite lookup_empty. split.
  - intros Hn. destruct (decide (name ∈ MachineConfig.states config)); [done|].
    by destruct Hn.
  - by intros ? [? _].
Qed.

(** The loop raises at the first rule that raises on the table filled by
    the rules before it. *)
Lemma build_loop_Raise_split _states rules : ∀ acc e,
  build_loop _states rules acc = Raise e ↔
  ∃ before rule after table,
    rules = before ++ rule :: after
    ∧ build_loop _states before acc = Return table
    ∧ build_loop _states [rule] table = Raise e.
Proof.
  induction rules as [|r rules IH]; intros acc e.
  - split; [done|]. intros (before & rule & after & table & Hsplit & _).
    by destruct before.
  - split.
    + intros Hraise.
      destruct (build_loop _states [r] acc) as [table|e'] eqn:Hr.
      * simpl in Hr, Hraise. repeat case_decide; try done. injection Hr as <-.
        apply IH in Hraise as (before & rule & after & table & -> & Hbefore & Hrule).
        exists (r :: before), rule, after, table. split_and!; try done.
        simpl. by repeat case_decide.
      * exists [], r, rules, acc. split_and!; try done.
        simpl in Hr, Hraise |- *. repeat case_decide; try done; congruence.
    + intros (before & rule & after & table & Hsplit & Hbefore & Hrule).
      destruct before as [|r' before]; simpl in Hsplit; injection Hsplit as -> ->.
      * injection Hbefore as ->. simpl in *. repeat case_decide; try done.
      * simpl in Hbefore |- *. repeat case_decide; try done.
        apply IH. by exists before, rule, after, table.
Qed.

Lemma first_defect_raised config sd before rule e :
  (∀ name, is_Some (sd !! name) ↔ name ∈ MachineConfig.states config) →
  NoDup (Transition.signature <$> before) →
  build_loop sd [rule]
    (foldl (λ m rule, <[Transition.signature rule := rule]> m) ∅ before) = Raise e ↔
  first_defect config before rule = Some e.
Proof.
  intros Hdecl Hnd. destruct (table_fold_lookup before ∅ Hnd) as [Hin Hout].
  set (table := foldl _ ∅ before) in *.
  assert (is_Some (table !! Transition.signature rule)
          ↔ Transition.signature rule ∈ Transition.signature <$> before) as Hdup.
  { split.
    - intros Hsome.
      destruct (decide (Transition.signature rule ∈ Transition.signature <$> before))
        as [|Hnot]; [done|].
      rewrite (Hout _ Hnot), lookup_empty in Hsome. by destruct Hsome.
    - intros (rule' & -> & Hrule')%list_elem_of_fmap. by rewrite (Hin _ Hrule'). }
  assert (∀ name, sd !! name = None ↔ name ∉ MachineConfig.states config) as Hnone.
  { intros name. rewrite <-Hdecl, eq_None_not_Some. tauto. }
  unfold first_defect. simpl.
  repeat case_decide; rewrite ?Hdup, ?Hnone in *; try tauto;
    split; congruence.
Qed.

(** What makes construction raise, for declared names that are all
    non-empty: the first rule with a defect, and the first defect of it. *)
Lemma init_Raise_first config max_steps e :
  Forall (λ name, name ≠ "") (MachineConfig.states config) →
  __init__ config max_steps = Raise e ↔
  ∃ before rule after,
    MachineConfig.transitions config = before ++ rule :: after
    ∧ defect_free config before
    ∧ first_defect config before rule = Some e.
Proof.
  intros Hnames.
  destruct (states_dict (MachineConfig.states config) ∅) as [sd|e'] eqn:Hsd.
  2:{ apply states_dict_Raise in Hsd as [_ Hin].
      rewrite Forall_forall in Hnames. by destruct (Hnames _ Hin). }
  pose proof (λ name, states_dict_declared config sd name Hsd) as Hdecl.
  assert (__init__ config max_steps = Raise e
          ↔ build_loop sd (MachineConfig.transitions config) ∅ = Raise e) as ->.
  { unfold __init__, _build_transition_map. rewrite Hsd. simpl.
    destruct (build_loop sd (MachineConfig.transitions config) ∅); simpl;
      split; congruence. }
  rewrite build_loop_Raise_split. split.
  - intros (before & rule & after & table & Hsplit & Hbefore & Hrule).
    apply build_loop_Return in Hbefore as (Hnd & Hall & ->).
    exists before, rule, after. unfold defect_free. split_and!; try done.
    + eapply Forall_impl; [done|]. simpl. intros r (_ & Hs & Hd).
      by rewrite <-!Hdecl.
    + by apply (first_defect_raised config sd).
  - intros (before & rule & after & Hsplit & [Hnd Hall] & Hrule).
    exists before, rule, after. eexists. split_and!; [done| |].
    + apply build_loop_Return. split_and!; [done| |done].
      eapply Forall_impl; [done|]. simpl. intros r [Hs Hd].
      by rewrite lookup_empty, !Hdecl.
    + by apply (first_defect_raised config sd).
Qed.

(** ** C6: construction of the engine *)

(** C6, as the code has it.  For a definition whose declared state names are
    all non-empty: construction fails whenever two rules share a signature
    or a rule names an undeclared source or destination state, and then with
    DuplicateTransition or DanglingState; the error is DuplicateTransition
    when no rule names an undeclared state, and DanglingState (of an
    undeclared name) when no two rules share a signature; when neither
    defect is present construction succeeds and the table maps each
    signature to its unique rule.  The rules are checked in order and the
    first defect met decides the error: construction raises [e] exactly when
    the rules split into rules without a defect, a rule whose first defect
    (a signature shared with an earlier rule, then an undeclared source, then
    an undeclared destination) is [e], and the rules after it, which are not
    looked at. *)
Theorem engine_construction (config : MachineConfig.t) (max_steps : option Z) :
  Forall (λ name, name ≠ "") (MachineConfig.states config) →
  let rules := MachineConfig.transitions config in
  (shared_signature rules ∨ dangling config →
     ∃ e, __init__ config max_steps = Raise e
          ∧ ((∃ key, e = DuplicateTransition key)
             ∨ ∃ which name, e = DanglingState which name))
  ∧ (shared_signature rules → ¬ dangling config →
     ∃ key, __init__ config max_steps = Raise (DuplicateTransition key))
  ∧ (dangling config → ¬ shared_signature rules →
     ∃ which name, __init__ config max_steps = Raise (DanglingState which name)
                   ∧ name ∉ MachineConfig.states config)
  ∧ (¬ shared_signature rules → ¬ dangling config →
     ∃ self, __init__ config max_steps = Return self
             ∧ table_of rules (_transition_map self))
  ∧ (∀ e, __init__ config max_steps = Raise e ↔
       ∃ before rule after,
         rules = before ++ rule :: after
         ∧ defect_free config before
         ∧ first_defect config before rule = Some e).
Proof.
  intros Hnames rules.
  assert (∀ P Q R S T : Prop, T → P ∧ Q ∧ R ∧ S → P ∧ Q ∧ R ∧ S ∧ T) as Hlast
    by tauto.
  apply Hlast; [intros e; by apply init_Raise_first|clear Hlast].
  destruct (states_dict (MachineConfig.states config) ∅) as [sd|e] eqn:Hsd.
  2:{ apply states_dict_Raise in Hsd as [_ Hin].
      rewrite Forall_forall in Hnames. by destruct (Hnames _ Hin). }
  pose proof (λ name, states_dict_declared config sd name Hsd) as Hdecl.
  assert (∀ table, build_loop sd rules ∅ = Return table →
            ¬ shared_signature rules ∧ ¬ dangling config
            ∧ table_of rules table) as Hok.
  { intros table (Hnd & Hall & ->)%build_loop_Return. split_and!.
    - rewrite shared_signature_NoDup. by intros [].
    - unfold dangling. rewrite Exists_exists. intros (rule & Hin & Hor).
      rewrite Forall_forall in Hall. destruct (Hall _ Hin) as (_ & Hs & Hd).
      apply Hdecl in Hs, Hd. by destruct Hor.
    - by apply table_fold_table_of. }
  assert (∀ e, build_loop sd rules ∅ = Raise e →
            (∃ key, e = DuplicateTransition key ∧ shared_signature rules)
            ∨ (∃ which name, e = DanglingState which name
                 ∧ (name ∉ MachineConfig.states config) ∧ dangling config)) as Hbad.
  { intros e [(key & -> & Hwhy)|(which & name & rule & -> & Hn & Hin & Hor)]%build_loop_Raise.
    - left. exists key. split; [done|]. apply shared_signature_NoDup.
      destruct Hwhy as [?|(rule & _ & Hsome)]; [done|].
      rewrite lookup_empty in Hsome. by destruct Hsome.
    - right. exists which, name.
      assert (name ∉ MachineConfig.states config) as Hnot.
      { rewrite <-Hdecl, Hn. by intros []. }
      split_and!; try done. unfold dangling. apply Exists_exists.
      exists rule. split; [done|]. destruct Hor as [<-|<-]; auto. }
  assert (∀ table, build_loop sd rules ∅ = Return table →
            __init__ config max_steps
            = Return (Machine.mk config sd
                        (list_to_set (MachineConfig.accept_states config))
                        (MachineConfig.blank_symbol config) max_steps table)) as Hret.
  { intros table Htable. apply init_Return. by exists sd, table. }
  assert (∀ e, build_loop sd rules ∅ = Raise e → __init__ config max_steps = Raise e)
    as Hraise.
  { intros e He. unfold __init__, _build_transition_map. rewrite Hsd. simpl.
    fold rules. by rewrite He. }
  destruct (build_loop sd rules ∅) as [table|e] eqn:Hbuild.
  - destruct (Hok table eq_refl) as (Hns & Hnd & Htable).
    split_and!; [intros [?|?]; done|done|done|].
    intros _ _. eexists. split; [by apply Hret|done].
  - rewrite (Hraise e eq_refl).
    destruct (Hbad e eq_refl) as [(key & -> & Hs)|(which & name & -> & Hnot & Hd)].
    + split_and!; [|by eauto|done|done]. intros _. eexists. split; [done|]. eauto.
    + split_and!; [|done|by eauto|done]. intros _. eexists. split; [done|]. eauto.
Qed.

Lemma engine_construction_witness :
  (∃ key, __init__ Examples.twice None = Raise (DuplicateTransition key))
  ∧ (∃ self, __init__ Examples.scanner None = Return self
             ∧ table_of [Examples.scan0; Examples.scan1] (_transition_map self))
  ∧ __init__ Examples.stray_after None = Raise (DuplicateTransition ("q0", "0"))
  ∧ __init__ Examples.twice_and_stray None = Raise (DanglingState Destination "qx").
Proof.
  split_and!.
  - destruct (engine_construction Examples.twice None) as (_ & H & _).
    { by repeat constructor. }
    apply H.
    + exists 0, 1, Examples.scan0, Examples.scan0'. by split_and!.
    + by_evaluation.
  - destruct (engine_construction Examples.scanner None) as (_ & _ & _ & H & _).
    { by repeat constructor. }
    apply H.
    + rewrite shared_signature_NoDup. intros Hnd. apply Hnd.
      by_evaluation.
    + by_evaluation.
  - destruct (engine_construction Examples.stray_after None) as (_ & _ & _ & _ & H).
    { by repeat constructor. }
    apply H. exists [Examples.scan0], Examples.stray0, [].
    split_and!; [reflexivity|by_evaluation|reflexivity].
  - destruct (engine_construction Examples.twice_and_stray None)
      as (_ & _ & _ & _ & H).
    { by repeat constructor. }
    apply H. exists [], Examples.stray0, [Examples.scan0].
    split_and!; [reflexivity|by_evaluation|reflexivity].
Defined.

(** C6 as the specification states it fails on the code in two ways.  With two
    rules for (q0, 0) of which the first goes to the undeclared state qx, two
    rules share a signature, yet the loop meets the undeclared destination
    first and construction raises DanglingState.  With a declared state whose
    name is empty, no rule is at fault, yet construction raises from [State]
    before the table is built. *)
Lemma engine_construction_counterexample :
  (MachineConfig.valid Examples.twice_and_stray
   ∧ __init__ Examples.twice_and_stray None = Raise (DanglingState Destination "qx")
   ∧ ¬ construction_as_specified Examples.twice_and_stray None)
  ∧ (MachineConfig.valid Examples.nameless
     ∧ __init__ Examples.nameless None = Raise InvalidState
     ∧ ¬ construction_as_specified Examples.nameless None).
Proof.
  split; split_and!.
  - by_evaluation.
  - by vm_compute.
  - intros (Hdup & _ & _). destruct Hdup as [key Hkey]; [|by vm_compute in Hkey].
    exists 0, 1, Examples.stray0, Examples.scan0. by split_and!.
  - by_evaluation.
  - by vm_compute.
  - intros (_ & _ & Hok). destruct Hok as (self & Hself & _); [| |by vm_compute in Hself].
    + rewrite shared_signature_NoDup. intros Hnd. apply Hnd.
      by_evaluation.
    + by_evaluation.
Qed.

(** ** Strings and tapes *)

Lemma append_empty_r (s : string) : s +:+ "" = s.
Proof. induction s as [|a s IH]; [done|]. unfold String.app in *. simpl. by rewrite IH. Qed.

Lemma append_length (s1 s2 : string) :
  String.length (s1 +:+ s2) = String.length s1 + String.length s2.
Proof.
  induction s1 as [|a s1 IH]; [done|]. unfold String.app in *. simpl. by rewrite IH.
Qed.

Lemma join_cons (cell : string) (cells : list string) :
  Py.join "" (cell :: cells) = cell +:+ Py.join "" cells.
Proof.
  unfold Py.join. destruct cells as [|cell' cells]; simpl.
  - by rewrite append_empty_r.
  - done.
Qed.

Lemma chars_length (s : string) : length (Py.chars s) = String.length s.
Proof. induction s as [|a s IH]; simpl; [done|]. by rewrite IH. Qed.

Lemma chars_nonempty (s : string) : Forall (λ cell, cell ≠ "") (Py.chars s).
Proof. induction s as [|a s IH]; simpl; constructor; done. Qed.

Lemma join_chars (s : string) : Py.join "" (Py.chars s) = s.
Proof.
  induction s as [|a s IH]; [done|]. simpl Py.chars. rewrite join_cons, IH. done.
Qed.

Lemma nonempty_length (s : string) : s ≠ "" → 1 ≤ String.length s.
Proof. destruct s; [done|]. simpl. lia. Qed.

(** Non-empty cells render to at least one character each. *)
Lemma join_length (cells : list string) :
  Forall (λ cell, cell ≠ "") cells →
  length cells ≤ String.length (Py.join "" cells).
Proof.
  induction 1 as [|cell cells Hcell _ IH]; [done|].
  rewrite join_cons, append_length. simpl.
  apply nonempty_length in Hcell. lia.
Qed.

(** ** The loop invariant *)

Lemma post_init_initial_state config :
  MachineConfig.__post_init__ config = Return tt →
  MachineConfig.initial_state config ≠ ""
  ∧ MachineConfig.initial_state config ∈ MachineConfig.states config.
Proof.
  unfold MachineConfig.__post_init__. by repeat case_decide.
Qed.

Lemma rule_post_init rule :
  Transition.__post_init__ rule = Return tt →
  Transition.next_state rule ≠ "" ∧ Transition.write_symbol rule ≠ "".
Proof. unfold Transition.__post_init__. by repeat case_decide. Qed.

(** What [__init__] stores in the engine. *)
Lemma init_fields config max_steps self :
  __init__ config max_steps = Return self →
  _config self = config
  ∧ _blank_symbol self = MachineConfig.blank_symbol config
  ∧ _max_steps self = max_steps
  ∧ _accept_states self = list_to_set (MachineConfig.accept_states config)
  ∧ table_of (MachineConfig.transitions config) (_transition_map self).
Proof.
  intros (sd & table & _ & Htable & ->)%init_Return. simpl. split_and!; try done.
  apply build_loop_Return in Htable as (Hnd & _ & ->).
  by apply table_fold_table_of.
Qed.

Lemma init_engine_ok config max_steps self :
  MachineConfig.valid config →
  __init__ config max_steps = Return self →
  engine_ok self.
Proof.
  intros [Hconfig Hrules] Hinit.
  destruct (init_fields _ _ _ Hinit) as (Hc & _ & _ & _ & _ & Htable).
  split.
  - rewrite Hc. by apply post_init_initial_state.
  - intros key rule [Hin _]%Htable. apply rule_post_init.
    rewrite Forall_forall in Hrules. by apply Hrules.
Qed.

Lemma move_head_inv self (P : string → Prop) head_index move tape :
  (0 ≤ head_index < Py.len tape)%Z →
  let moved := _move_head self head_index move tape in
  (0 ≤ moved.1 < Py.len moved.2)%Z
  ∧ (P (_blank_symbol self) → Forall P tape → Forall P moved.2).
Proof.
  intros Hhd. unfold _move_head, Py.len in *.
  repeat case_decide; simpl; rewrite ?length_app; simpl; split; try lia; try done.
  - intros. by constructor.
  - intros. apply Forall_app. split; [done|]. by constructor.
Qed.

Lemma start_inv self input_string l0 :
  start self input_string = Return l0 → inv self l0.
Proof.
  intros (_ & snap & (Hst & _ & _)%snapshot_Return & ->)%start_Return.
  unfold inv, _initialize_tape, Py.len. simpl. split_and!; try done.
  - case_decide as Hin; simpl; [lia|].
    rewrite chars_length. apply nonempty_length in Hin. lia.
  - intros Hblank. case_decide; [by constructor|apply chars_nonempty].
Qed.

Lemma apply_rule_inv self l l' :
  engine_ok self → inv self l →
  apply_rule self l = Return (Some l') → inv self l'.
Proof.
  intros [_ Hrules] (Hhd & Hst & Hlen & Hcells).
  intros (symbol & rule & tape1 & snap & Hget & Hrule & Hset & Hsnap & ->)%apply_rule_Some.
  destruct (Hrules _ _ Hrule) as [Hnext Hwrite].
  assert (0 ≤ head_index l < Py.len tape1)%Z as Hhd1.
  { unfold Py.len in *. by rewrite (setitem_length _ _ _ _ Hset). }
  destruct (move_head_inv self (λ cell, cell ≠ "") (head_index l)
              (Transition.move rule) tape1 Hhd1) as [Hhd' Hcells'].
  unfold inv. simpl. split_and!; try done.
  - lia.
  - lia.
  - unfold Py.len in *. rewrite length_app. simpl. lia.
  - intros Hblank. apply Hcells'; [done|].
    eapply setitem_Forall; [done|done|]. by apply Hcells.
Qed.

(** Under the invariant the head is on a cell of the tape, and on a
    character of its text when no cell is empty. *)
Lemma rendering_well_formed self l :
  inv self l → _blank_symbol self ≠ "" → well_formed_text (rendering l).
Proof.
  intros (Hhd & Hst & _ & Hcells) Hblank. split_and!; [done|simpl; lia|].
  simpl. intros _. pose proof (join_length _ (Hcells Hblank)).
  unfold Py.len in *. lia.
Qed.

(** Under the invariant a pass of the loop raises nothing. *)
Lemma apply_rule_total self l :
  engine_ok self → inv self l → ∃ next, apply_rule self l = Return next.
Proof.
  intros [_ Hrules] (Hhd & _).
  destruct (getitem_in_range (tape l) (head_index l) Hhd) as (symbol & Hget & _).
  destruct (_transition_map self !! (current_state l, symbol)) as [rule|] eqn:Hrule.
  2:{ exists None. apply apply_rule_None. eauto. }
  destruct (Hrules _ _ Hrule) as [Hnext _].
  pose proof (setitem_in_range (tape l) (head_index l)
                (Transition.write_symbol rule) Hhd) as Hset.
  set (tape1 := <[Z.to_nat (head_index l) := Transition.write_symbol rule]> (tape l)) in *.
  assert (0 ≤ head_index l < Py.len tape1)%Z as Hhd1.
  { unfold Py.len in *. by rewrite (setitem_length _ _ _ _ Hset). }
  destruct (move_head_inv self (λ _, True) (head_index l)
              (Transition.move rule) tape1 Hhd1) as [Hhd' _].
  eexists (Some _). apply apply_rule_Some.
  exists symbol, rule, tape1. eexists. split_and!; try done.
  apply snapshot_Return. split_and!; [done|lia|done].
Qed.

Lemma advance_inv self n : ∀ l l',
  engine_ok self → inv self l → advance self n l = Some l' → inv self l'.
Proof.
  induction n as [|n IH]; intros l l' Hok Hinv; [by intros [= <-]|].
  rewrite advance_S. case_decide; [done|].
  destruct (apply_rule self l) as [[l1|]|] eqn:Happ; try done.
  apply IH; [done|]. by eapply apply_rule_inv.
Qed.

(** What one pass does, spelled out as the three-way choice of the code. *)
Lemma iteration_total self l :
  engine_ok self → inv self l →
  ∃ x, iteration self l = Return x
       ∧ match x with
         | inl out => True
         | inr l' => apply_rule self l = Return (Some l')
                     ∧ ceiling_reached self (steps l') = false
         end.
Proof.
  intros Hok Hinv. destruct (apply_rule_total self l Hok Hinv) as [[l'|] Happ].
  - destruct (decide (current_state l' ∈ _accept_states self)) as [Hacc|Hacc].
    { exists (inl (Outcome AcceptAfterStep l' true)). split; [|exact I].
      apply iteration_Return. right. exists l'. split; [done|]. left. by split. }
    destruct (ceiling_reached self (steps l')) eqn:Hc.
    + exists (inl (Outcome StepCeiling l' false)). split; [|exact I].
      apply iteration_Return. right. exists l'.
      split; [done|]. right. left. by split_and!.
    + exists (inr l'). split; [|done]. apply iteration_Return. right. exists l'.
      split; [done|]. right. right. by split_and!.
  - exists (inl (Outcome HaltByOmission l false)). split; [|exact I].
    apply iteration_Return. by left.
Qed.

Lemma loop_no_raise self fuel : ∀ l r,
  engine_ok self → inv self l →
  loop fuel self l = Some r → ∃ out, r = Return out.
Proof.
  induction fuel as [|fuel IH]; intros l r Hok Hinv; [done|].
  rewrite loop_S. destruct (iteration_total self l Hok Hinv) as (x & -> & Hx).
  destruct x as [out|l'].
  - intros [= <-]. eauto.
  - destruct Hx as [Happ _]. apply IH; [done|]. by eapply apply_rule_inv.
Qed.

(** With a ceiling [N] the loop returns within [max 1 (N - steps)] passes. *)
Lemma loop_terminates self N fuel : ∀ l,
  engine_ok self → inv self l →
  _max_steps self = Some N →
  1 ≤ fuel → Z.to_nat (N - steps l) ≤ fuel →
  ∃ out, loop fuel self l = Some (Return out).
Proof.
  induction fuel as [|fuel IH]; intros l Hok Hinv HN Hone Hfuel; [lia|].
  rewrite loop_S. destruct (iteration_total self l Hok Hinv) as (x & -> & Hx).
  destruct x as [out|l']; [eauto|]. destruct Hx as [Happ Hc].
  pose proof (apply_rule_counts _ _ _ Happ) as (Hs & _).
  unfold ceiling_reached in Hc. rewrite HN in Hc. apply bool_decide_eq_false in Hc.
  apply IH; [done|by eapply apply_rule_inv|done|lia|lia].
Qed.

(** ** C7: termination and initial configuration *)

(** C7. For an engine built with a finite step ceiling [N] from a valid
    definition and an input over the input alphabet, [run] returns a trace
    and a verdict, the same for every fuel of at least [max 1 N] passes, and
    raises nothing; the first snapshot of the trace has head index 0, the
    initial state, and as tape the input, or the blank symbol alone when the
    input is empty; the tape starts as the characters of the input, or as a
    single blank cell when the input is empty. *)
Theorem run_terminates (config : MachineConfig.t) (N : Z) (self : Machine.t)
    (input_string : string) :
  MachineConfig.valid config →
  __init__ config (Some N) = Return self →
  over_alphabet config input_string →
  let cells := if decide (input_string = "")
               then [MachineConfig.blank_symbol config]
               else Py.chars input_string in
  let first := InstantDescription.mk (MachineConfig.initial_state config)
                 (if decide (input_string = "") then MachineConfig.blank_symbol config
                  else input_string) 0 in
  start self input_string
    = Return (Locals cells 0 (MachineConfig.initial_state config) [first] 0)
  ∧ ∃ out,
      (∀ fuel, Z.to_nat (Z.max 1 N) ≤ fuel →
         run_traced fuel self input_string = Some (Return out)
         ∧ run fuel self input_string
           = Some (Return (history (final out), accepted out)))
      ∧ history (final out) !! 0 = Some first.
Proof.
  intros Hvalid Hinit Hinput cells first.
  pose proof (init_engine_ok _ _ _ Hvalid Hinit) as Hok.
  destruct (init_fields _ _ _ Hinit) as (Hc & Hb & HN & _).
  assert (Py.join "" cells = InstantDescription.tape first) as Hjoin.
  { unfold cells, first. simpl. case_decide; [done|]. apply join_chars. }
  assert (start self input_string
          = Return (Locals cells 0 (MachineConfig.initial_state config) [first] 0))
    as Hstart.
  { apply start_Return. split.
    - apply validate_Return. by rewrite Hc.
    - exists first. unfold _initialize_tape. rewrite Hb, Hc. fold cells.
      split; [|done]. apply snapshot_Return. split_and!; [|done|].
      + destruct Hok as [Hi _]. by rewrite Hc in Hi.
      + by rewrite Hjoin. }
  split; [done|].
  set (l0 := Locals cells 0 (MachineConfig.initial_state config) [first] 0) in *.
  pose proof (start_inv _ _ _ Hstart) as Hinv.
  assert (∃ out, run_traced (Z.to_nat (Z.max 1 N)) self input_string
                 = Some (Return out)) as [out Hout].
  { unfold run_traced. rewrite Hstart. case_decide; [eauto|].
    apply loop_terminates with (N := N); try done; simpl; lia. }
  exists out. split.
  - intros fuel Hfuel.
    assert (run_traced fuel self input_string = Some (Return out)) as Hrun.
    { unfold run_traced in *. rewrite Hstart in *. case_decide; [done|].
      by eapply loop_mono. }
    split; [done|]. by apply run_of_traced.
  - apply run_traced_Return in Hout as (_ & l0' & n & Hstart' & Hadv & _).
    rewrite Hstart in Hstart'. injection Hstart' as <-.
    apply advance_counts in Hadv as (_ & _ & more & ->). done.
Qed.

Lemma run_terminates_witness :
  ∃ trace verdict,
    run 3 (Examples.spinner_engine (Some 3%Z)) "0" = Some (Return (trace, verdict))
    ∧ trace !! 0 = Some (InstantDescription.mk "q0" "0" 0).
Proof.
  destruct (run_terminates Examples.spinner 3 (Examples.spinner_engine (Some 3%Z)) "0")
    as (_ & out & Hrun & Hfirst).
  - by_evaluation.
  - reflexivity.
  - by_evaluation.
  - exists (history (final out)), (accepted out). split; [|exact Hfirst].
    apply (Hrun 3). vm_compute. lia.
Defined.

(** ** C9: well-formed snapshots *)

Lemma run_Return fuel self input_string trace verdict :
  run fuel self input_string = Some (Return (trace, verdict)) ↔
  ∃ out, run_traced fuel self input_string = Some (Return out)
         ∧ trace = history (final out) ∧ verdict = accepted out.
Proof.
  unfold run. destruct (run_traced fuel self input_string) as [[out|e]|]; split;
    try done; try (by intros (? & ? & _)).
  - intros [= <- <-]. by exists out.
  - by intros (out' & [= <-] & -> & ->).
Qed.

(** The trace is the list of the configurations gone through, rendered:
    its [k]-th snapshot is the one of the locals after [k] steps. *)
Lemma history_renders self input_string l0 n : ∀ l,
  start self input_string = Return l0 →
  advance self n l0 = Some l →
  ∀ k snap, history l !! k = Some snap →
    ∃ lk, advance self k l0 = Some lk ∧ snap = rendering lk.
Proof.
  induction n as [|n IH]; intros l Hstart Hadv k snap Hk.
  - injection Hadv as <-.
    apply start_Return in Hstart as (_ & snap0 & (_ & _ & ->)%snapshot_Return & ->).
    destruct k as [|k]; [|done]. injection Hk as <-. by eexists.
  - pose proof Hadv as (l1 & Hadv1 & _ & Happ)%advance_unsnoc.
    pose proof (advance_counts _ _ _ _ Hadv1) as (_ & Hlen1 & _).
    pose proof Hstart as (_ & snap0 & _ & Hl0)%start_Return.
    apply apply_rule_Some in Happ
      as (symbol & rule & tape1 & snap' & _ & _ & _ & Hsnap & ->).
    apply snapshot_Return in Hsnap as (_ & _ & ->).
    simpl in Hk. apply lookup_app_Some in Hk as [Hk|[Hge Hk]].
    + by apply (IH l1).
    + destruct (k - length (history l1)) as [|d] eqn:Hd; [|done].
      injection Hk as <-. assert (k = S n) as ->.
      { subst l0. simpl in *. lia. }
      by eexists.
Qed.

(** C9, as the code has it.  The [k]-th snapshot of a trace returned by an
    engine built from a valid definition is the rendering of the
    configuration reached after [k] steps; its state name is non-empty and
    its head index is non-negative and smaller than the number of cells of
    the tape of that configuration; when the blank symbol is not the empty
    string the head index is also smaller than the length of the rendered
    tape text. *)
Theorem snapshots_well_formed (config : MachineConfig.t) (max_steps : option Z)
    (self : Machine.t) (input_string : string) (fuel : nat)
    (trace : list InstantDescription.t) (verdict : bool) :
  MachineConfig.valid config →
  __init__ config max_steps = Return self →
  run fuel self input_string = Some (Return (trace, verdict)) →
  ∃ l0, start self input_string = Return l0
    ∧ ∀ k snap, trace !! k = Some snap →
        ∃ lk, advance self k l0 = Some lk
          ∧ snap = rendering lk
          ∧ InstantDescription.state snap ≠ ""
          ∧ (0 ≤ InstantDescription.head_position snap < Py.len (tape lk))%Z
          ∧ (MachineConfig.blank_symbol config ≠ "" → well_formed_text snap)
          ∧ (MachineConfig.blank_symbol config ≠ "" →
             (InstantDescription.head_position snap
              < Z.of_nat (String.length (InstantDescription.tape snap)))%Z).
Proof.
  intros Hvalid Hinit (out & Hrun & -> & _)%run_Return.
  pose proof (init_engine_ok _ _ _ Hvalid Hinit) as Hok.
  destruct (init_fields _ _ _ Hinit) as (_ & Hb & _).
  apply run_traced_Return in Hrun as (_ & l0 & n & Hstart & Hadv & _).
  exists l0. split; [done|]. intros k snap Hk.
  destruct (history_renders _ _ _ _ _ Hstart Hadv k snap Hk) as (lk & Hlk & ->).
  pose proof (advance_inv _ _ _ _ Hok (start_inv _ _ _ Hstart) Hlk) as Hinv.
  exists lk. split_and!; try done.
  - by destruct Hinv as (_ & ? & _).
  - destruct Hinv as (? & _). simpl. lia.
  - destruct Hinv as (? & _). simpl. lia.
  - rewrite <-Hb. by apply rendering_well_formed.
  - rewrite <-Hb. intros Hblank. destruct Hinv as (? & _ & _ & Hcells).
    pose proof (join_length _ (Hcells Hblank)). simpl. unfold Py.len in *. lia.
Qed.

Lemma snapshots_well_formed_witness :
  well_formed_text (InstantDescription.mk "qa" "01B" 2).
Proof.
  destruct (snapshots_well_formed Examples.scanner None (Examples.scanner_engine None)
              "01" 5
              [InstantDescription.mk "q0" "01" 0; InstantDescription.mk "q0" "01" 1;
               InstantDescription.mk "qa" "01B" 2] true) as (l0 & _ & H).
  - by_evaluation.
  - reflexivity.
  - reflexivity.
  - destruct (H 2 (InstantDescription.mk "qa" "01B" 2) eq_refl)
      as (lk & _ & _ & _ & _ & Htext & _).
    apply Htext. discriminate.
Defined.

(** C9 as the specification states it fails when the blank symbol is the
    empty string, which the definition accepts as long as the tape alphabet
    lists it: after one step to the right from the last cell the tape reads
    "0" and the head index is 1. *)
Lemma snapshots_well_formed_counterexample :
  MachineConfig.valid Examples.blankless
  ∧ __init__ Examples.blankless None = Return Examples.blankless_engine
  ∧ run 2 Examples.blankless_engine "0"
    = Some (Return ([InstantDescription.mk "q0" "0" 0;
                     InstantDescription.mk "q0" "0" 1], false))
  ∧ ¬ well_formed_text (InstantDescription.mk "q0" "0" 1).
Proof.
  split_and!.
  - by_evaluation.
  - reflexivity.
  - reflexivity.
  - intros (_ & _ & Hhead). simpl in Hhead. specialize (Hhead ltac:(done)). lia.
Qed.

(** ** C3: immediate acceptance *)

(** C3. When the initial state of a valid definition is an accept state,
    [run] on any input over the input alphabet returns, without entering the
    loop and whatever the fuel, the verdict accepted and a trace made of the
    one snapshot of the initial configuration. *)
Theorem immediate_accept (config : MachineConfig.t) (max_steps : option Z)
    (self : Machine.t) (input_string : string) (fuel : nat) :
  MachineConfig.valid config →
  __init__ config max_steps = Return self →
  over_alphabet config input_string →
  MachineConfig.initial_state config ∈ MachineConfig.accept_states config →
  let cells := _initialize_tape self input_string in
  let first := InstantDescription.mk (MachineConfig.initial_state config)
                 (Py.join "" cells) 0 in
  run_traced fuel self input_string
    = Some (Return (Outcome AcceptAtStart
                      (Locals cells 0 (MachineConfig.initial_state config) [first] 0)
                      true))
  ∧ run fuel self input_string = Some (Return ([first], true)).
Proof.
  intros Hvalid Hinit Hinput Haccept cells first.
  pose proof (init_engine_ok _ _ _ Hvalid Hinit) as [Hi _].
  destruct (init_fields _ _ _ Hinit) as (Hc & _ & _ & Hacc & _).
  assert (start self input_string
          = Return (Locals cells 0 (MachineConfig.initial_state config) [first] 0))
    as Hstart.
  { apply start_Return. split.
    - apply validate_Return. by rewrite Hc.
    - exists first. rewrite Hc. split; [|done].
      apply snapshot_Return. split_and!; [|done..]. by rewrite Hc in Hi. }
  assert (run_traced fuel self input_string
          = Some (Return (Outcome AcceptAtStart
                      (Locals cells 0 (MachineConfig.initial_state config) [first] 0)
                      true))) as Hrun.
  { unfold run_traced. rewrite Hstart. simpl. rewrite decide_True; [done|].
    rewrite Hacc. by apply elem_of_list_to_set. }
  split; [done|]. by rewrite (run_of_traced _ _ _ _ Hrun).
Qed.

Lemma immediate_accept_witness :
  run 0 Examples.trivial_engine "0110"
  = Some (Return ([InstantDescription.mk "qa" "0110" 0], true)).
Proof.
  destruct (immediate_accept Examples.trivial None Examples.trivial_engine "0110" 0)
    as [_ H].
  - by_evaluation.
  - reflexivity.
  - by_evaluation.
  - by_evaluation.
  - exact H.
Defined.

(** ** C4: the step ceiling *)

(** C4, as the code has it.  For a ceiling [N] of at least 1: when [N]
    steps have been executed without a halt by acceptance or by omission,
    [run] stops there, after exactly [N] steps and with [N + 1] snapshots,
    and accepts exactly when the state then current is an accept state. *)
Theorem step_ceiling (self : Machine.t) (input_string : string) (N : Z) :
  (1 ≤ N)%Z → ceiling_as_specified self input_string N.
Proof.
  intros HN l0 lN Hmax _ Hstart Hadv.
  pose proof Hstart as (_ & snap & _ & Hl0)%start_Return.
  pose proof (advance_counts _ _ _ _ Hadv) as (Hsteps & Hlen & _).
  assert (steps lN = N) as HstepsN by (subst l0; simpl in *; lia).
  assert (Py.len (history lN) = (N + 1)%Z) as HlenN
    by (unfold Py.len; subst l0; simpl in *; lia).
  split_and!; [done..|]. intros fuel Hfuel.
  destruct (Z.to_nat N) as [|m] eqn:Hm; [lia|].
  apply advance_unsnoc in Hadv as (l1 & Hadv & Hacc1 & Happ).
  pose proof (advance_counts _ _ _ _ Hadv) as (Hsteps1 & _).
  assert (current_state l0 ∉ _accept_states self) as Hacc0
    by (eapply advance_not_accepting; eauto).
  assert (∃ site, loop fuel self l0
                  = Some (Return (Outcome site lN
                      (bool_decide (current_state lN ∈ _accept_states self)))))
    as [site Hloop].
  { replace fuel with (m + S (fuel - S m)) by lia.
    rewrite (loop_follows self m l0 l1); [|done|done|].
    2:{ right. unfold ceiling_reached. rewrite Hmax. apply bool_decide_eq_false.
        subst l0. simpl in *. lia. }
    rewrite loop_S.
    destruct (decide (current_state lN ∈ _accept_states self)) as [Hacc|Hacc].
    - exists AcceptAfterStep.
      assert (iteration self l1 = Return (inl (Outcome AcceptAfterStep lN true))) as ->.
      { apply iteration_Return. right. exists lN. split; [done|]. left. by split. }
      by rewrite bool_decide_eq_true_2.
    - exists StepCeiling.
      assert (iteration self l1 = Return (inl (Outcome StepCeiling lN false))) as ->.
      { apply iteration_Return. right. exists lN. split; [done|]. right. left.
        split_and!; [done| |done]. unfold ceiling_reached. rewrite Hmax.
        apply bool_decide_eq_true. lia. }
      by rewrite bool_decide_eq_false_2. }
  assert (run_traced fuel self input_string
          = Some (Return (Outcome site lN
                    (bool_decide (current_state lN ∈ _accept_states self))))) as Hrun.
  { unfold run_traced. rewrite Hstart. by rewrite decide_False. }
  split; [by exists site|]. by rewrite (run_of_traced _ _ _ _ Hrun).
Qed.

Lemma step_ceiling_witness :
  run 4 (Examples.spinner_engine (Some 3%Z)) "0" = Some (Return (
    [InstantDescription.mk "q0" "0" 0; InstantDescription.mk "q0" "0" 0;
     InstantDescription.mk "q0" "0" 0; InstantDescription.mk "q0" "0" 0], false)).
Proof.
  pose (snap := InstantDescription.mk "q0" "0" 0).
  destruct (step_ceiling (Examples.spinner_engine (Some 3%Z)) "0" 3 ltac:(lia)
              (Locals ["0"] 0 "q0" [snap] 0)
              (Locals ["0"] 0 "q0" [snap; snap; snap; snap] 3))
    as (_ & _ & H); [reflexivity|lia|reflexivity|reflexivity|].
  destruct (H 4) as [_ Hrun]; [vm_compute; lia|]. exact Hrun.
Defined.

(** C4 as the specification states it fails for the ceiling 0: no step has
    been executed and nothing has halted the run, yet the ceiling is only
    looked at after a step, so one step is executed and two snapshots are
    returned. *)
Lemma step_ceiling_counterexample :
  ¬ ceiling_as_specified (Examples.spinner_engine (Some 0%Z)) "0" 0
  ∧ run 1 (Examples.spinner_engine (Some 0%Z)) "0" = Some (Return (
      [InstantDescription.mk "q0" "0" 0; InstantDescription.mk "q0" "0" 0], false)).
Proof.
  split; [|reflexivity]. intros H.
  pose (snap := InstantDescription.mk "q0" "0" 0).
  destruct (H (Locals ["0"] 0 "q0" [snap] 0) (Locals ["0"] 0 "q0" [snap] 0))
    as (_ & _ & Hrun); [reflexivity|lia|reflexivity|reflexivity|].
  destruct (Hrun 1) as [_ Hrun1]; [vm_compute; lia|]. by vm_compute in Hrun1.
Qed.

(** ** C8: determinism *)

Lemma run_traced_agree self input_string fuel1 fuel2 r1 r2 :
  run_traced fuel1 self input_string = Some r1 →
  run_traced fuel2 self input_string = Some r2 → r1 = r2.
Proof.
  unfold run_traced. destruct (start self input_string) as [l0|e]; [|congruence].
  case_decide; [congruence|]. apply loop_agree.
Qed.

Lemma run_agree self input_string fuel1 fuel2 r1 r2 :
  run fuel1 self input_string = Some r1 →
  run fuel2 self input_string = Some r2 → r1 = r2.
Proof.
  unfold run.
  destruct (run_traced fuel1 self input_string) as [t1|] eqn:H1; [|done].
  destruct (run_traced fuel2 self input_string) as [t2|] eqn:H2; [|by destruct t1].
  rewrite (run_traced_agree _ _ _ _ _ _ H1 H2). destruct t2; congruence.
Qed.

(** *** Computations on the store *)

Lemma and_then_run {A B} (m : Heap.M A) (k : A → Heap.M B) h r h' :
  m h = Some (r, h') →
  Heap.and_then m k h
  = match r with Return a => k a h' | Raise e => Some (Raise e, h') end.
Proof. unfold Heap.and_then. by intros ->. Qed.

Lemma deref_eq {A} (class : Heap.object → option A) l o a (h : Heap.store) :
  h !! l = Some o → class o = Some a →
  Heap.deref class l h = Some (Return a, h).
Proof. unfold Heap.deref. intros -> Hclass. simpl. by rewrite Hclass. Qed.

Lemma attribute_eq {A} (name : Heap.machine_fields → A) self fields (h : Heap.store) :
  h !! self = Some (Heap.MachineObject fields) →
  Heap.attribute name self h = Some (Return (name fields), h).
Proof.
  intros Hself. unfold Heap.attribute.
  by rewrite (and_then_run _ _ _ _ _ (deref_eq Heap.machine_object _ _ _ _ Hself eq_refl)).
Qed.

Lemma config_attribute_eq {A} (name : Heap.config_fields → A) config fields
    (h : Heap.store) :
  h !! config = Some (Heap.ConfigObject fields) →
  Heap.config_attribute name config h = Some (Return (name fields), h).
Proof.
  intros Hconfig. unfold Heap.config_attribute.
  by rewrite (and_then_run _ _ _ _ _ (deref_eq Heap.config_object _ _ _ _ Hconfig eq_refl)).
Qed.

(** A new object leaves the objects there were as they are. *)
Lemma alloc_spec o (h : Heap.store) :
  ∃ l h', Heap.alloc o h = Some (Return l, h')
          ∧ h !! l = None ∧ h ⊆ h' ∧ h' !! l = Some o.
Proof.
  exists (fresh (dom h)), (<[fresh (dom h) := o]> h).
  assert (h !! fresh (dom h) = None) as Hfresh.
  { apply not_elem_of_dom, is_fresh. }
  split_and!; [done|done| |by rewrite lookup_insert_eq].
  by apply insert_subseteq.
Qed.

Lemma is_config_weaken (h h' : Heap.store) config definition :
  Heap.is_config h config definition → h ⊆ h' →
  Heap.is_config h' config definition.
Proof.
  intros (fields & Hc & Hs & Hi & Ht & Hinit & Ha & Hr & Hin & Hb) Hsub.
  exists fields. split_and!; try done; try by eapply lookup_weaken.
  destruct (Heap.inputs fields), (MachineConfig.inputs definition); try done.
  by eapply lookup_weaken.
Qed.

Lemma is_machine_weaken (h h' : Heap.store) self engine :
  Heap.is_machine h self engine → h ⊆ h' → Heap.is_machine h' self engine.
Proof.
  intros (fields & Hself & Hc & Hs & Ha & Hb & Hm & Ht) Hsub.
  exists fields. split_and!; try done; try by eapply lookup_weaken.
  by eapply is_config_weaken.
Qed.

(** *** The methods, on a store that holds the engine *)

Lemma getitem_eq (h : Heap.store) tape items i :
  h !! tape = Some (Heap.StrList items) →
  Heap.getitem tape i h = Some (Py.getitem items i, h).
Proof.
  intros Htape. unfold Heap.getitem.
  rewrite (and_then_run _ _ _ _ _ (deref_eq Heap.str_list _ _ _ _ Htape eq_refl)).
  unfold Heap.lift. by destruct (Py.getitem items i).
Qed.

Lemma setitem_eq (h : Heap.store) tape items i x :
  h !! tape = Some (Heap.StrList items) →
  Heap.setitem tape i x h
  = match Py.setitem items i x with
    | Return items' => Some (Return tt, <[tape := Heap.StrList items']> h)
    | Raise e => Some (Raise e, h)
    end.
Proof.
  intros Htape. unfold Heap.setitem.
  rewrite (and_then_run _ _ _ _ _ (deref_eq Heap.str_list _ _ _ _ Htape eq_refl)).
  unfold Heap.and_then, Heap.lift. by destruct (Py.setitem items i x).
Qed.

Lemma move_head_eq (h : Heap.store) self fields engine tape items head_index move :
  h !! self = Some (Heap.MachineObject fields) →
  Heap._blank_symbol fields = _blank_symbol engine →
  h !! tape = Some (Heap.StrList items) →
  Heap._move_head self head_index move tape h
  = Some (Return (_move_head engine head_index move items).1,
          <[tape := Heap.StrList (_move_head engine head_index move items).2]> h).
Proof.
  intros Hself Hblank Htape. unfold Heap._move_head, _move_head.
  assert (h = <[tape := Heap.StrList items]> h) as Hid by by rewrite insert_id.
  repeat case_decide; simpl; unfold Heap.ret; try congruence.
  - rewrite (and_then_run _ _ _ _ _ (attribute_eq _ _ _ _ Hself)).
    unfold Heap.insert_first.
    rewrite (and_then_run _ _ _ _ _
               (and_then_run _ _ _ _ _ (deref_eq Heap.str_list _ _ _ _ Htape eq_refl))).
    simpl. unfold Heap.update. simpl. by rewrite Hblank.
  - rewrite (and_then_run _ _ _ _ _ (deref_eq Heap.str_list _ _ _ _ Htape eq_refl)).
    rewrite decide_True by done.
    rewrite (and_then_run _ _ _ _ _ (attribute_eq _ _ _ _ Hself)).
    unfold Heap.append.
    rewrite (and_then_run _ _ _ _ _
               (and_then_run _ _ _ _ _ (deref_eq Heap.str_list _ _ _ _ Htape eq_refl))).
    simpl. unfold Heap.update. simpl. by rewrite Hblank.
  - rewrite (and_then_run _ _ _ _ _ (deref_eq Heap.str_list _ _ _ _ Htape eq_refl)).
    rewrite decide_False by done. congruence.
Qed.

Lemma snapshot_eq (h : Heap.store) self engine tape items current_state head_index :
  h !! tape = Some (Heap.StrList items) →
  Heap._snapshot self current_state tape head_index h
  = Some (_snapshot engine current_state items head_index, h).
Proof.
  intros Htape. unfold Heap._snapshot, _snapshot.
  rewrite (and_then_run _ _ _ _ _ (deref_eq Heap.str_list _ _ _ _ Htape eq_refl)).
  unfold Heap.lift. by destruct (InstantDescription.new _ _ _).
Qed.

Lemma accepting_eq (h : Heap.store) self fields names current_state :
  h !! self = Some (Heap.MachineObject fields) →
  h !! Heap._accept_states fields = Some (Heap.StrSet names) →
  Heap.accepting self current_state h
  = Some (Return (bool_decide (current_state ∈ names)), h).
Proof.
  intros Hself Hnames. unfold Heap.accepting.
  rewrite (and_then_run _ _ _ _ _ (attribute_eq _ _ _ _ Hself)).
  by rewrite (and_then_run _ _ _ _ _ (deref_eq Heap.str_set _ _ _ _ Hnames eq_refl)).
Qed.

Lemma append_snapshot_eq (h : gmap positive Heap.object) history items snapshot :
  h !! history = Some (Heap.SnapshotList items) →
  Heap.append_snapshot history snapshot h
  = Some (Return tt, <[history := Heap.SnapshotList (items ++ [snapshot])]> h).
Proof.
  intros Hhistory. unfold Heap.append_snapshot.
  by rewrite (and_then_run _ _ _ _ _
                (deref_eq Heap.snapshot_list _ _ _ _ Hhistory eq_refl)).
Qed.

(** *** One pass of the loop *)

(** A pass of the loop on the store does to the tape and the trace, which
    the call made, what [iteration] does to its locals, and touches nothing
    else. *)
Lemma pass_simulates (h0 h : gmap positive Heap.object) self engine l pl :
  Heap.is_machine h0 self engine →
  Heap.holds h0 h l pl →
  match iteration engine pl with
  | Raise e => ∃ h', Heap.pass self l h = Some (Raise e, h') ∧ h0 ⊆ h'
  | Return (inl out) =>
      ∃ h', Heap.pass self l h
            = Some (Return (inl (Heap.history l, accepted out)), h')
            ∧ h0 ⊆ h'
            ∧ h' !! Heap.history l = Some (Heap.SnapshotList (history (final out)))
  | Return (inr pl') =>
      ∃ l' h', Heap.pass self l h = Some (Return (inr l'), h')
               ∧ Heap.history l' = Heap.history l
               ∧ Heap.holds h0 h' l' pl'
  end.
Proof.
  intros Hm (Hsub & Ht0 & Hh0 & Htape & Hhist & Hhd & Hst & Hsteps).
  destruct (is_machine_weaken _ _ _ _ Hm Hsub)
    as (fields & Hself & _ & _ & Hacc & Hblank & Hmax & Htable).
  assert (self ≠ Heap.tape l) as Hne1 by congruence.
  assert (self ≠ Heap.history l) as Hne2 by congruence.
  assert (Heap._accept_states fields ≠ Heap.tape l) as Hne3 by congruence.
  assert (Heap._accept_states fields ≠ Heap.history l) as Hne4 by congruence.
  assert (Heap.tape l ≠ Heap.history l) as Hne5 by congruence.
  unfold iteration, apply_rule, Heap.pass. rewrite Hhd, Hst, Hsteps.
  rewrite (and_then_run _ _ _ _ _ (getitem_eq _ _ _ _ Htape)).
  destruct (Py.getitem (tape pl) (head_index pl)) as [symbol|e]; simpl;
    [|by exists h].
  rewrite (and_then_run _ _ _ _ _ (attribute_eq Heap._transition_map _ _ _ Hself)).
  rewrite (and_then_run _ _ _ _ _ (deref_eq Heap.rule_dict _ _ _ _ Htable eq_refl)).
  destruct (_transition_map engine !! (current_state pl, symbol)) as [rule|]; simpl;
    [|by exists h].
  pose proof (setitem_eq h _ _ (head_index pl) (Transition.write_symbol rule) Htape)
    as Hset.
  destruct (Py.setitem (tape pl) (head_index pl) (Transition.write_symbol rule))
    as [tape1|e]; simpl; rewrite (and_then_run _ _ _ _ _ Hset); [|by exists h].
  set (h1 := <[Heap.tape l := Heap.StrList tape1]> h).
  assert (h1 !! self = Some (Heap.MachineObject fields)) as Hself1
    by (unfold h1; by rewrite lookup_insert_ne).
  assert (h1 !! Heap.tape l = Some (Heap.StrList tape1)) as Htape1
    by (unfold h1; by rewrite lookup_insert_eq).
  rewrite (and_then_run _ _ _ _ _
             (move_head_eq h1 self fields engine _ _ (head_index pl)
                (Transition.move rule) Hself1 Hblank Htape1)).
  destruct (_move_head engine (head_index pl) (Transition.move rule) tape1)
    as [head2 tape2]. simpl.
  set (h2 := <[Heap.tape l := Heap.StrList tape2]> h1).
  assert (h2 !! Heap.tape l = Some (Heap.StrList tape2)) as Htape2
    by (unfold h2; by rewrite lookup_insert_eq).
  assert (h0 ⊆ h2) as Hsub2.
  { unfold h2, h1. apply insert_subseteq_r; [done|]. by apply insert_subseteq_r. }
  rewrite (and_then_run _ _ _ _ _
             (snapshot_eq h2 self engine _ _ (Transition.next_state rule) head2 Htape2)).
  destruct (_snapshot engine (Transition.next_state rule) tape2 head2)
    as [snapshot|e]; simpl; [|by exists h2].
  assert (h2 !! Heap.history l = Some (Heap.SnapshotList (history pl))) as Hhist2
    by (unfold h2, h1; by rewrite !lookup_insert_ne).
  rewrite (and_then_run _ _ _ _ _ (append_snapshot_eq h2 _ _ snapshot Hhist2)).
  set (h3 := <[Heap.history l := Heap.SnapshotList (history pl ++ [snapshot])]> h2).
  assert (h3 !! self = Some (Heap.MachineObject fields)) as Hself3
    by (unfold h3, h2; by rewrite !lookup_insert_ne).
  assert (h3 !! Heap._accept_states fields = Some (Heap.StrSet (_accept_states engine)))
    as Hacc3 by (unfold h3, h2, h1; by rewrite !lookup_insert_ne).
  assert (h3 !! Heap.history l
          = Some (Heap.SnapshotList (history pl ++ [snapshot]))) as Hhist3
    by (unfold h3; by rewrite lookup_insert_eq).
  assert (h3 !! Heap.tape l = Some (Heap.StrList tape2)) as Htape3
    by (unfold h3; by rewrite lookup_insert_ne).
  assert (h0 ⊆ h3) as Hsub3 by (unfold h3; by apply insert_subseteq_r).
  rewrite (and_then_run _ _ _ _ _
             (accepting_eq h3 self fields _ (Transition.next_state rule) Hself3 Hacc3)).
  case_decide as Haccepting.
  { rewrite bool_decide_eq_true_2 by done. by exists h3. }
  rewrite bool_decide_eq_false_2 by done.
  rewrite (and_then_run _ _ _ _ _ (attribute_eq Heap._max_steps _ _ _ Hself3)).
  unfold ceiling_reached. simpl. rewrite Hmax.
  destruct (_max_steps engine) as [n|]; simpl.
  - case_decide as Hceiling.
    + rewrite bool_decide_eq_true_2 by done.
      rewrite (and_then_run _ _ _ _ _
                 (accepting_eq h3 self fields _ (Transition.next_state rule)
                    Hself3 Hacc3)).
      rewrite ?(bool_decide_eq_false_2 (_ ∈ _)) by done. by exists h3.
    + rewrite bool_decide_eq_false_2 by done.
      eexists _, h3. split; [done|]. split; [done|]. by split_and!.
  - eexists _, h3. split; [done|]. split; [done|]. by split_and!.
Qed.

(** *** The loop and the call *)

Lemma loop_simulates (h0 : gmap positive Heap.object) self engine fuel :
  Heap.is_machine h0 self engine →
  ∀ (h : gmap positive Heap.object) l pl,
    Heap.holds h0 h l pl →
    match loop fuel engine pl with
    | None => Heap.loop fuel self l h = None
    | Some (Raise e) => ∃ h', Heap.loop fuel self l h = Some (Raise e, h') ∧ h0 ⊆ h'
    | Some (Return out) =>
        ∃ h', Heap.loop fuel self l h
              = Some (Return (Heap.history l, accepted out), h')
              ∧ h0 ⊆ h'
              ∧ h' !! Heap.history l
                = Some (Heap.SnapshotList (history (final out)))
    end.
Proof.
  intros Hm. induction fuel as [|fuel IH]; intros h l pl Hholds; [done|].
  simpl. pose proof (pass_simulates h0 h self engine l pl Hm Hholds) as Hpass.
  destruct (iteration engine pl) as [[out|pl']|e].
  - destruct Hpass as (h' & Hpass & Hsub & Hhist).
    rewrite (and_then_run _ _ _ _ _ Hpass). by exists h'.
  - destruct Hpass as (l' & h' & Hpass & Hsame & Hholds').
    rewrite (and_then_run _ _ _ _ _ Hpass). rewrite <-Hsame. by apply IH.
  - destruct Hpass as (h' & Hpass & Hsub).
    rewrite (and_then_run _ _ _ _ _ Hpass). by exists h'.
Qed.

Lemma lookup_None_weaken (h h' : gmap positive Heap.object) l :
  h ⊆ h' → h' !! l = None → h !! l = None.
Proof.
  intros Hsub Hnone. destruct (h !! l) as [o|] eqn:Hl; [|done].
  by rewrite (lookup_weaken _ _ _ _ Hl Hsub) in Hnone.
Qed.

(** The message of the error does not depend on the order in which the set
    of invalid symbols is enumerated. *)
Lemma sorted_enumeration order (invalid : list string) :
  Heap.enumerates order → Py.sorted (order invalid) = offending invalid.
Proof.
  intros Horder. unfold offending, Py.sorted.
  apply (Sorted_unique String.le).
  - apply Sorted_merge_sort, _.
  - apply Sorted_merge_sort, _.
  - by rewrite !merge_sort_Permutation.
Qed.

Lemma validate_eq order (h : gmap positive Heap.object) self engine input_string :
  Heap.enumerates order →
  Heap.is_machine h self engine →
  Heap._validate_input_string order self input_string h
  = Some (_validate_input_string engine input_string, h).
Proof.
  intros Horder (fields & Hself & Hconfig & _).
  destruct Hconfig as (cfields & Hc & _ & Halphabet & _).
  unfold Heap._validate_input_string, _validate_input_string, invalid_symbols.
  rewrite (and_then_run _ _ _ _ _ (attribute_eq Heap._config _ _ _ Hself)).
  rewrite (and_then_run _ _ _ _ _
             (config_attribute_eq Heap.input_alphabet _ _ _ Hc)).
  rewrite (and_then_run _ _ _ _ _ (deref_eq Heap.str_list _ _ _ _ Halphabet eq_refl)).
  case_decide; [|done]. unfold Heap.raise. by rewrite (sorted_enumeration order).
Qed.

Lemma initialize_tape_spec (h : gmap positive Heap.object) self engine input_string :
  Heap.is_machine h self engine →
  ∃ tape h', Heap._initialize_tape self input_string h = Some (Return tape, h')
             ∧ h !! tape = None ∧ h ⊆ h'
             ∧ h' !! tape
               = Some (Heap.StrList (_initialize_tape engine input_string)).
Proof.
  intros (fields & Hself & _ & _ & _ & Hblank & _).
  unfold Heap._initialize_tape, _initialize_tape. case_decide.
  - rewrite (and_then_run _ _ _ _ _ (attribute_eq Heap._blank_symbol _ _ _ Hself)).
    rewrite Hblank. apply alloc_spec.
  - apply alloc_spec.
Qed.

(** A call on the store returns what [run] returns, in a list it has made,
    and leaves every object it found as it was. *)
Lemma run_simulates order (h : gmap positive Heap.object) self engine fuel
    input_string :
  Heap.enumerates order →
  Heap.is_machine h self engine →
  match run fuel engine input_string with
  | None => Heap.run order fuel self input_string h = None
  | Some (Raise e) =>
      ∃ h', Heap.run order fuel self input_string h = Some (Raise e, h') ∧ h ⊆ h'
  | Some (Return (trace, verdict)) =>
      ∃ history h',
        Heap.run order fuel self input_string h = Some (Return (history, verdict), h')
        ∧ h ⊆ h'
        ∧ h !! history = None
        ∧ h' !! history = Some (Heap.SnapshotList trace)
  end.
Proof.
  intros Horder Hm. unfold run, run_traced, start, Heap.run.
  rewrite (and_then_run _ _ _ _ _ (validate_eq order h self engine _ Horder Hm)).
  destruct (_validate_input_string engine input_string) as [[]|e]; simpl;
    [|by exists h].
  destruct (initialize_tape_spec h self engine input_string Hm)
    as (tape & h1 & Htape & Hfresh1 & Hsub1 & Htape1).
  rewrite (and_then_run _ _ _ _ _ Htape).
  destruct (is_machine_weaken _ _ _ _ Hm Hsub1)
    as (fields & Hself1 & Hconfig1 & _ & Hacc1 & _).
  destruct Hconfig1 as (cfields & Hc1 & _ & _ & _ & Hinitial & _).
  rewrite (and_then_run _ _ _ _ _ (attribute_eq Heap._config _ _ _ Hself1)).
  rewrite (and_then_run _ _ _ _ _
             (config_attribute_eq Heap.initial_state _ _ _ Hc1)).
  rewrite Hinitial.
  rewrite (and_then_run _ _ _ _ _
             (snapshot_eq h1 self engine _ _
                (MachineConfig.initial_state (_config engine)) 0 Htape1)).
  destruct (_snapshot engine _ _ 0) as [snapshot|e]; simpl; [|by exists h1].
  destruct (alloc_spec (Heap.SnapshotList [snapshot]) h1)
    as (history & h2 & Hhistory & Hfresh2 & Hsub2 & Hhistory2).
  rewrite (and_then_run _ _ _ _ _ Hhistory).
  assert (h ⊆ h2) as Hsub by by etrans.
  assert (h !! history = None) as Hfresh by by apply (lookup_None_weaken h h1).
  rewrite (and_then_run _ _ _ _ _
             (accepting_eq h2 self fields _
                (MachineConfig.initial_state (_config engine))
                (lookup_weaken _ _ _ _ Hself1 Hsub2)
                (lookup_weaken _ _ _ _ Hacc1 Hsub2))).
  case_decide as Haccepting.
  { rewrite bool_decide_eq_true_2 by done. by exists history, h2. }
  rewrite bool_decide_eq_false_2 by done.
  pose proof (loop_simulates h self engine fuel Hm h2
                (Heap.Locals tape 0 (MachineConfig.initial_state (_config engine))
                   history 0)
                (Locals (_initialize_tape engine input_string) 0
                   (MachineConfig.initial_state (_config engine)) [snapshot] 0))
    as Hloop.
  destruct (loop fuel engine _) as [[out|e]|].
  - destruct Hloop as (h' & Hloop & Hsub' & Hhistory'); [|by exists history, h'].
    split_and!; simpl; try done. by eapply lookup_weaken.
  - destruct Hloop as (h' & Hloop & Hsub'); [|by exists h'].
    split_and!; simpl; try done. by eapply lookup_weaken.
  - apply Hloop. split_and!; simpl; try done. by eapply lookup_weaken.
Qed.

(** *** Construction *)

(** Building an engine on the store makes the engine [__init__] makes, out
    of new objects and of the definition it was given, and leaves every
    object it found as it was. *)
Lemma init_simulates (h : gmap positive Heap.object) config definition max_steps :
  Heap.is_config h config definition →
  match __init__ definition max_steps with
  | Return engine =>
      ∃ self h', Heap.__init__ config max_steps h = Some (Return self, h')
                 ∧ h ⊆ h' ∧ h !! self = None ∧ Heap.is_machine h' self engine
  | Raise e => ∃ h', Heap.__init__ config max_steps h = Some (Raise e, h') ∧ h ⊆ h'
  end.
Proof.
  intros Hconfig.
  pose proof Hconfig as (cfields & Hc & Hstates & _ & _ & _ & Haccept & Hrules & _ & Hblank).
  unfold __init__, Heap.__init__.
  rewrite (and_then_run _ _ _ _ _ (config_attribute_eq Heap.states _ _ _ Hc)).
  rewrite (and_then_run _ _ _ _ _ (deref_eq Heap.str_list _ _ _ _ Hstates eq_refl)).
  rewrite (and_then_run _ _ _ _ _ (eq_refl : Heap.lift _ h = Some (_, h))).
  destruct (states_dict (MachineConfig.states definition) ∅) as [sd|e]; simpl;
    [|by exists h].
  destruct (alloc_spec (Heap.StateDict sd) h) as (l1 & h1 & Hal1 & Hf1 & Hsub1 & Hl1).
  rewrite (and_then_run _ _ _ _ _ Hal1).
  rewrite (and_then_run _ _ _ _ _
             (config_attribute_eq Heap.accept_states _ _ _
                (lookup_weaken _ _ _ _ Hc Hsub1))).
  rewrite (and_then_run _ _ _ _ _
             (deref_eq Heap.str_list _ _ _ _
                (lookup_weaken _ _ _ _ Haccept Hsub1) eq_refl)).
  destruct (alloc_spec
              (Heap.StrSet (list_to_set (MachineConfig.accept_states definition))) h1)
    as (l2 & h2 & Hal2 & Hf2 & Hsub2 & Hl2).
  rewrite (and_then_run _ _ _ _ _ Hal2).
  assert (h ⊆ h2) as Hsub02 by by etrans.
  rewrite (and_then_run _ _ _ _ _
             (config_attribute_eq Heap.blank_symbol _ _ _
                (lookup_weaken _ _ _ _ Hc Hsub02))).
  rewrite (and_then_run _ _ _ _ _
             (config_attribute_eq Heap.transitions _ _ _
                (lookup_weaken _ _ _ _ Hc Hsub02))).
  rewrite (and_then_run _ _ _ _ _
             (deref_eq Heap.rule_list _ _ _ _
                (lookup_weaken _ _ _ _ Hrules Hsub02) eq_refl)).
  rewrite (and_then_run _ _ _ _ _
             (deref_eq Heap.state_dict _ _ _ _
                (lookup_weaken _ _ _ _ Hl1 Hsub2) eq_refl)).
  rewrite (and_then_run _ _ _ _ _ (eq_refl : Heap.lift _ h2 = Some (_, h2))).
  destruct (_build_transition_map sd (MachineConfig.transitions definition))
    as [table|e]; simpl; [|by exists h2].
  destruct (alloc_spec (Heap.RuleDict table) h2)
    as (l3 & h3 & Hal3 & Hf3 & Hsub3 & Hl3).
  rewrite (and_then_run _ _ _ _ _ Hal3).
  destruct (alloc_spec
              (Heap.MachineObject
                 (Heap.MachineFields config l1 l2 (Heap.blank_symbol cfields)
                    max_steps l3)) h3)
    as (l4 & h4 & Hal4 & Hf4 & Hsub4 & Hl4).
  assert (h ⊆ h3) as Hsub03 by by etrans.
  assert (h ⊆ h4) as Hsub04 by by etrans.
  exists l4, h4. split_and!; [done|done|by apply (lookup_None_weaken h h3)|].
  eexists. split; [done|]. simpl. split_and!; try done.
  - by eapply is_config_weaken.
  - apply (lookup_weaken h1); [done|].
    etrans; [exact Hsub2|]. by etrans.
  - apply (lookup_weaken h2); [done|]. by etrans.
  - by apply (lookup_weaken h3).
Qed.

(** C8.  [run] on objects.  The engine, the definition and everything they
    refer to are objects in a store, and a call of [run] is a computation
    that reads and writes the store.  (1) Building an engine from a
    definition object mutates no object there was, and the object it
    returns is the engine that the definition and the ceiling determine: two
    engines built from the same definition with the same ceiling are that
    same engine, in different objects.  (2) A call of [run] mutates no
    object there was before the call, so no attribute of the engine, of the
    definition, or of any list, dict or set they refer to: the tape and the
    trace are lists made by the call.  What it returns (the snapshots of the
    trace and the verdict, or the exception with its message) is a function
    of the engine and the input; it does not depend on the store, nor on
    the order in which Python enumerates a set, and the call returns
    whenever that function has a value.  (3) So of two calls, one after the
    other, on the same engine object or on two objects that are the same
    engine, the second finds the engine as the first found it and returns
    the same snapshots and the same verdict, or the same exception, and
    leaves the trace returned by the first as it was. *)
Theorem run_deterministic (input_string : string) :
  (∀ (h : gmap positive Heap.object) config definition max_steps r h',
     Heap.is_config h config definition →
     Heap.__init__ config max_steps h = Some (r, h') →
     h ⊆ h'
     ∧ match r with
       | Return self =>
           ∃ engine, __init__ definition max_steps = Return engine
                     ∧ Heap.is_machine h' self engine ∧ h !! self = None
       | Raise e => __init__ definition max_steps = Raise e
       end)
  ∧ (∀ order (h : gmap positive Heap.object) self engine fuel,
       Heap.enumerates order →
       Heap.is_machine h self engine →
       (Heap.run order fuel self input_string h ≫= Heap.returned)
       = run fuel engine input_string
       ∧ (is_Some (run fuel engine input_string) →
          is_Some (Heap.run order fuel self input_string h))
       ∧ ∀ r h', Heap.run order fuel self input_string h = Some (r, h') →
           h ⊆ h'
           ∧ match r with
             | Return (history, _) => h !! history = None
             | Raise _ => True
             end)
  ∧ (∀ order1 order2 (h : gmap positive Heap.object) self1 self2 engine
       fuel1 fuel2 r1 h1 r2 h2,
       Heap.enumerates order1 →
       Heap.enumerates order2 →
       Heap.is_machine h self1 engine →
       Heap.is_machine h self2 engine →
       Heap.run order1 fuel1 self1 input_string h = Some (r1, h1) →
       Heap.run order2 fuel2 self2 input_string h1 = Some (r2, h2) →
       Heap.is_machine h2 self1 engine
       ∧ Heap.is_machine h2 self2 engine
       ∧ ∃ value,
           Heap.returned (r1, h1) = Some value
           ∧ Heap.returned (r2, h2) = Some value
           ∧ Heap.returned (r1, h2) = Some value).
Proof.
  assert (∀ order (h : gmap positive Heap.object) self engine fuel r h',
            Heap.enumerates order →
            Heap.is_machine h self engine →
            Heap.run order fuel self input_string h = Some (r, h') →
            h ⊆ h'
            ∧ (∃ value, run fuel engine input_string = Some value
                        ∧ Heap.returned (r, h') = Some value)
            ∧ match r with
              | Return (history, _) => h !! history = None
              | Raise _ => True
              end) as Hcall.
  { intros order h self engine fuel r h' Horder Hm Hrun.
    pose proof (run_simulates order h self engine fuel input_string Horder Hm) as Hsim.
    destruct (run fuel engine input_string) as [[[trace verdict]|e]|].
    - destruct Hsim as (history & h'' & Hrun' & Hsub & Hfresh & Htrace).
      rewrite Hrun in Hrun'. injection Hrun' as -> ->.
      split_and!; try done. eexists. split; [done|]. simpl. by rewrite Htrace.
    - destruct Hsim as (h'' & Hrun' & Hsub).
      rewrite Hrun in Hrun'. injection Hrun' as -> ->.
      split_and!; try done. by eexists.
    - by rewrite Hrun in Hsim. }
  split_and!.
  - intros h config definition max_steps r h' Hconfig Hinit.
    pose proof (init_simulates h config definition max_steps Hconfig) as Hsim.
    destruct (__init__ definition max_steps) as [engine|e].
    + destruct Hsim as (self & h'' & Hinit' & Hsub & Hfresh & Hm).
      rewrite Hinit in Hinit'. injection Hinit' as -> ->. split; [done|].
      by exists engine.
    + destruct Hsim as (h'' & Hinit' & Hsub).
      rewrite Hinit in Hinit'. by injection Hinit' as -> ->.
  - intros order h self engine fuel Horder Hm.
    pose proof (run_simulates order h self engine fuel input_string Horder Hm) as Hsim.
    split_and!.
    + destruct (Heap.run order fuel self input_string h) as [[r h']|] eqn:Hrun.
      * destruct (Hcall order h self engine fuel r h')
          as (_ & (value & -> & Hvalue) & _); done.
      * destruct (run fuel engine input_string) as [[[trace verdict]|e]|]; [| |done].
        -- by destruct Hsim as (? & ? & ? & _).
        -- by destruct Hsim as (? & ? & _).
    + destruct (run fuel engine input_string) as [[[trace verdict]|e]|].
      * intros _. by destruct Hsim as (? & ? & -> & _).
      * intros _. by destruct Hsim as (? & -> & _).
      * by intros [? ?].
    + intros r h' Hrun.
      by destruct (Hcall order h self engine fuel r h') as (? & _ & ?).
  - intros order1 order2 h self1 self2 engine fuel1 fuel2 r1 h1 r2 h2
      Horder1 Horder2 Hm1 Hm2 Hrun1 Hrun2.
    destruct (Hcall order1 h self1 engine fuel1 r1 h1)
      as (Hsub1 & (value1 & Hpure1 & Hvalue1) & Hfresh1); try done.
    pose proof (is_machine_weaken _ _ _ _ Hm2 Hsub1) as Hm2'.
    destruct (Hcall order2 h1 self2 engine fuel2 r2 h2)
      as (Hsub2 & (value2 & Hpure2 & Hvalue2) & Hfresh2); try done.
    split_and!.
    + eapply is_machine_weaken; [done|]. by etrans.
    + by eapply is_machine_weaken.
    + exists value1. split_and!; [done| |].
      * rewrite Hvalue2. f_equal. symmetry. by eapply run_agree.
      * destruct r1 as [[history verdict]|e]; [|done]. simpl in *.
        destruct (h1 !! history) as [o|] eqn:Hhistory; [|done].
        by rewrite (lookup_weaken _ _ _ _ Hhistory Hsub2).
Qed.

Lemma run_deterministic_witness :
  (Heap.__init__ 6 (Some 9%Z) Examples.scanner_store
   = Some (Return 10%positive, Examples.one_engine)
   ∧ Heap.__init__ 6 (Some 9%Z) Examples.one_engine
     = Some (Return 14%positive, Examples.two_engines))
  ∧ (Heap.is_machine Examples.after_calls 10 (Examples.scanner_engine (Some 9%Z))
     ∧ Heap.is_machine Examples.after_calls 14 (Examples.scanner_engine (Some 9%Z))
     ∧ ∃ value,
         Heap.returned (Return (16%positive, true), Examples.after_call)
         = Some value
         ∧ Heap.returned (Return (18%positive, true), Examples.after_calls)
           = Some value
         ∧ Heap.returned (Return (16%positive, true), Examples.after_calls)
           = Some value)
  ∧ (Heap.is_machine Examples.two_engines 10 (Examples.scanner_engine (Some 9%Z))
     ∧ Heap.is_machine Examples.two_engines 14 (Examples.scanner_engine (Some 9%Z))
     ∧ ∃ value,
         Heap.returned (Raise (InvalidSymbol
             "Input string contains symbols outside the input alphabet: 2, 3, 8"),
           Examples.two_engines) = Some value
         ∧ Heap.returned (Raise (InvalidSymbol
               "Input string contains symbols outside the input alphabet: 2, 3, 8"),
             Examples.two_engines) = Some value
         ∧ Heap.returned (Raise (InvalidSymbol
               "Input string contains symbols outside the input alphabet: 2, 3, 8"),
             Examples.two_engines) = Some value).
Proof.
  assert (Heap.enumerates Examples.forwards) as Hforwards by by intros xs.
  assert (Heap.enumerates Examples.backwards) as Hbackwards.
  { intros xs. apply reverse_Permutation. }
  assert (∀ self, self = 10%positive ∨ self = 14%positive →
            Heap.is_machine Examples.two_engines self
              (Examples.scanner_engine (Some 9%Z))) as Hengines.
  { intros self [-> | ->].
    - eexists. split; [vm_compute; reflexivity|]. split.
      { eexists. split; [vm_compute; reflexivity|].
        split_and!; try (vm_compute; reflexivity). }
      split_and!; vm_compute; reflexivity.
    - eexists. split; [vm_compute; reflexivity|]. split.
      { eexists. split; [vm_compute; reflexivity|].
        split_and!; try (vm_compute; reflexivity). }
      split_and!; vm_compute; reflexivity. }
  split; [split; vm_compute; reflexivity|]. split.
  - apply (proj2 (proj2 (run_deterministic "01"))
             Examples.forwards Examples.backwards Examples.two_engines
             10%positive 14%positive
             (Examples.scanner_engine (Some 9%Z)) 7 3);
      [done|done|by apply Hengines; left|by apply Hengines; right| |];
      vm_compute; reflexivity.
  - apply (proj2 (proj2 (run_deterministic "0321282"))
             Examples.forwards Examples.backwards Examples.two_engines
             10%positive 14%positive
             (Examples.scanner_engine (Some 9%Z)) 7 3);
      [done|done|by apply Hengines; left|by apply Hengines; right| |];
      vm_compute; reflexivity.
Defined.

(** * Further properties of the engine *)

(** ** Chains of steps *)

Lemma advance_split self k : ∀ m l l',
  advance self (k + m) l = Some l' ↔
  ∃ lk, advance self k l = Some lk ∧ advance self m lk = Some l'.
Proof.
  induction k as [|k IH]; intros m l l'.
  - simpl. split; [by exists l|]. by intros (lk & [= <-] & ?).
  - replace (S k + m) with (S (k + m)) by lia. rewrite !advance_S.
    case_decide.
    { split; [done|]. by intros (? & ? & _). }
    destruct (apply_rule self l) as [[l1|]|].
    + apply IH.
    + split; [done|]. by intros (? & ? & _).
    + split; [done|]. by intros (? & ? & _).
Qed.

(** A configuration the run went on from was not accepting. *)
Lemma advance_before_not_accepting self n k l l' :
  advance self n l = Some l' → k < n →
  ∃ lk, advance self k l = Some lk ∧ current_state lk ∉ _accept_states self.
Proof.
  intros Hadv Hk. replace n with (k + S (n - S k)) in Hadv by lia.
  apply advance_split in Hadv as (lk & Hlk & Hrest). exists lk. split; [done|].
  rewrite advance_S in Hrest. by case_decide.
Qed.

(** The last snapshot of a returned trace renders the final locals. *)
Lemma run_traced_last self fuel input_string out :
  run_traced fuel self input_string = Some (Return out) →
  last (history (final out)) = Some (rendering (final out)).
Proof.
  intros (_ & l0 & n & Hstart & Hadv & _ & Hlen)%run_traced_Return.
  rewrite last_lookup, Hlen. replace (Nat.pred (n + 1)) with n by lia.
  destruct (lookup_lt_is_Some_2 (history (final out)) n) as [snap Hsnap]; [lia|].
  destruct (history_renders _ _ _ _ _ Hstart Hadv n snap Hsnap) as (ln & Hln & ->).
  rewrite Hsnap. congruence.
Qed.

(** ** The verdict *)

(** X1. The verdict [run] returns is read off the trace: it is accepted
    exactly when the state of the last snapshot is an accept state. *)
Theorem verdict_is_last_state (fuel : nat) (self : Machine.t)
    (input_string : string) (trace : list InstantDescription.t) (verdict : bool) :
  run fuel self input_string = Some (Return (trace, verdict)) →
  ∃ snap, last trace = Some snap
          ∧ (verdict = true ↔ InstantDescription.state snap ∈ _accept_states self).
Proof.
  intros (out & Hrun & -> & ->)%run_Return.
  exists (rendering (final out)). split; [by eapply run_traced_last|].
  apply run_traced_Return in Hrun as (Hex & _). unfold exit_ok in Hex. simpl.
  destruct (via out); destruct Hex as (-> & Hacc & _) || destruct Hex as (-> & Hacc);
    split; done.
Qed.

Lemma verdict_is_last_state_witness :
  ∃ snap,
    last [InstantDescription.mk "q0" "01" 0; InstantDescription.mk "q0" "01" 1;
          InstantDescription.mk "qa" "01B" 2] = Some snap
    ∧ (true = true ↔
       InstantDescription.state snap ∈ _accept_states (Examples.scanner_engine None)).
Proof.
  apply (verdict_is_last_state 5 (Examples.scanner_engine None) "01"). reflexivity.
Defined.

(** X2. [run] stops at the first accepting configuration: no snapshot of a
    returned trace other than the last one has an accept state. *)
Theorem accepting_only_last (fuel : nat) (self : Machine.t)
    (input_string : string) (trace : list InstantDescription.t) (verdict : bool)
    (k : nat) (snap : InstantDescription.t) :
  run fuel self input_string = Some (Return (trace, verdict)) →
  trace !! k = Some snap →
  S k < length trace →
  InstantDescription.state snap ∉ _accept_states self.
Proof.
  intros (out & Hrun & -> & _)%run_Return Hk Hlt.
  apply run_traced_Return in Hrun as (_ & l0 & n & Hstart & Hadv & _ & Hlen).
  destruct (history_renders _ _ _ _ _ Hstart Hadv k snap Hk) as (lk & Hlk & ->).
  destruct (advance_before_not_accepting self n k l0 (final out) Hadv) as (lk' & Hlk' & Hacc);
    [lia|].
  simpl. congruence.
Qed.

Lemma accepting_only_last_witness :
  "q0" ∉ _accept_states (Examples.scanner_engine None).
Proof.
  apply (accepting_only_last 5 (Examples.scanner_engine None) "01"
           [InstantDescription.mk "q0" "01" 0; InstantDescription.mk "q0" "01" 1;
            InstantDescription.mk "qa" "01B" 2] true 1
           (InstantDescription.mk "q0" "01" 1)).
  - reflexivity.
  - reflexivity.
  - simpl. lia.
Defined.

(** ** Bounds *)

Lemma loop_steps_bound self N fuel : ∀ l out,
  _max_steps self = Some N →
  loop fuel self l = Some (Return out) →
  (steps (final out) ≤ Z.max (steps l + 1) N)%Z.
Proof.
  induction fuel as [|fuel IH]; intros l out HN; [done|].
  rewrite loop_S. destruct (iteration self l) as [x|e] eqn:Hit; [|done].
  apply iteration_Return in Hit
    as [[Happ ->]|(l' & Happ & [[Hacc' ->]|[(Hacc' & Hc & ->)|(Hacc' & Hc & ->)]])].
  - intros [= <-]. simpl. lia.
  - intros [= <-]. simpl. apply apply_rule_counts in Happ as (-> & _). lia.
  - intros [= <-]. simpl. apply apply_rule_counts in Happ as (-> & _). lia.
  - intros Hloop. apply IH in Hloop; [|done].
    apply apply_rule_counts in Happ as (Hs & _).
    unfold ceiling_reached in Hc. rewrite HN in Hc. apply bool_decide_eq_false in Hc.
    lia.
Qed.

(** X3. A run under a step ceiling [N] never executes more than [max 1 N]
    steps: the trace it returns has at least one and at most [max 1 N + 1]
    snapshots. *)
Theorem trace_length_bounded (fuel : nat) (self : Machine.t) (N : Z)
    (input_string : string) (trace : list InstantDescription.t) (verdict : bool) :
  _max_steps self = Some N →
  run fuel self input_string = Some (Return (trace, verdict)) →
  1 ≤ length trace ≤ Z.to_nat (Z.max 1 N) + 1.
Proof.
  intros HN (out & Hrun & -> & _)%run_Return.
  pose proof (run_traced_Return _ _ _ _ Hrun) as (_ & l0 & n & Hstart & _ & Hsteps & Hlen).
  split; [lia|]. rewrite Hlen. apply Nat.add_le_mono_r.
  unfold run_traced in Hrun. rewrite Hstart in Hrun.
  apply start_Return in Hstart as (_ & snap & _ & ->). simpl in Hrun.
  case_decide.
  - injection Hrun as <-. simpl in Hsteps. lia.
  - apply (loop_steps_bound self N) in Hrun; [|done]. simpl in Hrun. lia.
Qed.

Lemma trace_length_bounded_witness :
  1 ≤ length [InstantDescription.mk "q0" "0" 0; InstantDescription.mk "q0" "0" 0;
              InstantDescription.mk "q0" "0" 0; InstantDescription.mk "q0" "0" 0]
    ≤ Z.to_nat (Z.max 1 3) + 1.
Proof.
  apply (trace_length_bounded 9 (Examples.spinner_engine (Some 3%Z)) 3 "0" _ false);
    reflexivity.
Defined.

(** ** Exceptions *)

(** X4. On an engine built from a valid definition [run] raises nothing but
    InvalidSymbol, and that only for an input that is not over the input
    alphabet: no index falls outside the tape and every snapshot passes its
    own validation. *)
Theorem run_raises_only_invalid_symbol (config : MachineConfig.t)
    (max_steps : option Z) (self : Machine.t) (input_string : string)
    (fuel : nat) (e : exn) :
  MachineConfig.valid config →
  __init__ config max_steps = Return self →
  run fuel self input_string = Some (Raise e) →
  (∃ message, e = InvalidSymbol message) ∧ ¬ over_alphabet config input_string.
Proof.
  intros Hvalid Hinit Hrun.
  pose proof (init_engine_ok _ _ _ Hvalid Hinit) as Hok.
  destruct (init_fields _ _ _ Hinit) as (Hc & _).
  assert (run_traced fuel self input_string = Some (Raise e)) as Htr.
  { unfold run in Hrun.
    destruct (run_traced fuel self input_string) as [[out|e']|]; congruence. }
  apply run_traced_Raise in Htr as [Hval|(_ & [Hsnap|(l0 & Hstart & _ & Hloop)])].
  - apply validate_Raise in Hval as (Hne & ->). split; [eauto|].
    rewrite <-Hc. by intros ?%invalid_symbols_nil.
  - destruct Hok as [Hi _].
    assert (∃ snap, _snapshot self (MachineConfig.initial_state (_config self))
                      (_initialize_tape self input_string) 0 = Return snap)
      as [snap Hsnap'].
    { eexists. apply snapshot_Return. by split_and!. }
    congruence.
  - apply loop_no_raise in Hloop as [out ?]; [done|done|]. by eapply start_inv.
Qed.

Lemma run_raises_only_invalid_symbol_witness :
  (∃ message,
     InvalidSymbol "Input string contains symbols outside the input alphabet: 2"
     = InvalidSymbol message)
  ∧ ¬ over_alphabet Examples.scanner "2".
Proof.
  apply (run_raises_only_invalid_symbol Examples.scanner None
           (Examples.scanner_engine None) "2" 0).
  - by_evaluation.
  - reflexivity.
  - reflexivity.
Defined.

(** ** States of the trace *)

Lemma init_rules_declared config max_steps self key rule :
  __init__ config max_steps = Return self →
  _transition_map self !! key = Some rule →
  Transition.current_state rule ∈ MachineConfig.states config
  ∧ Transition.next_state rule ∈ MachineConfig.states config.
Proof.
  intros Hinit Hrule. pose proof Hinit as (sd & table & Hsd & Htable & ->)%init_Return.
  simpl in Hrule. apply build_loop_Return in Htable as (Hnd & Hall & ->).
  destruct (table_fold_table_of _ Hnd) as [_ Hfrom].
  apply Hfrom in Hrule as [Hin _]. rewrite Forall_forall in Hall.
  destruct (Hall _ Hin) as (_ & Hs & Hd).
  by rewrite <-!(states_dict_declared config sd _ Hsd).
Qed.

Lemma advance_state_declared config max_steps self n : ∀ l l',
  __init__ config max_steps = Return self →
  current_state l ∈ MachineConfig.states config →
  advance self n l = Some l' →
  current_state l' ∈ MachineConfig.states config.
Proof.
  induction n as [|n IH]; intros l l' Hinit Hl; [by intros [= <-]|].
  rewrite advance_S. case_decide; [done|].
  destruct (apply_rule self l) as [[l1|]|] eqn:Happ; try done.
  apply IH; [done|].
  apply apply_rule_Some in Happ as (symbol & rule & tape1 & snap & _ & Hrule & _ & _ & ->).
  simpl. by eapply init_rules_declared.
Qed.

(** X5. Every state name in a trace returned by an engine built from a
    valid definition is a declared state: the initial state is checked by
    the definition, the destination of every rule by the engine when it
    builds its table. *)
Theorem trace_states_declared (config : MachineConfig.t) (max_steps : option Z)
    (self : Machine.t) (input_string : string) (fuel : nat)
    (trace : list InstantDescription.t) (verdict : bool) :
  MachineConfig.valid config →
  __init__ config max_steps = Return self →
  run fuel self input_string = Some (Return (trace, verdict)) →
  Forall (λ snap, InstantDescription.state snap ∈ MachineConfig.states config) trace.
Proof.
  intros [Hvalid _] Hinit (out & Hrun & -> & _)%run_Return.
  destruct (init_fields _ _ _ Hinit) as (Hc & _).
  apply run_traced_Return in Hrun as (_ & l0 & n & Hstart & Hadv & _).
  apply Forall_lookup. intros k snap Hk.
  destruct (history_renders _ _ _ _ _ Hstart Hadv k snap Hk) as (lk & Hlk & ->).
  simpl. eapply advance_state_declared; [done| |done].
  apply start_Return in Hstart as (_ & snap0 & _ & ->). simpl. rewrite Hc.
  by apply post_init_initial_state.
Qed.

Lemma trace_states_declared_witness :
  Forall (λ snap, InstantDescription.state snap ∈ ["q0"; "qa"])
    [InstantDescription.mk "q0" "01" 0; InstantDescription.mk "q0" "01" 1;
     InstantDescription.mk "qa" "01B" 2].
Proof.
  apply (trace_states_declared Examples.scanner None (Examples.scanner_engine None)
           "01" 5 _ true).
  - by_evaluation.
  - reflexivity.
  - reflexivity.
Defined.

(** ** Rejection *)

(** X6. Without a step ceiling a run returns rejected only by omission: the
    configuration it stopped in has a symbol under the head for which the
    table holds no rule. *)
Theorem rejection_is_omission (fuel : nat) (self : Machine.t)
    (input_string : string) (out : outcome) :
  _max_steps self = None →
  run_traced fuel self input_string = Some (Return out) →
  accepted out = false →
  via out = HaltByOmission
  ∧ ∃ symbol,
      Py.getitem (tape (final out)) (head_index (final out)) = Return symbol
      ∧ _transition_map self !! (current_state (final out), symbol) = None.
Proof.
  intros Hmax (Hex & _)%run_traced_Return Hrej. unfold exit_ok in Hex.
  destruct (via out) eqn:Hvia.
  - destruct Hex as (? & _). congruence.
  - destruct Hex as (_ & _ & Happ). split; [done|]. by apply apply_rule_None.
  - destruct Hex as (? & _). congruence.
  - destruct Hex as (_ & _ & Hc). unfold ceiling_reached in Hc. by rewrite Hmax in Hc.
Qed.

Lemma rejection_is_omission_witness :
  ∃ symbol,
    Py.getitem ["B"] 0 = Return symbol
    ∧ _transition_map (Examples.scanner_engine None) !! ("q0", symbol) = None.
Proof.
  destruct (rejection_is_omission 5 (Examples.scanner_engine None) ""
              (Outcome HaltByOmission
                 (Locals ["B"] 0 "q0" [InstantDescription.mk "q0" "B" 0] 0) false))
    as [_ H]; [reflexivity..|exact H].
Defined.

(** ** The tape *)

(** One step moves the head by at most one cell, keeps it on the tape, and
    adds at most one cell. *)
Lemma apply_rule_range self l l' :
  (0 ≤ head_index l < Py.len (tape l))%Z →
  apply_rule self l = Return (Some l') →
  (0 ≤ head_index l' < Py.len (tape l'))%Z
  ∧ (head_index l - 1 ≤ head_index l' ≤ head_index l + 1)%Z
  ∧ length (tape l) ≤ length (tape l') ≤ S (length (tape l)).
Proof.
  intros Hhd (symbol & rule & tape1 & snap & _ & _ & Hset & _ & ->)%apply_rule_Some.
  apply setitem_length in Hset. simpl. rewrite <-Hset.
  unfold _move_head, Py.len in *. rewrite <-Hset in Hhd.
  repeat case_decide; simpl; rewrite ?length_app; simpl; lia.
Qed.

Lemma advance_range self n : ∀ l l',
  (0 ≤ head_index l < Py.len (tape l))%Z →
  advance self n l = Some l' →
  (0 ≤ head_index l' < Py.len (tape l'))%Z
  ∧ (head_index l - Z.of_nat n ≤ head_index l' ≤ head_index l + Z.of_nat n)%Z
  ∧ length (tape l) ≤ length (tape l') ≤ length (tape l) + n.
Proof.
  induction n as [|n IH]; intros l l' Hhd.
  - intros [= <-]. lia.
  - rewrite advance_S. case_decide; [done|].
    destruct (apply_rule self l) as [[l1|]|] eqn:Happ; try done.
    destruct (apply_rule_range _ _ _ Hhd Happ) as (Hhd1 & Hmove & Hlen).
    intros (? & ? & ?)%IH; [|done]. lia.
Qed.

Lemma start_tape self input_string l0 :
  start self input_string = Return l0 →
  head_index l0 = 0%Z
  ∧ length (tape l0) = Nat.max 1 (String.length input_string).
Proof.
  intros (_ & snap & _ & ->)%start_Return. simpl. split; [done|].
  unfold _initialize_tape. case_decide as Hin; [by subst|].
  rewrite chars_length. apply nonempty_length in Hin. lia.
Qed.

(** X7. The tape never shrinks and grows by at most one cell per step, and
    the head starts at 0, never leaves the tape and moves by at most one cell
    per step: the [k]-th snapshot of a returned trace renders the
    configuration after [k] steps, whose head index is between 0 and [k] and
    below the number of cells, and whose tape has between
    [max 1 (len input)] and [max 1 (len input) + k] cells. *)
Theorem tape_growth_bounded (fuel : nat) (self : Machine.t)
    (input_string : string) (trace : list InstantDescription.t) (verdict : bool)
    (k : nat) (snap : InstantDescription.t) :
  run fuel self input_string = Some (Return (trace, verdict)) →
  trace !! k = Some snap →
  ∃ l0 lk,
    start self input_string = Return l0
    ∧ advance self k l0 = Some lk
    ∧ snap = rendering lk
    ∧ (0 ≤ InstantDescription.head_position snap ≤ Z.of_nat k)%Z
    ∧ (InstantDescription.head_position snap < Py.len (tape lk))%Z
    ∧ Nat.max 1 (String.length input_string) ≤ length (tape lk)
      ≤ Nat.max 1 (String.length input_string) + k.
Proof.
  intros (out & Hrun & -> & _)%run_Return Hk.
  apply run_traced_Return in Hrun as (_ & l0 & n & Hstart & Hadv & _).
  destruct (history_renders _ _ _ _ _ Hstart Hadv k snap Hk) as (lk & Hlk & ->).
  destruct (start_tape _ _ _ Hstart) as [Hhd0 Hlen0].
  destruct (advance_range self k l0 lk) as (Hhd & Hmove & Hlen); [|done|].
  { rewrite Hhd0. unfold Py.len. lia. }
  exists l0, lk. simpl. split_and!; [done|done|done|lia|lia|lia|lia|lia].
Qed.

Lemma tape_growth_bounded_witness :
  ∃ l0 lk,
    start (Examples.scanner_engine None) "01" = Return l0
    ∧ advance (Examples.scanner_engine None) 2 l0 = Some lk
    ∧ InstantDescription.mk "qa" "01B" 2 = rendering lk
    ∧ (0 ≤ 2 ≤ Z.of_nat 2)%Z
    ∧ (2 < Py.len (tape lk))%Z
    ∧ Nat.max 1 2 ≤ length (tape lk) ≤ Nat.max 1 2 + 2.
Proof.
  apply (tape_growth_bounded 5 (Examples.scanner_engine None) "01"
           [InstantDescription.mk "q0" "01" 0; InstantDescription.mk "q0" "01" 1;
            InstantDescription.mk "qa" "01B" 2] true 2
           (InstantDescription.mk "qa" "01B" 2)); reflexivity.
Defined.

(** X8. A step writes one cell and touches no other: with [shift] 1 when a
    blank was put in front of the tape (a move left from index 0) and 0
    otherwise, the cell that was under the head holds the write symbol of
    the rule applied, every other cell of the old tape is found unchanged
    [shift] positions further, and any cell of the new tape that is not one
    of these is blank. *)
Theorem step_writes_one_cell (self : Machine.t) (l l' : locals) :
  (0 ≤ head_index l < Py.len (tape l))%Z →
  apply_rule self l = Return (Some l') →
  ∃ symbol rule shift,
    tape l !! Z.to_nat (head_index l) = Some symbol
    ∧ _transition_map self !! (current_state l, symbol) = Some rule
    ∧ current_state l' = Transition.next_state rule
    ∧ (shift = 1 ↔ Transition.move rule = "L" ∧ head_index l = 0%Z)
    ∧ shift ≤ 1
    ∧ tape l' !! (Z.to_nat (head_index l) + shift)
      = Some (Transition.write_symbol rule)
    ∧ (∀ i, i ≠ Z.to_nat (head_index l) → i < length (tape l) →
         tape l' !! (i + shift) = tape l !! i)
    ∧ (∀ j cell, tape l' !! j = Some cell →
         j < shift ∨ length (tape l) + shift ≤ j → cell = _blank_symbol self).
Proof.
  intros Hhd (symbol & rule & tape1 & snap & Hget & Hrule & Hset & _ & ->)%apply_rule_Some.
  destruct (getitem_in_range _ _ Hhd) as (symbol' & Hget' & Hcell).
  assert (symbol' = symbol) as -> by congruence.
  rewrite setitem_in_range in Hset by done. injection Hset as <-.
  set (h := Z.to_nat (head_index l)) in *.
  assert (h < length (tape l)) as Hh by (unfold Py.len in Hhd; lia).
  set (written := <[h := Transition.write_symbol rule]> (tape l)).
  assert (written !! h = Some (Transition.write_symbol rule)) as Hw
    by by apply list_lookup_insert_eq.
  assert (∀ i, i ≠ h → written !! i = tape l !! i) as Hother
    by (intros i Hi; by apply list_lookup_insert_ne).
  assert (length written = length (tape l)) as Hlen by apply length_insert.
  exists symbol, rule. simpl.
  unfold _move_head. fold written.
  destruct (decide (Transition.move rule = "L")) as [HL|HL];
    [destruct (decide (head_index l = 0%Z)) as [H0|H0]|
     destruct (decide (Transition.move rule = "R")) as [HR|HR];
       [destruct (decide ((head_index l + 1)%Z = Py.len written)) as [He|He]|]].
  - exists 1. simpl. split_and!; try done.
    + by rewrite Nat.add_1_r.
    + intros i Hi _. rewrite Nat.add_1_r. simpl. by apply Hother.
    + intros [|j] cell Hj [?|?]; [by injection Hj|lia|lia|].
      simpl in Hj. apply lookup_lt_Some in Hj. lia.
  - exists 0. simpl. rewrite Nat.add_0_r. split_and!; try done.
    + split; [done|]. by intros [_ ?].
    + lia.
    + intros i Hi _. rewrite Nat.add_0_r. by apply Hother.
    + intros j cell Hj [?|?]; [lia|]. apply lookup_lt_Some in Hj. lia.
  - exists 0. simpl. rewrite Nat.add_0_r. split_and!; try done.
    + split; [done|]. intros [? _]. congruence.
    + lia.
    + by apply lookup_app_l_Some.
    + intros i Hi Hlt. rewrite Nat.add_0_r, lookup_app_l by lia. by apply Hother.
    + intros j cell Hj [?|Hge]; [lia|]. rewrite Nat.add_0_r in Hge.
      rewrite lookup_app_r in Hj by lia.
      destruct (j - length written) as [|d]; [by injection Hj|done].
  - exists 0. simpl. rewrite Nat.add_0_r. split_and!; try done.
    + split; [done|]. intros [? _]. congruence.
    + lia.
    + intros i Hi _. rewrite Nat.add_0_r. by apply Hother.
    + intros j cell Hj [?|?]; [lia|]. apply lookup_lt_Some in Hj. lia.
  - exists 0. simpl. rewrite Nat.add_0_r. split_and!; try done.
    + split; [done|]. by intros [? _].
    + lia.
    + intros i Hi _. rewrite Nat.add_0_r. by apply Hother.
    + intros j cell Hj [?|?]; [lia|]. apply lookup_lt_Some in Hj. lia.
Qed.

Lemma step_writes_one_cell_witness :
  ∃ symbol rule shift,
    ["0"; "1"] !! Z.to_nat 0 = Some symbol
    ∧ _transition_map (Examples.scanner_engine None) !! ("q0", symbol) = Some rule
    ∧ "q0" = Transition.next_state rule
    ∧ (shift = 1 ↔ Transition.move rule = "L" ∧ 0%Z = 0%Z)
    ∧ shift ≤ 1
    ∧ ["0"; "1"] !! (Z.to_nat 0 + shift) = Some (Transition.write_symbol rule)
    ∧ (∀ i, i ≠ Z.to_nat 0 → i < 2 → ["0"; "1"] !! (i + shift) = ["0"; "1"] !! i)
    ∧ (∀ j cell, ["0"; "1"] !! j = Some cell → j < shift ∨ 2 + shift ≤ j →
         cell = "B").
Proof.
  pose (snap := InstantDescription.mk "q0" "01" 0).
  apply (step_writes_one_cell (Examples.scanner_engine None)
           (Locals ["0"; "1"] 0 "q0" [snap] 0)
           (Locals ["0"; "1"] 1 "q0" [snap; InstantDescription.mk "q0" "01" 1] 1)).
  - vm_compute. split; [discriminate|reflexivity].
  - reflexivity.
Defined.

(** * Further properties of engine construction *)

Lemma states_dict_empty_name names acc :
  "" ∈ names → states_dict names acc = Raise InvalidState.
Proof.
  intros Hin. destruct (states_dict names acc) as [d|e] eqn:Hd.
  - apply states_dict_Return in Hd as [Hall _]. rewrite Forall_forall in Hall.
    by destruct (Hall _ Hin).
  - by apply states_dict_Raise in Hd as [-> _].
Qed.

Lemma states_fold_keeps names : ∀ (acc : gmap string State.t) name,
  acc !! name = Some (State.mk name) →
  foldl (λ m name, <[name := State.mk name]> m) acc names !! name
  = Some (State.mk name).
Proof.
  induction names as [|name' names IH]; intros acc name Hacc; simpl; [done|].
  apply IH. destruct (decide (name' = name)) as [->|Hne].
  - apply lookup_insert_eq.
  - by rewrite lookup_insert_ne.
Qed.

Lemma states_fold_lookup_Some names : ∀ (acc : gmap string State.t) name,
  name ∈ names →
  foldl (λ m name, <[name := State.mk name]> m) acc names !! name
  = Some (State.mk name).
Proof.
  induction names as [|name' names IH]; intros acc name Hin; simpl.
  - by apply elem_of_nil in Hin.
  - apply elem_of_cons in Hin as [->|Hin]; [|by apply IH].
    apply states_fold_keeps, lookup_insert_eq.
Qed.

Lemma build_loop_Raise_duplicate _states rules : ∀ acc key,
  build_loop _states rules acc = Raise (DuplicateTransition key) →
  ∃ j rule2, rules !! j = Some rule2 ∧ Transition.signature rule2 = key
    ∧ (is_Some (acc !! key)
       ∨ ∃ i rule1, i < j ∧ rules !! i = Some rule1
                    ∧ Transition.signature rule1 = key).
Proof.
  induction rules as [|rule rules IH]; intros acc key; simpl; [done|].
  case_decide as Hdup; [|case_decide as Hsrc; [|case_decide as Hdst]]; try done.
  - intros [= <-]. exists 0, rule. split_and!; [done..|by left].
  - intros (j & rule2 & Hj & Hsig & Hwhy)%IH. exists (S j), rule2.
    split_and!; [done..|]. destruct Hwhy as [Hsome|(i & rule1 & Hi & Hr1 & Hs1)].
    + destruct (decide (Transition.signature rule = key)) as [Heq|Hne].
      * right. exists 0, rule. split_and!; [lia|done..].
      * left. by rewrite lookup_insert_ne in Hsome.
    + right. exists (S i), rule1. split_and!; [lia|done..].
Qed.

Lemma build_loop_Raise_dangling _states rules : ∀ acc which name,
  build_loop _states rules acc = Raise (DanglingState which name) →
  _states !! name = None
  ∧ ∃ rule, rule ∈ rules
      ∧ match which with
        | Source => name = Transition.current_state rule
        | Destination =>
            name = Transition.next_state rule
            ∧ is_Some (_states !! Transition.current_state rule)
        end.
Proof.
  induction rules as [|rule rules IH]; intros acc which name; simpl; [done|].
  case_decide as Hdup; [|case_decide as Hsrc; [|case_decide as Hdst]]; try done.
  - intros [= <- <-]. split; [done|]. exists rule. split; [left|done].
  - intros [= <- <-]. split; [done|]. exists rule. split; [left|].
    split; [done|]. by apply not_eq_None_Some.
  - intros (Hnone & rule' & Hin & Hwhich)%IH. split; [done|].
    exists rule'. split; [by right|done].
Qed.

Lemma build_loop_Raise_kind _states rules : ∀ acc e,
  build_loop _states rules acc = Raise e →
  (∃ key, e = DuplicateTransition key) ∨ ∃ which name, e = DanglingState which name.
Proof.
  intros acc e [(key & -> & _)|(which & name & _ & -> & _)]%build_loop_Raise; eauto.
Qed.

(** X9. Engine construction succeeds exactly when every declared state
    name is non-empty, no two rules share a signature, and the source and
    destination state of every rule are declared. *)
Theorem init_succeeds_iff (config : MachineConfig.t) (max_steps : option Z) :
  (∃ self, __init__ config max_steps = Return self) ↔
  Forall (λ name, name ≠ "") (MachineConfig.states config)
  ∧ NoDup (Transition.signature <$> MachineConfig.transitions config)
  ∧ Forall (λ rule,
              Transition.current_state rule ∈ MachineConfig.states config
              ∧ Transition.next_state rule ∈ MachineConfig.states config)
           (MachineConfig.transitions config).
Proof.
  split.
  - intros (self & (sd & table & Hsd & Htable & _)%init_Return).
    pose proof Hsd as [Hnames _]%states_dict_Return.
    apply build_loop_Return in Htable as (Hnd & Hall & _).
    split_and!; [done..|]. eapply Forall_impl; [done|]. simpl.
    intros rule (_ & Hs & Hd). by rewrite <-!(states_dict_declared config sd _ Hsd).
  - intros (Hnames & Hnd & Hall).
    destruct (states_dict (MachineConfig.states config) ∅) as [sd|e] eqn:Hsd.
    2:{ apply states_dict_Raise in Hsd as [_ Hin].
        rewrite Forall_forall in Hnames. by destruct (Hnames _ Hin). }
    eexists. apply init_Return. exists sd. eexists. split_and!; [done| |done].
    apply build_loop_Return. split_and!; [done| |done].
    eapply Forall_impl; [done|]. simpl. intros rule [Hs Hd].
    by rewrite !(states_dict_declared config sd _ Hsd).
Qed.

(** X10. What a constructed engine holds: one [State] per declared name
    and nothing else, one table entry per rule, the accept states as a set,
    and the definition, blank symbol and ceiling it was given. *)
Theorem init_contents (config : MachineConfig.t) (max_steps : option Z)
    (self : Machine.t) :
  __init__ config max_steps = Return self →
  _config self = config
  ∧ _blank_symbol self = MachineConfig.blank_symbol config
  ∧ _max_steps self = max_steps
  ∧ (∀ name, name ∈ _accept_states self ↔ name ∈ MachineConfig.accept_states config)
  ∧ (∀ name, _states self !! name
             = if decide (name ∈ MachineConfig.states config)
               then Some (State.mk name) else None)
  ∧ size (_transition_map self) = length (MachineConfig.transitions config)
  ∧ dom (_transition_map self)
    = list_to_set (Transition.signature <$> MachineConfig.transitions config).
Proof.
  intros Hinit. pose proof Hinit as (sd & table & Hsd & Htable & ->)%init_Return.
  simpl. split_and!; try done.
  - intros name. apply elem_of_list_to_set.
  - intros name. apply states_dict_Return in Hsd as [_ ->]. case_decide as Hin.
    + by apply states_fold_lookup_Some.
    + by apply states_fold_lookup.
  - apply build_loop_Return in Htable as (Hnd & _ & ->). clear Hinit Hsd.
    assert (∀ (rules : list Transition.t) (acc : gmap (string * string) Transition.t),
      NoDup (Transition.signature <$> rules) →
      Forall (λ rule, acc !! Transition.signature rule = None) rules →
      size (foldl (λ m rule, <[Transition.signature rule := rule]> m) acc rules)
      = size acc + length rules) as Hsize.
    { induction rules as [|rule rules IH]; intros acc Hnd' Hfresh; simpl; [lia|].
      rewrite ?fmap_cons in Hnd'. apply NoDup_cons in Hnd' as [Hnotin Hnd'].
      apply Forall_cons in Hfresh as [Hrule Hfresh]. rewrite IH; [|done|].
      - rewrite map_size_insert_None by done. lia.
      - rewrite Forall_forall in *. intros rule' Hin'. apply lookup_insert_None.
        split; [by apply Hfresh|]. intros Heq. apply Hnotin. rewrite Heq.
        by apply list_elem_of_fmap_2. }
    rewrite Hsize; [by rewrite map_size_empty| done |].
    apply Forall_forall. intros. apply lookup_empty.
  - apply build_loop_Return in Htable as (Hnd & _ & ->).
    destruct (table_fold_lookup (MachineConfig.transitions config) ∅ Hnd) as [Hin Hout].
    apply set_eq. intros key. rewrite elem_of_dom, elem_of_list_to_set. split.
    + intros [rule Hrule].
      destruct (decide (key ∈ Transition.signature <$> MachineConfig.transitions config));
        [done|].
      by rewrite Hout, lookup_empty in Hrule.
    + intros (rule & -> & Hrule)%list_elem_of_fmap. rewrite (Hin _ Hrule). eauto.
Qed.

Lemma init_contents_witness :
  size (_transition_map (Examples.scanner_engine None)) = 2
  ∧ _states (Examples.scanner_engine None) !! "qa" = Some (State.mk "qa")
  ∧ _states (Examples.scanner_engine None) !! "qb" = None.
Proof.
  destruct (init_contents Examples.scanner None (Examples.scanner_engine None))
    as (_ & _ & _ & _ & Hstates & Hsize & _); [reflexivity|].
  split_and!; [exact Hsize|apply (Hstates "qa")|apply (Hstates "qb")].
Defined.

(** X11. The errors of engine construction are accurate.  Construction
    raises nothing but InvalidState, DuplicateTransition and DanglingState.
    InvalidState means a declared name is empty.  The key of a
    DuplicateTransition is the signature of two rules at different
    positions.  The name of a DanglingState is not declared and is the
    source of a rule, or the destination of a rule whose source is
    declared. *)
Theorem construction_errors_accurate (config : MachineConfig.t)
    (max_steps : option Z) (e : exn) :
  __init__ config max_steps = Raise e →
  let rules := MachineConfig.transitions config in
  (e = InvalidState ∧ "" ∈ MachineConfig.states config)
  ∨ (∃ key i j rule1 rule2,
       e = DuplicateTransition key ∧ i < j
       ∧ rules !! i = Some rule1 ∧ rules !! j = Some rule2
       ∧ Transition.signature rule1 = key ∧ Transition.signature rule2 = key)
  ∨ (∃ which name rule,
       e = DanglingState which name
       ∧ (name ∉ MachineConfig.states config)
       ∧ rule ∈ rules
       ∧ match which with
         | Source => name = Transition.current_state rule
         | Destination =>
             name = Transition.next_state rule
             ∧ Transition.current_state rule ∈ MachineConfig.states config
         end).
Proof.
  intros Hinit rules. unfold __init__ in Hinit.
  apply bind_Raise in Hinit as [Hsd|(sd & Hsd & Hinit)].
  { left. by apply states_dict_Raise in Hsd. }
  right. apply bind_Raise in Hinit as [Hbuild|(table & _ & ?)]; [|done].
  unfold _build_transition_map in Hbuild. fold rules in Hbuild.
  pose proof (λ name, states_dict_declared config sd name Hsd) as Hdecl.
  destruct (build_loop_Raise_kind _ _ _ _ Hbuild) as [[key ->]|(which & name & ->)].
  - left. apply build_loop_Raise_duplicate in Hbuild
      as (j & rule2 & Hj & Hs2 & [Hsome|(i & rule1 & Hij & Hi & Hs1)]).
    { rewrite lookup_empty in Hsome. by destruct Hsome. }
    by exists key, i, j, rule1, rule2.
  - right. apply build_loop_Raise_dangling in Hbuild as (Hnone & rule & Hin & Hwhich).
    exists which, name, rule. split_and!; [done| |done|].
    + rewrite <-Hdecl, Hnone. by intros [].
    + destruct which; [done|]. destruct Hwhich as [-> Hsrc]. split; [done|].
      by apply Hdecl.
Qed.

Lemma construction_errors_accurate_witness :
  (DanglingState Destination "qx" = InvalidState
   ∧ "" ∈ MachineConfig.states Examples.twice_and_stray)
  ∨ (∃ key i j rule1 rule2,
       DanglingState Destination "qx" = DuplicateTransition key ∧ i < j
       ∧ MachineConfig.transitions Examples.twice_and_stray !! i = Some rule1
       ∧ MachineConfig.transitions Examples.twice_and_stray !! j = Some rule2
       ∧ Transition.signature rule1 = key ∧ Transition.signature rule2 = key)
  ∨ (∃ which name rule,
       DanglingState Destination "qx" = DanglingState which name
       ∧ (name ∉ MachineConfig.states Examples.twice_and_stray)
       ∧ rule ∈ MachineConfig.transitions Examples.twice_and_stray
       ∧ match which with
         | Source => name = Transition.current_state rule
         | Destination =>
             name = Transition.next_state rule
             ∧ Transition.current_state rule
               ∈ MachineConfig.states Examples.twice_and_stray
         end).
Proof.
  apply (construction_errors_accurate Examples.twice_and_stray None). reflexivity.
Defined.

(** X12. A declared state with an empty name makes engine construction
    raise InvalidState whatever the rules are: the states are built before
    the table. *)
Theorem empty_state_name_first (config : MachineConfig.t) (max_steps : option Z) :
  "" ∈ MachineConfig.states config →
  __init__ config max_steps = Raise InvalidState.
Proof.
  intros Hin. unfold __init__. by rewrite states_dict_empty_name.
Qed.

Lemma empty_state_name_first_witness :
  __init__ Examples.nameless (Some 5%Z) = Raise InvalidState.
Proof.
  apply (empty_state_name_first Examples.nameless (Some 5%Z)). by_evaluation.
Defined.

Lemma init_succeeds_iff_witness :
  ∃ self, __init__ Examples.scanner None = Return self.
Proof.
  apply (init_succeeds_iff Examples.scanner None). by_evaluation.
Defined.

(** * Properties of the presentation of a tape *)

Lemma append_cons (a : Ascii.ascii) (s1 s2 : string) :
  String a s1 +:+ s2 = String a (s1 +:+ s2).
Proof. done. Qed.

Lemma append_assoc (s1 s2 s3 : string) : (s1 +:+ s2) +:+ s3 = s1 +:+ s2 +:+ s3.
Proof.
  induction s1 as [|a s1 IH]; [done|]. by rewrite !append_cons, IH.
Qed.

Lemma substring_all (s : string) : String.substring 0 (String.length s) s = s.
Proof. induction s as [|a s IH]; [done|]. simpl. by rewrite IH. Qed.

Lemma substring_0_0 (s : string) : String.substring 0 0 s = "".
Proof. by destruct s. Qed.

(** A string falls apart at a position into what is before it, the
    character at it and what is after it. *)
Lemma substring_split (s : string) : ∀ h,
  h < String.length s →
  s = String.substring 0 h s +:+ String.substring h 1 s
      +:+ String.substring (h + 1) (String.length s - (h + 1)) s
  ∧ String.length (String.substring 0 h s) = h
  ∧ String.length (String.substring h 1 s) = 1.
Proof.
  induction s as [|a s IH]; intros h Hh; [simpl in Hh; lia|].
  destruct h as [|h].
  - simpl. rewrite substring_0_0, Nat.sub_0_r, substring_all. done.
  - simpl in Hh. destruct (IH h) as (Hs & Hb & Hc); [lia|]. simpl.
    rewrite append_cons, <-Hs, Hb. done.
Qed.

Lemma append_inv_length (s1 s1' s2 s2' : string) :
  String.length s1 = String.length s1' →
  s1 +:+ s2 = s1' +:+ s2' → s1 = s1' ∧ s2 = s2'.
Proof.
  revert s1'. induction s1 as [|a s1 IH]; intros [|a' s1'] Hlen Heq; try done.
  rewrite !append_cons in Heq. injection Heq as -> Heq. simpl in Hlen.
  destruct (IH s1') as [-> ->]; [lia|done|done].
Qed.

Lemma join_app (cells1 cells2 : list string) :
  Py.join "" (cells1 ++ cells2) = Py.join "" cells1 +:+ Py.join "" cells2.
Proof.
  induction cells1 as [|cell cells1 IH]; [done|].
  by rewrite <-app_comm_cons, !join_cons, IH, append_assoc.
Qed.

(** Cells of one character render to one character each. *)
Lemma join_length_single (cells : list string) :
  Forall (λ cell, String.length cell = 1) cells →
  String.length (Py.join "" cells) = length cells.
Proof.
  induction 1 as [|cell cells Hcell _ IH]; [done|].
  rewrite join_cons, append_length, IH, Hcell. done.
Qed.

(** X14. [_format_tape_with_head] returns the tape text as it is when the
    text is empty or the head index is not a position of it; otherwise it
    puts a pair of brackets around the character at the head index and
    leaves the rest of the text as it is, so that the result is two
    characters longer. *)
Theorem format_tape_spec (tape : string) (head_position : Z) :
  (tape = "" ∨ (head_position < 0)%Z
   ∨ (Z.of_nat (String.length tape) ≤ head_position)%Z →
   TuringMachine._format_tape_with_head tape head_position = tape)
  ∧ ((0 ≤ head_position < Z.of_nat (String.length tape))%Z →
     ∃ before symbol after,
       tape = before +:+ symbol +:+ after
       ∧ Z.of_nat (String.length before) = head_position
       ∧ String.length symbol = 1
       ∧ TuringMachine._format_tape_with_head tape head_position
         = before +:+ "[" +:+ symbol +:+ "]" +:+ after
       ∧ String.length (TuringMachine._format_tape_with_head tape head_position)
         = String.length tape + 2).
Proof.
  unfold TuringMachine._format_tape_with_head. split.
  - intros Hout. by rewrite decide_True.
  - intros Hin. rewrite decide_False.
    2:{ intros [->|[?|?]]; simpl in *; lia. }
    destruct (substring_split tape (Z.to_nat head_position)) as (Hs & Hb & Hc); [lia|].
    eexists _, _, _. split_and!; [exact Hs|lia|done|done|].
    pose proof (f_equal String.length Hs) as Hl. rewrite !append_length in Hl.
    rewrite !append_length. simpl. lia.
Qed.

Lemma format_tape_spec_witness :
  TuringMachine._format_tape_with_head "01B" 5 = "01B"
  ∧ ∃ before symbol after,
      "01B" = before +:+ symbol +:+ after
      ∧ Z.of_nat (String.length before) = 1%Z
      ∧ String.length symbol = 1
      ∧ TuringMachine._format_tape_with_head "01B" 1
        = before +:+ "[" +:+ symbol +:+ "]" +:+ after
      ∧ String.length (TuringMachine._format_tape_with_head "01B" 1)
        = String.length "01B" + 2.
Proof.
  split.
  - apply (format_tape_spec "01B" 5). right. right. simpl. lia.
  - apply (format_tape_spec "01B" 1). simpl. lia.
Defined.

(** On a tape of one-character cells the brackets enclose the cell at the
    head index. *)
Lemma format_join_single (cells : list string) (h : nat) (cell : string) :
  Forall (λ cell, String.length cell = 1) cells →
  cells !! h = Some cell →
  TuringMachine._format_tape_with_head (Py.join "" cells) (Z.of_nat h)
  = Py.join "" (take h cells) +:+ "[" +:+ cell +:+ "]"
    +:+ Py.join "" (drop (S h) cells).
Proof.
  intros Hsingle Hcell. pose proof (lookup_lt_Some _ _ _ Hcell) as Hh.
  pose proof (join_length_single _ Hsingle) as Hlen.
  unfold TuringMachine._format_tape_with_head. rewrite decide_False.
  2:{ intros [Hnil|[?|?]]; [|lia|lia]. rewrite Hnil in Hlen. simpl in Hlen. lia. }
  rewrite Nat2Z.id.
  destruct (substring_split (Py.join "" cells) h) as (Hs & Hb & Hc); [lia|].
  rewrite <-(take_drop_middle cells h cell Hcell) in Hs at 1.
  rewrite join_app, join_cons in Hs.
  apply append_inv_length in Hs as [Hbefore Hrest].
  2:{ rewrite Hb, join_length_single by by apply Forall_take.
      rewrite length_take. lia. }
  apply append_inv_length in Hrest as [Hsymbol Hafter].
  2:{ rewrite Hc. rewrite Forall_forall in Hsingle. apply Hsingle.
      by eapply list_elem_of_lookup_2. }
  by rewrite <-Hbefore, <-Hsymbol, <-Hafter.
Qed.

Lemma advance_single self n : ∀ l l',
  String.length (_blank_symbol self) = 1 →
  (∀ key rule, _transition_map self !! key = Some rule →
     String.length (Transition.write_symbol rule) = 1) →
  (0 ≤ head_index l < Py.len (tape l))%Z →
  Forall (λ cell, String.length cell = 1) (tape l) →
  advance self n l = Some l' →
  Forall (λ cell, String.length cell = 1) (tape l').
Proof.
  induction n as [|n IH]; intros l l' Hblank Hrules Hhd Hcells; [by intros [= <-]|].
  rewrite advance_S. case_decide; [done|].
  destruct (apply_rule self l) as [[l1|]|] eqn:Happ; try done.
  apply IH; [done|done|by eapply apply_rule_range|].
  apply apply_rule_Some in Happ
    as (symbol & rule & tape1 & snap & _ & Hrule & Hset & _ & ->). simpl.
  apply move_head_inv; [|done|].
  - unfold Py.len in *. by rewrite (setitem_length _ _ _ _ Hset).
  - eapply setitem_Forall; [done| |done]. by eapply Hrules.
Qed.

(** X15. When the blank symbol and the write symbol of every rule are one
    character long, the presentation marks the cell under the head: for
    the [k]-th snapshot of a returned trace, [_format_tape_with_head] gives
    the cells before the head, the cell under the head of the
    configuration after [k] steps in brackets, and the cells after it. *)
Theorem display_marks_head_cell (config : MachineConfig.t) (max_steps : option Z)
    (self : Machine.t) (input_string : string) (fuel : nat)
    (trace : list InstantDescription.t) (verdict : bool)
    (k : nat) (snap : InstantDescription.t) :
  String.length (MachineConfig.blank_symbol config) = 1 →
  Forall (λ rule, String.length (Transition.write_symbol rule) = 1)
    (MachineConfig.transitions config) →
  __init__ config max_steps = Return self →
  run fuel self input_string = Some (Return (trace, verdict)) →
  trace !! k = Some snap →
  ∃ l0 lk cell,
    start self input_string = Return l0
    ∧ advance self k l0 = Some lk
    ∧ snap = rendering lk
    ∧ tape lk !! Z.to_nat (head_index lk) = Some cell
    ∧ TuringMachine._format_tape_with_head
        (InstantDescription.tape snap) (InstantDescription.head_position snap)
      = Py.join "" (take (Z.to_nat (head_index lk)) (tape lk))
        +:+ "[" +:+ cell +:+ "]"
        +:+ Py.join "" (drop (S (Z.to_nat (head_index lk))) (tape lk)).
Proof.
  intros Hblank Hwrite Hinit (out & Hrun & -> & _)%run_Return Hk.
  destruct (init_fields _ _ _ Hinit) as (_ & Hb & _ & _ & _ & Hfrom).
  apply run_traced_Return in Hrun as (_ & l0 & n & Hstart & Hadv & _).
  destruct (history_renders _ _ _ _ _ Hstart Hadv k snap Hk) as (lk & Hlk & ->).
  destruct (start_tape _ _ _ Hstart) as [Hhd0 Hlen0].
  assert (0 ≤ head_index l0 < Py.len (tape l0))%Z as Hrange0
    by (rewrite Hhd0; unfold Py.len; lia).
  destruct (advance_range self k l0 lk Hrange0 Hlk) as (Hhd & _).
  assert (Forall (λ cell, String.length cell = 1) (tape lk)) as Hsingle.
  { eapply (advance_single self k l0 lk); try done.
    - by rewrite Hb.
    - intros key rule [Hin _]%Hfrom. rewrite Forall_forall in Hwrite. by apply Hwrite.
    - apply start_Return in Hstart as (_ & snap0 & _ & ->). simpl.
      unfold _initialize_tape. case_decide.
      + constructor; [by rewrite Hb|constructor].
      + clear. induction input_string; simpl; constructor; done. }
  destruct (lookup_lt_is_Some_2 (tape lk) (Z.to_nat (head_index lk))) as [cell Hcell].
  { unfold Py.len in Hhd. lia. }
  exists l0, lk, cell. split_and!; try done. simpl.
  rewrite <-(format_join_single _ _ _ Hsingle Hcell). f_equal. lia.
Qed.

Lemma display_marks_head_cell_witness :
  TuringMachine._format_tape_with_head "01B" 2 = "01[B]".
Proof.
  destruct (display_marks_head_cell Examples.scanner None
              (Examples.scanner_engine None) "01" 5
              [InstantDescription.mk "q0" "01" 0; InstantDescription.mk "q0" "01" 1;
               InstantDescription.mk "qa" "01B" 2] true 2
              (InstantDescription.mk "qa" "01B" 2))
    as (l0 & lk & cell & Hstart & Hlk & Hsnap & Hcell & Hformat);
    [reflexivity|by_evaluation|reflexivity|reflexivity|reflexivity|].
  injection Hstart as <-. vm_compute in Hlk. injection Hlk as <-.
  vm_compute in Hcell. injection Hcell as <-. exact Hformat.
Defined.

(** * Properties of the engine the command line builds *)

Lemma run_traced_terminates self N input_string :
  engine_ok self →
  over_alphabet (_config self) input_string →
  _max_steps self = Some N →
  ∃ out, ∀ fuel, Z.to_nat (Z.max 1 N) ≤ fuel →
    run_traced fuel self input_string = Some (Return out).
Proof.
  intros Hok Hinput HN.
  destruct (start self input_string) as [l0|e] eqn:Hstart.
  2:{ unfold start in Hstart. apply bind_Raise in Hstart as [Hval|([] & _ & Hsnap)].
      - apply validate_Return in Hinput. congruence.
      - apply bind_Raise in Hsnap as [Hsnap|(? & _ & ?)]; [|done].
        destruct Hok as [Hi _].
        assert (∃ snap, _snapshot self (MachineConfig.initial_state (_config self))
                          (_initialize_tape self input_string) 0 = Return snap)
          as [snap Hsnap']; [|congruence].
        eexists. apply snapshot_Return. by split_and!. }
  pose proof (start_inv _ _ _ Hstart) as Hinv.
  unfold run_traced. rewrite Hstart.
  destruct (decide (current_state l0 ∈ _accept_states self)); [eauto|].
  destruct (loop_terminates self N (Z.to_nat (Z.max 1 N)) l0) as [out Hout];
    [done|done|done|lia| |].
  { apply start_Return in Hstart as (_ & snap & _ & ->). simpl. lia. }
  exists out. intros fuel Hfuel. by eapply loop_mono.
Qed.

(** X16. The engine the command line builds has a ceiling of 10000 steps:
    from a valid definition, on every input over the input alphabet, its
    [run] returns within 10000 passes of the loop, with a trace of at most
    10001 snapshots, and raises nothing. *)
Theorem cli_engine_terminates (config : MachineConfig.t) (self : Machine.t)
    (input_string : string) :
  MachineConfig.valid config →
  TuringMachine.machine_of config = Return self →
  over_alphabet config input_string →
  ∃ trace verdict,
    (Z.of_nat (length trace) ≤ 10001)%Z
    ∧ ∀ fuel, (10000 ≤ Z.of_nat fuel)%Z →
        run fuel self input_string = Some (Return (trace, verdict)).
Proof.
  intros Hvalid Hinit Hinput. unfold TuringMachine.machine_of in Hinit.
  pose proof (init_engine_ok _ _ _ Hvalid Hinit) as Hok.
  destruct (init_fields _ _ _ Hinit) as (Hc & _ & HN & _).
  destruct (run_traced_terminates self 10000 input_string) as [out Hout];
    [done|by rewrite Hc|done|].
  exists (history (final out)), (accepted out). split.
  - set (fuel0 := Z.to_nat (Z.max 1 10000)) in *.
    pose proof (Hout fuel0 (Nat.le_refl _)) as Hrun. clearbody fuel0.
    pose proof (run_traced_Return _ _ _ _ Hrun) as (_ & l0 & n & Hstart & _ & Hsteps & ->).
    unfold run_traced in Hrun. rewrite Hstart in Hrun.
    apply start_Return in Hstart as (_ & snap & _ & ->). simpl in Hrun.
    case_decide.
    + injection Hrun as <-. simpl in Hsteps. lia.
    + apply (loop_steps_bound self 10000) in Hrun; [|done]. simpl in Hrun. lia.
  - intros fuel Hge. apply run_of_traced, Hout. lia.
Qed.

Lemma cli_engine_terminates_witness :
  ∃ trace verdict,
    (Z.of_nat (length trace) ≤ 10001)%Z
    ∧ ∀ fuel, (10000 ≤ Z.of_nat fuel)%Z →
        run fuel (Examples.scanner_engine (Some 10000%Z)) "0101"
        = Some (Return (trace, verdict)).
Proof.
  apply (cli_engine_terminates Examples.scanner).
  - by_evaluation.
  - reflexivity.
  - by_evaluation.
Defined.

(** * Properties of the parser of rules *)

Lemma and_then_Ok {A B} (r : Parser.res A) (k : A → Parser.res B) b :
  Parser.and_then r k = Parser.Ok b ↔ ∃ a, r = Parser.Ok a ∧ k a = Parser.Ok b.
Proof.
  destruct r as [a|e]; simpl; split.
  - eauto.
  - by intros (a' & [= <-] & ?).
  - done.
  - by intros (? & ? & ?).
Qed.

Lemma all_str_Some items symbols :
  Parser.all_str items = Some symbols ↔ items = Parser.Str <$> symbols.
Proof.
  revert symbols. induction items as [|item items IH]; intros symbols; simpl.
  - split; [by intros [= <-]|]. by destruct symbols.
  - destruct item as [s| | |].
    2-4: split; [done|]; by destruct symbols.
    destruct (Parser.all_str items) as [symbols'|] eqn:Hall; simpl.
    + split.
      * intros [= <-]. simpl. f_equal. by apply IH.
      * destruct symbols as [|s' symbols]; [done|]. intros [= -> Hitems].
        apply IH in Hitems. congruence.
    + split; [done|]. destruct symbols as [|s' symbols]; [done|].
      intros [= -> Hitems]. by apply IH in Hitems.
Qed.

(** X17. [_normalize_symbol_field] accepts a [str], which it wraps in a
    list, and a list whose elements are all [str], which it returns as it
    is; it accepts nothing else. *)
Theorem normalize_symbol_field_iff (v : Parser.value) (field_name : string)
    (symbols : list string) :
  Parser._normalize_symbol_field v field_name = Parser.Ok symbols ↔
  (∃ s, v = Parser.Str s ∧ symbols = [s])
  ∨ v = Parser.List (Parser.Str <$> symbols).
Proof.
  unfold Parser._normalize_symbol_field. destruct v as [s|items|entries|h].
  - split; [intros [= <-]; left; eauto|]. by intros [(s' & [= <-] & ->)|?].
  - destruct (Parser.all_str items) as [symbols'|] eqn:Hall.
    + split.
      * intros [= <-]. right. f_equal. by apply all_str_Some.
      * intros [(? & ? & _)|[= Hitems]]; [done|].
        apply all_str_Some in Hitems. congruence.
    + split; [done|]. intros [(? & ? & _)|[= Hitems]]; [done|].
      apply all_str_Some in Hitems. congruence.
  - split; [done|]. by intros [(? & ? & _)|?].
  - split; [done|]. by intros [(? & ? & _)|?].
Qed.

Lemma normalize_symbol_field_iff_witness :
  (∃ s, Parser.List [Parser.Str "0"; Parser.Str "B"] = Parser.Str s
        ∧ ["0"; "B"] = [s])
  ∨ Parser.List [Parser.Str "0"; Parser.Str "B"]
    = Parser.List (Parser.Str <$> ["0"; "B"]).
Proof.
  apply (normalize_symbol_field_iff
           (Parser.List [Parser.Str "0"; Parser.Str "B"]) "read" ["0"; "B"]).
  reflexivity.
Defined.

Lemma valid_move_is_str (v : Parser.value) :
  Parser.as_str v ∈ Transition._VALID_MOVES → Parser.hashable v = true.
Proof.
  destruct v as [s|items|entries|h]; simpl; try done.
  all: intros Hin; exfalso; revert Hin; by_evaluation.
Qed.

Lemma new_rule_Ok current_state read_symbol write_symbol move next_state rule :
  Parser.new_rule current_state read_symbol write_symbol move next_state
  = Parser.Ok rule ↔
  rule = Transition.mk (Parser.as_str current_state) read_symbol write_symbol
           (Parser.as_str move) (Parser.as_str next_state)
  ∧ Transition.__post_init__ rule = Return tt.
Proof.
  unfold Parser.new_rule. split.
  - destruct (Parser.hashable move); [|done].
    destruct (Transition.__post_init__ _) as [[]|e] eqn:Hpost; [|done].
    by intros [= <-].
  - intros [-> Hpost]. rewrite valid_move_is_str.
    + by rewrite Hpost.
    + unfold Transition.__post_init__ in Hpost. simpl in Hpost.
      by case_decide as Hmove.
Qed.

Lemma expand_Ok current_state move next_state : ∀ read_symbols write_symbols rules,
  Parser.expand current_state move next_state read_symbols write_symbols
  = Parser.Ok rules ↔
  rules = Parser.rules_of current_state move next_state read_symbols write_symbols
  ∧ Forall (λ rule, Transition.__post_init__ rule = Return tt) rules.
Proof.
  unfold Parser.rules_of.
  induction read_symbols as [|r reads IH]; intros [|w writes] rules; simpl.
  1-3: split; [intros [= <-]; by split|by intros [-> _]].
  rewrite and_then_Ok. split.
  - intros (rule & [-> Hrule]%new_rule_Ok & (rest & [-> Hrest]%IH & [= <-])%and_then_Ok).
    split; [done|]. by constructor.
  - intros [-> [Hrule Hrest]%Forall_cons]. eexists. split.
    + by apply new_rule_Ok.
    + apply and_then_Ok. eexists. split; [by apply IH|done].
Qed.

Lemma stands_for_Dict trans_dict block :
  Parser.stands_for (Parser.Dict trans_dict) block ↔
  ∃ current_state next_state move read write read_symbols write_symbols,
    Parser.get "state" trans_dict = Some current_state
    ∧ Parser.get "next" trans_dict = Some next_state
    ∧ Parser.get "move" trans_dict = Some move
    ∧ Parser.get "read" trans_dict = Some read
    ∧ Parser.get "write" trans_dict = Some write
    ∧ Parser._normalize_symbol_field read "read" = Parser.Ok read_symbols
    ∧ Parser._normalize_symbol_field write "write" = Parser.Ok write_symbols
    ∧ length read_symbols = length write_symbols
    ∧ Parser.expand current_state move next_state read_symbols write_symbols
      = Parser.Ok block.
Proof.
  unfold Parser.stands_for. split.
  - intros (d & cs & ns & mv & rd & wr & reads & writes & [= <-] & ? & ? & ? & ? & ?
            & ? & ? & ? & Hblock & Hvalid).
    exists cs, ns, mv, rd, wr, reads, writes. split_and!; try done.
    by apply expand_Ok.
  - intros (cs & ns & mv & rd & wr & reads & writes & ? & ? & ? & ? & ? & ? & ? & ?
            & [Hblock Hvalid]%expand_Ok).
    exists trans_dict, cs, ns, mv, rd, wr, reads, writes. by split_and!.
Qed.

Lemma parse_entries_Ok entries : ∀ idx acc rules,
  Parser.parse_entries idx entries acc = Parser.Ok rules ↔
  ∃ blocks, rules = acc ++ concat blocks ∧ Forall2 Parser.stands_for entries blocks.
Proof.
  induction entries as [|entry entries IH]; intros idx acc rules.
  - simpl. split.
    + intros [= <-]. exists []. split; [by rewrite app_nil_r|constructor].
    + intros (blocks & -> & ->%Forall2_nil_inv_l). simpl. by rewrite app_nil_r.
  - assert (∀ P : Prop,
      ((∃ blocks, rules = acc ++ concat blocks
                  ∧ Forall2 Parser.stands_for (entry :: entries) blocks) ↔
       ∃ block, Parser.stands_for entry block
                ∧ ∃ blocks, rules = (acc ++ block) ++ concat blocks
                            ∧ Forall2 Parser.stands_for entries blocks)) as Hcons.
    { intros _. split.
      - intros (blocks & -> & (block & blocks' & Hb & Hbs & ->)%Forall2_cons_inv_l).
        exists block. split; [done|]. exists blocks'. split; [|done].
        simpl. by rewrite app_assoc.
      - intros (block & Hb & blocks & -> & Hbs). exists (block :: blocks).
        split; [simpl; by rewrite app_assoc|by constructor]. }
    rewrite (Hcons True). clear Hcons.
    destruct entry as [s|items|trans_dict|h].
    1,2,4: simpl; split; [done|];
      intros (block & (d & ? & ? & ? & ? & ? & ? & ? & ? & _) & _); done.
    setoid_rewrite stands_for_Dict. simpl.
    destruct (Parser.get "state" trans_dict) as [cs|] eqn:Hcs.
    2:{ split; [done|]. by intros (? & (? & ? & ? & ? & ? & ? & ? & ? & _) & _). }
    destruct (Parser.get "next" trans_dict) as [ns|] eqn:Hns.
    2:{ split; [done|]. by intros (? & (? & ? & ? & ? & ? & ? & ? & _ & ? & _) & _). }
    destruct (Parser.get "move" trans_dict) as [mv|] eqn:Hmv.
    2:{ split; [done|].
        by intros (? & (? & ? & ? & ? & ? & ? & ? & _ & _ & ? & _) & _). }
    destruct (Parser.get "read" trans_dict) as [rd|] eqn:Hrd.
    2:{ split; [done|].
        by intros (? & (? & ? & ? & ? & ? & ? & ? & _ & _ & _ & ? & _) & _). }
    destruct (Parser.get "write" trans_dict) as [wr|] eqn:Hwr.
    2:{ split; [done|].
        by intros (? & (? & ? & ? & ? & ? & ? & ? & _ & _ & _ & _ & ? & _) & _). }
    rewrite and_then_Ok. split.
    + intros (reads & Hreads & (writes & Hwrites & H)%and_then_Ok).
      case_decide as Hlen; [done|].
      apply and_then_Ok in H as (block & Hblock & Hrest%IH).
      exists block. split; [|done].
      exists cs, ns, mv, rd, wr, reads, writes. by split_and!.
    + intros (block & (cs' & ns' & mv' & rd' & wr' & reads & writes
                        & [= <-] & [= <-] & [= <-] & [= <-] & [= <-]
                        & Hreads & Hwrites & Hlen & Hblock) & Hrest).
      exists reads. split; [done|]. apply and_then_Ok. exists writes. split; [done|].
      rewrite decide_False by (by intros ?). apply and_then_Ok.
      exists block. split; [done|]. by apply IH.
Qed.

(** X18. [_parse_transitions] succeeds exactly on a list of entries each of
    which is a dict with the keys state, read, write, move and next whose
    read and write fields are symbols in equal number and whose rules pass
    the validation of [Transition]; it then returns, entry after entry, the
    read and write symbols paired in order, each pair with the state, move
    and destination of its entry. *)
Theorem parse_transitions_iff (transitions_data : Parser.value)
    (rules : list Transition.t) :
  Parser._parse_transitions transitions_data = Parser.Ok rules ↔
  ∃ entries blocks,
    transitions_data = Parser.List entries
    ∧ Forall2 Parser.stands_for entries blocks
    ∧ rules = concat blocks.
Proof.
  unfold Parser._parse_transitions. destruct transitions_data as [s|entries|d|h].
  1,3,4: split; [done|]; by intros (? & ? & ? & _).
  rewrite parse_entries_Ok. split.
  - intros (blocks & -> & Hblocks). by exists entries, blocks.
  - intros (entries' & blocks & [= <-] & Hblocks & ->). by exists blocks.
Qed.

Lemma parse_transitions_iff_witness :
  ∃ entries blocks,
    Documents.scanner_rules = Parser.List entries
    ∧ Forall2 Parser.stands_for entries blocks
    ∧ [Transition.mk "q0" "0" "0" "R" "q0"; Transition.mk "q0" "B" "B" "R" "q0";
       Transition.mk "q0" "1" "1" "R" "qa"] = concat blocks.
Proof.
  apply (parse_transitions_iff Documents.scanner_rules
           [Transition.mk "q0" "0" "0" "R" "q0"; Transition.mk "q0" "B" "B" "R" "q0";
            Transition.mk "q0" "1" "1" "R" "qa"]).
  reflexivity.
Defined.

Lemma rule_validated rule :
  Transition.__post_init__ rule = Return tt →
  Transition.move rule ∈ ["L"; "R"; "S"]
  ∧ Transition.current_state rule ≠ ""
  ∧ Transition.read_symbol rule ≠ ""
  ∧ Transition.write_symbol rule ≠ ""
  ∧ Transition.next_state rule ≠ "".
Proof.
  unfold Transition.__post_init__.
  destruct (decide (Transition.move rule ∉ Transition._VALID_MOVES)) as [|Hmove];
    [done|].
  repeat case_decide; try done. intros _. split_and!; try done.
  apply dec_stable in Hmove. unfold Transition._VALID_MOVES in Hmove.
  set_unfold. tauto.
Qed.

(** X19. Every rule [_parse_transitions] returns has passed the validation
    of [Transition]: a non-empty source state, read symbol, write symbol and
    destination state, and a move that is L, R or S. *)
Theorem parsed_rules_validated (transitions_data : Parser.value)
    (rules : list Transition.t) :
  Parser._parse_transitions transitions_data = Parser.Ok rules →
  Forall (λ rule,
            Transition.__post_init__ rule = Return tt
            ∧ Transition.move rule ∈ ["L"; "R"; "S"]
            ∧ Transition.current_state rule ≠ ""
            ∧ Transition.read_symbol rule ≠ ""
            ∧ Transition.write_symbol rule ≠ ""
            ∧ Transition.next_state rule ≠ "") rules.
Proof.
  unfold Parser._parse_transitions. destruct transitions_data as [s|entries|d|h];
    try done.
  intros (blocks & -> & Hblocks)%parse_entries_Ok. simpl.
  apply Forall_concat. eapply Forall2_Forall_r; [done|].
  apply Forall_forall. intros entry _ block
    (? & ? & ? & ? & ? & ? & ? & ? & _ & _ & _ & _ & _ & _ & _ & _ & _ & _ & Hvalid).
  eapply Forall_impl; [done|]. simpl. intros rule Hrule. split; [done|].
  by apply rule_validated.
Qed.

Lemma parsed_rules_validated_witness :
  Forall (λ rule,
            Transition.__post_init__ rule = Return tt
            ∧ Transition.move rule ∈ ["L"; "R"; "S"]
            ∧ Transition.current_state rule ≠ ""
            ∧ Transition.read_symbol rule ≠ ""
            ∧ Transition.write_symbol rule ≠ ""
            ∧ Transition.next_state rule ≠ "")
    [Transition.mk "q0" "0" "0" "R" "q0"; Transition.mk "q0" "B" "B" "R" "q0";
     Transition.mk "q0" "1" "1" "R" "qa"].
Proof.
  apply (parsed_rules_validated Documents.scanner_rules). reflexivity.
Defined.

Lemma get_None key entries :
  Parser.get key entries = None ↔ key ∉ Parser.keys entries.
Proof.
  unfold Parser.keys. rewrite elem_of_list_to_set.
  induction entries as [|[k v] entries IH]; simpl.
  - split; [intros _; apply not_elem_of_nil|done].
  - rewrite not_elem_of_cons. case_decide as Hk.
    + split; [done|]. by intros [? _].
    + rewrite IH. split; [|by intros [_ ?]]. intros ?. split; [|done]. congruence.
Qed.

Lemma expand_Err current_state move next_state : ∀ read_symbols write_symbols e,
  Parser.expand current_state move next_state read_symbols write_symbols
  = Parser.Err e →
  (∃ e', e = Parser.RuleError e') ∨ e = Parser.TypeError.
Proof.
  induction read_symbols as [|r reads IH]; intros [|w writes] e; simpl; try done.
  unfold Parser.new_rule at 1. destruct (Parser.hashable move); simpl.
  - destruct (Transition.__post_init__ _) as [[]|e']; simpl.
    + destruct (Parser.expand _ _ _ reads writes) as [rest|e''] eqn:Hrest; simpl;
        [done|]. intros [= <-]. by eapply IH.
    + intros [= <-]. eauto.
  - intros [= <-]. by right.
Qed.

(** What the loop raises with an index, and at which entry. *)
Lemma parse_entries_Err entries : ∀ idx acc e,
  Parser.parse_entries idx entries acc = Parser.Err e →
  match e with
  | Parser.NotAList => False
  | Parser.NotADict i =>
      idx ≤ i ∧ ∃ v, entries !! (i - idx) = Some v ∧ ∀ d, v ≠ Parser.Dict d
  | Parser.MissingKeys i missing =>
      idx ≤ i ∧ ∃ d, entries !! (i - idx) = Some (Parser.Dict d)
        ∧ missing = Parser.required ∖ Parser.keys d ∧ missing ≠ ∅
  | Parser.LengthMismatch i n m =>
      idx ≤ i ∧ n ≠ m
      ∧ ∃ d read write read_symbols write_symbols,
          entries !! (i - idx) = Some (Parser.Dict d)
          ∧ Parser.get "read" d = Some read
          ∧ Parser.get "write" d = Some write
          ∧ Parser._normalize_symbol_field read "read" = Parser.Ok read_symbols
          ∧ Parser._normalize_symbol_field write "write" = Parser.Ok write_symbols
          ∧ n = length read_symbols ∧ m = length write_symbols
  | _ => True
  end.
Proof.
  induction entries as [|entry entries IH]; intros idx acc e; [done|].
  assert (∀ acc', Parser.parse_entries (S idx) entries acc' = Parser.Err e →
    match e with
    | Parser.NotAList => False
    | Parser.NotADict i =>
        idx ≤ i ∧ ∃ v, (entry :: entries) !! (i - idx) = Some v ∧ ∀ d, v ≠ Parser.Dict d
    | Parser.MissingKeys i missing =>
        idx ≤ i ∧ ∃ d, (entry :: entries) !! (i - idx) = Some (Parser.Dict d)
          ∧ missing = Parser.required ∖ Parser.keys d ∧ missing ≠ ∅
    | Parser.LengthMismatch i n m =>
        idx ≤ i ∧ n ≠ m
        ∧ ∃ d read write read_symbols write_symbols,
            (entry :: entries) !! (i - idx) = Some (Parser.Dict d)
            ∧ Parser.get "read" d = Some read
            ∧ Parser.get "write" d = Some write
            ∧ Parser._normalize_symbol_field read "read" = Parser.Ok read_symbols
            ∧ Parser._normalize_symbol_field write "write" = Parser.Ok write_symbols
            ∧ n = length read_symbols ∧ m = length write_symbols
    | _ => True
    end) as Hrest.
  { intros acc' Herr%IH. destruct e as [|i|i missing| | |i n m| |]; try done.
    - destruct Herr as (Hle & v & Hv & Hnot). split; [lia|]. exists v.
      split; [|done]. by replace (i - idx) with (S (i - S idx)) by lia.
    - destruct Herr as (Hle & d & Hd & Hm). split; [lia|]. exists d.
      split; [|done]. by replace (i - idx) with (S (i - S idx)) by lia.
    - destruct Herr as (Hle & Hne & d & rd & wr & reads & writes & Hd & Hrest).
      split_and!; [lia|done|]. exists d, rd, wr, reads, writes.
      split; [|done]. by replace (i - idx) with (S (i - S idx)) by lia. }
  destruct entry as [s|items|d|h].
  1,2,4: simpl; intros [= <-]; split; [done|]; rewrite Nat.sub_diag; eexists;
    by split.
  assert (∀ key, key ∈ Parser.required → Parser.get key d = None →
                 Parser.required ∖ Parser.keys d ≠ ∅) as Hmissing.
  { intros key Hreq Hget%get_None Hempty.
    assert (key ∈ Parser.required ∖ Parser.keys d) as Hin by set_solver.
    rewrite Hempty in Hin. by apply not_elem_of_empty in Hin. }
  assert (∀ key, key ∈ Parser.required → Parser.get key d = None →
    Parser.Err (A:=list Transition.t)
      (Parser.MissingKeys idx (Parser.required ∖ Parser.keys d)) = Parser.Err e →
    match e with
    | Parser.NotAList => False
    | Parser.NotADict i =>
        idx ≤ i ∧ ∃ v, (Parser.Dict d :: entries) !! (i - idx) = Some v
                       ∧ ∀ d, v ≠ Parser.Dict d
    | Parser.MissingKeys i missing =>
        idx ≤ i ∧ ∃ d', (Parser.Dict d :: entries) !! (i - idx) = Some (Parser.Dict d')
          ∧ missing = Parser.required ∖ Parser.keys d' ∧ missing ≠ ∅
    | Parser.LengthMismatch i n m =>
        idx ≤ i ∧ n ≠ m
        ∧ ∃ d' read write read_symbols write_symbols,
            (Parser.Dict d :: entries) !! (i - idx) = Some (Parser.Dict d')
            ∧ Parser.get "read" d' = Some read
            ∧ Parser.get "write" d' = Some write
            ∧ Parser._normalize_symbol_field read "read" = Parser.Ok read_symbols
            ∧ Parser._normalize_symbol_field write "write" = Parser.Ok write_symbols
            ∧ n = length read_symbols ∧ m = length write_symbols
    | _ => True
    end) as Hkeys.
  { intros key Hreq Hget [= <-]. split; [done|]. rewrite Nat.sub_diag. exists d.
    split_and!; [done..|]. by eapply Hmissing. }
  simpl.
  destruct (Parser.get "state" d) as [cs|] eqn:Hcs;
    [|apply (Hkeys "state"); [by_evaluation|done]].
  destruct (Parser.get "next" d) as [ns|] eqn:Hns;
    [|apply (Hkeys "next"); [by_evaluation|done]].
  destruct (Parser.get "move" d) as [mv|] eqn:Hmv;
    [|apply (Hkeys "move"); [by_evaluation|done]].
  destruct (Parser.get "read" d) as [rd|] eqn:Hrd;
    [|apply (Hkeys "read"); [by_evaluation|done]].
  destruct (Parser.get "write" d) as [wr|] eqn:Hwr;
    [|apply (Hkeys "write"); [by_evaluation|done]].
  clear Hkeys Hmissing.
  destruct (Parser._normalize_symbol_field rd "read") as [reads|e1] eqn:Hreads; simpl.
  2:{ intros [= <-]. unfold Parser._normalize_symbol_field in Hreads.
      destruct rd as [?|items|?|?]; try done; [|by injection Hreads as <-..].
      destruct (Parser.all_str items); [done|]. by injection Hreads as <-. }
  destruct (Parser._normalize_symbol_field wr "write") as [writes|e2] eqn:Hwrites; simpl.
  2:{ intros [= <-]. unfold Parser._normalize_symbol_field in Hwrites.
      destruct wr as [?|items|?|?]; try done; [|by injection Hwrites as <-..].
      destruct (Parser.all_str items); [done|]. by injection Hwrites as <-. }
  case_decide as Hlen.
  { intros [= <-]. split_and!; [done..|]. rewrite Nat.sub_diag.
    by exists d, rd, wr, reads, writes. }
  destruct (Parser.expand cs mv ns reads writes) as [block|e3] eqn:Hblock; simpl.
  2:{ intros [= <-]. by apply expand_Err in Hblock as [[e' ->]| ->]. }
  apply Hrest.
Qed.

(** X20. The errors of [_parse_transitions] point at the entry at fault:
    the index of "not a dict" is that of an entry that is no dict, the
    index of "missing keys" that of a dict lacking one of the five keys,
    with exactly the lacking keys listed, and the index and the two counts of
    "different number of symbols" those of a dict whose read and write
    fields hold that many symbols; "not a list" means the document's
    transitions are no list. *)
Theorem parse_errors_located (transitions_data : Parser.value) (e : Parser.error) :
  Parser._parse_transitions transitions_data = Parser.Err e →
  match e with
  | Parser.NotAList => ∀ entries, transitions_data ≠ Parser.List entries
  | Parser.NotADict i =>
      ∃ entries v, transitions_data = Parser.List entries
        ∧ entries !! i = Some v ∧ ∀ d, v ≠ Parser.Dict d
  | Parser.MissingKeys i missing =>
      ∃ entries d, transitions_data = Parser.List entries
        ∧ entries !! i = Some (Parser.Dict d)
        ∧ missing = Parser.required ∖ Parser.keys d ∧ missing ≠ ∅
  | Parser.LengthMismatch i n m =>
      n ≠ m
      ∧ ∃ entries d read write read_symbols write_symbols,
          transitions_data = Parser.List entries
          ∧ entries !! i = Some (Parser.Dict d)
          ∧ Parser.get "read" d = Some read
          ∧ Parser.get "write" d = Some write
          ∧ Parser._normalize_symbol_field read "read" = Parser.Ok read_symbols
          ∧ Parser._normalize_symbol_field write "write" = Parser.Ok write_symbols
          ∧ n = length read_symbols ∧ m = length write_symbols
  | _ => True
  end.
Proof.
  unfold Parser._parse_transitions.
  destruct transitions_data as [s|entries|d|h]; try by intros [= <-].
  intros Herr%parse_entries_Err. destruct e as [|i|i missing| | |i n m| |]; try done.
  - destruct Herr as (_ & v & Hv & Hnot). rewrite Nat.sub_0_r in Hv.
    by exists entries, v.
  - destruct Herr as (_ & d & Hd & Hm). rewrite Nat.sub_0_r in Hd.
    by exists entries, d.
  - destruct Herr as (_ & Hne & d & rd & wr & reads & writes & Hd & Hrest).
    rewrite Nat.sub_0_r in Hd. split; [done|].
    by exists entries, d, rd, wr, reads, writes.
Qed.

Lemma parse_errors_located_witness :
  2 ≠ 1
  ∧ ∃ entries d read write read_symbols write_symbols,
      Documents.uneven = Parser.List entries
      ∧ entries !! 1 = Some (Parser.Dict d)
      ∧ Parser.get "read" d = Some read
      ∧ Parser.get "write" d = Some write
      ∧ Parser._normalize_symbol_field read "read" = Parser.Ok read_symbols
      ∧ Parser._normalize_symbol_field write "write" = Parser.Ok write_symbols
      ∧ 2 = length read_symbols ∧ 1 = length write_symbols.
Proof.
  apply (parse_errors_located Documents.uneven (Parser.LengthMismatch 1 2 1)).
  reflexivity.
Defined.

Lemma Forall2_middle_inv {A B} (P : A → B → Prop) (before after : list A)
    (x : A) (ys : list B) :
  Forall2 P (before ++ x :: after) ys ↔
  ∃ ys1 y ys2, ys = ys1 ++ y :: ys2
               ∧ Forall2 P before ys1 ∧ P x y ∧ Forall2 P after ys2.
Proof.
  split.
  - intros (ys1 & ys' & H1 & (y & ys2 & Hy & H2 & ->)%Forall2_cons_inv_l & ->)%Forall2_app_inv_l.
    by exists ys1, y, ys2.
  - intros (ys1 & y & ys2 & -> & H1 & Hy & H2). apply Forall2_app; [done|].
    by constructor.
Qed.

(** X21. An entry whose read and write fields are both the empty list
    stands for no rule, and its state, move and next fields are not looked
    at: with or without such an entry at any place among the entries,
    [_parse_transitions] returns the same rules. *)
Theorem empty_entry_ignored (before after : list Parser.value)
    (trans_dict : list (string * Parser.value))
    (current_state next_state move : Parser.value) (rules : list Transition.t) :
  Parser.get "state" trans_dict = Some current_state →
  Parser.get "next" trans_dict = Some next_state →
  Parser.get "move" trans_dict = Some move →
  Parser.get "read" trans_dict = Some (Parser.List []) →
  Parser.get "write" trans_dict = Some (Parser.List []) →
  Parser._parse_transitions (Parser.List (before ++ Parser.Dict trans_dict :: after))
    = Parser.Ok rules
  ↔ Parser._parse_transitions (Parser.List (before ++ after)) = Parser.Ok rules.
Proof.
  intros Hcs Hns Hmv Hrd Hwr.
  assert (∀ block, Parser.stands_for (Parser.Dict trans_dict) block ↔ block = [])
    as Hempty.
  { intros block. rewrite stands_for_Dict. split.
    - intros (cs & ns & mv & rd & wr & reads & writes & _ & _ & _ & Hrd' & Hwr'
              & Hreads & Hwrites & _ & Hblock).
      rewrite Hrd in Hrd'. rewrite Hwr in Hwr'. injection Hrd' as <-.
      injection Hwr' as <-. injection Hreads as <-. injection Hwrites as <-.
      by injection Hblock as <-.
    - intros ->. by exists current_state, next_state, move, (Parser.List []),
        (Parser.List []), [], []. }
  unfold Parser._parse_transitions. rewrite !parse_entries_Ok. simpl. split.
  - intros (blocks & -> & (b1 & b & b2 & -> & H1 & ->%Hempty & H2)%Forall2_middle_inv).
    exists (b1 ++ b2). split; [|by apply Forall2_app].
    by rewrite !concat_app.
  - intros (blocks & -> & (b1 & b2 & H1 & H2 & ->)%Forall2_app_inv_l).
    exists (b1 ++ [] :: b2). split.
    + by rewrite !concat_app.
    + apply Forall2_middle_inv. exists b1, [], b2. split_and!; try done.
      by apply Hempty.
Qed.

Lemma empty_entry_ignored_witness :
  Parser._parse_transitions
    (Parser.List ([] ++ Documents.entry (Parser.Other true) (Parser.List [])
                          (Parser.List []) (Parser.List []) (Parser.Other false)
                  :: [Documents.entry (Parser.Str "q0") (Parser.Str "1")
                        (Parser.Str "1") (Parser.Str "R") (Parser.Str "qa")]))
  = Parser.Ok [Transition.mk "q0" "1" "1" "R" "qa"].
Proof.
  apply (empty_entry_ignored [] _ _ (Parser.Other true) (Parser.Other false)
           (Parser.List [])); reflexivity.
Defined.

(** * The ceiling only truncates *)

(** Engines built from one definition differ in their ceiling only. *)
Lemma init_same_but_ceiling config max_steps max_steps' self self' :
  __init__ config max_steps = Return self →
  __init__ config max_steps' = Return self' →
  self' = Machine.mk (_config self) (_states self) (_accept_states self)
            (_blank_symbol self) max_steps' (_transition_map self).
Proof.
  intros (sd & table & Hsd & Htable & ->)%init_Return
         (sd' & table' & Hsd' & Htable' & ->)%init_Return.
  simpl. congruence.
Qed.

Lemma advance_ceiling_irrelevant c s a b m m' t n : ∀ l,
  advance (Machine.mk c s a b m t) n l = advance (Machine.mk c s a b m' t) n l.
Proof.
  induction n as [|n IH]; intros l; [done|].
  rewrite !advance_S. simpl.
  change (apply_rule (Machine.mk c s a b m' t) l)
    with (apply_rule (Machine.mk c s a b m t) l).
  case_decide; [done|]. destruct (apply_rule _ l) as [[l'|]|]; [apply IH|done..].
Qed.

(** How far the loop went, and that it met no ceiling on the way. *)
Lemma loop_Return_ceiling self fuel : ∀ l out,
  current_state l ∉ _accept_states self →
  loop fuel self l = Some (Return out) →
  ∃ n, advance self n l = Some (final out)
       ∧ (via out = StepCeiling → 0 < n)
       ∧ ∀ k, 0 < k < n → ceiling_reached self (steps l + Z.of_nat k) = false.
Proof.
  induction fuel as [|fuel IH]; intros l out Hacc; [done|].
  rewrite loop_S. destruct (iteration self l) as [x|e] eqn:Hit; [|done].
  apply iteration_Return in Hit
    as [[Happ ->]|(l' & Happ & [[Hacc' ->]|[(Hacc' & Hc & ->)|(Hacc' & Hc & ->)]])].
  - intros [= <-]. exists 0. split_and!; [done|done|lia].
  - intros [= <-]. exists 1. split_and!; [|lia|lia].
    by rewrite advance_S, decide_False, Happ.
  - intros [= <-]. exists 1. split_and!; [|lia|lia].
    by rewrite advance_S, decide_False, Happ.
  - intros (n & Hadv & Hvia & Hfree)%IH; [|done]. exists (S n).
    pose proof (apply_rule_counts _ _ _ Happ) as (Hs & _).
    split_and!; [|lia|].
    + by rewrite advance_S, decide_False, Happ.
    + intros k Hk. destruct (decide (k = 1)) as [->|Hne].
      * by replace (steps l + Z.of_nat 1)%Z with (steps l') by lia.
      * replace (steps l + Z.of_nat k)%Z with (steps l' + Z.of_nat (k - 1))%Z by lia.
        apply Hfree. lia.
Qed.

Lemma advance_length_inj self n n' l l' :
  advance self n l = Some l' → advance self n' l = Some l' → n = n'.
Proof.
  intros (_ & H1 & _)%advance_counts (_ & H2 & _)%advance_counts. lia.
Qed.

(** X22. Raising the step ceiling only extends a run.  For two engines
    built from the same definition, the second with a higher ceiling or
    none, the trace of the first is a prefix of the trace of the second on
    the same input; and a run the first engine accepts is returned
    unchanged by the second. *)
Theorem raising_ceiling_extends (config : MachineConfig.t) (N : Z)
    (max_steps' : option Z) (self self' : Machine.t) (input_string : string)
    (fuel fuel' : nat) (trace trace' : list InstantDescription.t)
    (verdict verdict' : bool) :
  (∀ N', max_steps' = Some N' → (N ≤ N')%Z) →
  __init__ config (Some N) = Return self →
  __init__ config max_steps' = Return self' →
  run fuel self input_string = Some (Return (trace, verdict)) →
  run fuel' self' input_string = Some (Return (trace', verdict')) →
  trace `prefix_of` trace'
  ∧ (verdict = true → trace' = trace ∧ verdict' = true).
Proof.
  intros Hle Hinit Hinit' (out & Hrun & -> & ->)%run_Return
         (out' & Hrun' & -> & ->)%run_Return.
  pose proof (init_same_but_ceiling _ _ _ _ _ Hinit Hinit') as Hself'.
  destruct (init_fields _ _ _ Hinit) as (_ & _ & HN & _).
  destruct self as [c s a b m t]. simpl in *. subst m self'.
  set (self := Machine.mk c s a b (Some N) t) in *.
  set (self' := Machine.mk c s a b max_steps' t) in *.
  pose proof (run_traced_Return _ _ _ _ Hrun) as (Hex & l0 & n & Hstart & Hadv & Hsteps & _).
  pose proof (run_traced_Return _ _ _ _ Hrun')
    as (Hex' & l0' & n' & Hstart' & Hadv' & Hsteps' & _).
  change (start self' input_string) with (start self input_string) in Hstart'.
  rewrite Hstart in Hstart'. injection Hstart' as <-.
  unfold self' in Hadv'. rewrite <-(advance_ceiling_irrelevant c s a b (Some N)) in Hadv'.
  fold self in Hadv'.
  assert (n ≤ n') as Hnn'.
  { destruct (decide (n ≤ n')) as [|Hlt]; [done|]. exfalso.
    destruct (advance_before_not_accepting self n n' l0 (final out) Hadv)
      as (lk & Hlk & Hacc); [lia|].
    assert (lk = final out') as -> by congruence.
    replace n with (n' + S (n - S n')) in Hadv by lia.
    apply advance_split in Hadv as (lk & Hlk' & Hnext).
    assert (lk = final out') as -> by congruence.
    rewrite advance_S, decide_False in Hnext by done.
    unfold exit_ok in Hex'. destruct (via out') eqn:Hvia'.
    - by destruct Hex' as (_ & ? & _).
    - destruct Hex' as (_ & _ & Happ').
      change (apply_rule self' (final out')) with (apply_rule self (final out')) in Happ'.
      by rewrite Happ' in Hnext.
    - by destruct Hex' as (_ & ?).
    - destruct Hex' as (_ & _ & Hc'). unfold ceiling_reached in Hc'. simpl in Hc'.
      destruct max_steps' as [N'|]; [|done]. apply bool_decide_eq_true in Hc'.
      specialize (Hle N' eq_refl).
      unfold run_traced in Hrun, Hrun'.
      change (start self' input_string) with (start self input_string) in Hrun'.
      rewrite Hstart in Hrun, Hrun'.
      change (_accept_states self') with (_accept_states self) in Hrun'.
      destruct (decide (current_state l0 ∈ _accept_states self)) as [|Hacc0];
        [by injection Hrun' as <-|].
      apply loop_Return_ceiling in Hrun as (m & Hm & _ & Hfree); [|done].
      apply loop_Return_ceiling in Hrun' as (m' & Hm' & Hpos & _); [|done].
      specialize (Hpos Hvia').
      unfold self' in Hm'.
      rewrite <-(advance_ceiling_irrelevant c s a b (Some N)) in Hm'. fold self in Hm'.
      assert (m' = n') as -> by (by eapply advance_length_inj).
      assert (advance self (n' + S (n - S n')) l0 = Some (final out)) as Hn.
      { apply advance_split. exists (final out'). split; [done|].
        by rewrite advance_S, decide_False. }
      assert (m = n' + S (n - S n')) as -> by (by eapply advance_length_inj).
      specialize (Hfree n' ltac:(lia)). unfold ceiling_reached in Hfree. simpl in Hfree.
      apply bool_decide_eq_false in Hfree.
      apply start_Return in Hstart as (_ & snap & _ & ->). simpl in *. lia. }
  replace n' with (n + (n' - n)) in Hadv' by lia.
  apply advance_split in Hadv' as (lk & Hlk & Hrest).
  assert (lk = final out) as -> by congruence.
  split.
  - apply advance_counts in Hrest as (_ & _ & more & ->). by exists more.
  - intros Hacc.
    assert (current_state (final out) ∈ _accept_states self) as Hin.
    { unfold exit_ok in Hex. destruct (via out);
        destruct Hex as (? & ? & _) || destruct Hex as (? & ?); congruence. }
    destruct (n' - n) as [|d]; [|by rewrite advance_S, decide_True in Hrest].
    injection Hrest as Heq. split; [by rewrite Heq|].
    unfold exit_ok in Hex'. rewrite <-Heq in Hex'.
    change (_accept_states self') with (_accept_states self) in Hex'.
    destruct (via out'); destruct Hex' as (? & ? & _) || destruct Hex' as (? & ?);
      done.
Qed.

Lemma raising_ceiling_extends_witness :
  [InstantDescription.mk "q0" "00" 0; InstantDescription.mk "q0" "00" 1]
  `prefix_of`
  [InstantDescription.mk "q0" "00" 0; InstantDescription.mk "q0" "00" 1;
   InstantDescription.mk "q0" "00B" 2]
  ∧ (false = true →
     [InstantDescription.mk "q0" "00" 0; InstantDescription.mk "q0" "00" 1;
      InstantDescription.mk "q0" "00B" 2]
     = [InstantDescription.mk "q0" "00" 0; InstantDescription.mk "q0" "00" 1]
     ∧ false = true).
Proof.
  apply (raising_ceiling_extends Examples.scanner 1 None
           (Examples.scanner_engine (Some 1%Z)) (Examples.scanner_engine None)
           "00" 5 5).
  - done.
  - reflexivity.
  - reflexivity.
  - reflexivity.
  - reflexivity.
Defined.

(** * Reading the tape back from a snapshot *)

Lemma chars_join_single (cells : list string) :
  Forall (λ cell, String.length cell = 1) cells →
  Py.chars (Py.join "" cells) = cells.
Proof.
  induction 1 as [|cell cells Hcell _ IH]; [done|].
  rewrite join_cons. destruct cell as [|a [|? ?]]; try done.
  change (Py.chars (String a "" +:+ Py.join "" cells))
    with (String a "" :: Py.chars (Py.join "" cells)).
  by rewrite IH.
Qed.

(** X23. When the blank symbol and the write symbol of every rule are one
    character long, a snapshot loses nothing of the tape: the characters of
    the tape text of the [k]-th snapshot are the cells of the configuration
    after [k] steps, one character per cell. *)
Theorem snapshot_text_is_tape (config : MachineConfig.t) (max_steps : option Z)
    (self : Machine.t) (input_string : string) (fuel : nat)
    (trace : list InstantDescription.t) (verdict : bool)
    (k : nat) (snap : InstantDescription.t) :
  String.length (MachineConfig.blank_symbol config) = 1 →
  Forall (λ rule, String.length (Transition.write_symbol rule) = 1)
    (MachineConfig.transitions config) →
  __init__ config max_steps = Return self →
  run fuel self input_string = Some (Return (trace, verdict)) →
  trace !! k = Some snap →
  ∃ l0 lk,
    start self input_string = Return l0
    ∧ advance self k l0 = Some lk
    ∧ Py.chars (InstantDescription.tape snap) = tape lk
    ∧ String.length (InstantDescription.tape snap) = length (tape lk)
    ∧ InstantDescription.head_position snap = head_index lk
    ∧ InstantDescription.state snap = current_state lk.
Proof.
  intros Hblank Hwrite Hinit (out & Hrun & -> & _)%run_Return Hk.
  destruct (init_fields _ _ _ Hinit) as (_ & Hb & _ & _ & _ & Hfrom).
  apply run_traced_Return in Hrun as (_ & l0 & n & Hstart & Hadv & _).
  destruct (history_renders _ _ _ _ _ Hstart Hadv k snap Hk) as (lk & Hlk & ->).
  destruct (start_tape _ _ _ Hstart) as [Hhd0 Hlen0].
  assert (0 ≤ head_index l0 < Py.len (tape l0))%Z as Hrange0
    by (rewrite Hhd0; unfold Py.len; lia).
  assert (Forall (λ cell, String.length cell = 1) (tape lk)) as Hsingle.
  { eapply (advance_single self k l0 lk); try done.
    - by rewrite Hb.
    - intros key rule [Hin _]%Hfrom. rewrite Forall_forall in Hwrite. by apply Hwrite.
    - apply start_Return in Hstart as (_ & snap0 & _ & ->). simpl.
      unfold _initialize_tape. case_decide.
      + constructor; [by rewrite Hb|constructor].
      + clear. induction input_string; simpl; constructor; done. }
  exists l0, lk. simpl. split_and!; try done.
  - by apply chars_join_single.
  - by apply join_length_single.
Qed.

Lemma snapshot_text_is_tape_witness :
  ∃ l0 lk,
    start (Examples.scanner_engine None) "01" = Return l0
    ∧ advance (Examples.scanner_engine None) 2 l0 = Some lk
    ∧ Py.chars "01B" = tape lk
    ∧ String.length "01B" = length (tape lk)
    ∧ 2%Z = head_index lk
    ∧ "qa" = current_state lk.
Proof.
  apply (snapshot_text_is_tape Examples.scanner None (Examples.scanner_engine None)
           "01" 5
           [InstantDescription.mk "q0" "01" 0; InstantDescription.mk "q0" "01" 1;
            InstantDescription.mk "qa" "01B" 2] true 2
           (InstantDescription.mk "qa" "01B" 2)).
  - reflexivity.
  - by_evaluation.
  - reflexivity.
  - reflexivity.
  - reflexivity.
Defined.
